(** * codewise: file selection, tree rendering and context assembly

    A shallow embedding of [src/index.ts] (the whole tool lives in that one
    file) and the properties of its specification that can be settled on it.

    Conventions of the embedding.

    - JavaScript strings are [string]; a literal with box-drawing characters
      stands for its UTF-8 bytes.
    - Code that can throw returns [result]; [Throw] carries the message of
      the JavaScript [Error].  Where a function is followed only on a
      fragment of JavaScript (see [Inclusion.insertParts]) it returns an
      [option], [None] standing for an execution outside the fragment, about
      which nothing is claimed.
    - A call of the logger is a [Codewise.LogLine]; a function that logs
      returns its log beside its result, or has the log as a function of
      its own next to it ([Codewise.getFileContentLog]).
    - The file system is a finite tree ([Fs.fsnode]) rooted at the working
      directory; paths are strings, as in the code, and name a node of that
      tree ([Fs.locate]).  [path.join] and [path.relative] are modelled on
      the paths the code builds: normalised, and below the working
      directory, which is the [dir] that [main] passes.
    - The packages [glob] and [ignore] and Node's [fs] are not part of the
      repository.  Their pattern languages are section variables; how the
      code combines them is modelled. *)

From Stdlib Require Import String Ascii List Bool ZArith NArith Lia.
Import ListNotations.
Open Scope list_scope.
Open Scope string_scope.
Set Warnings "-register-all".

(* ================================================================== *)
(** ** Strings *)

(** The line feed, [\n]. *)
Definition LF : string := String "010" "".

Module Str.

(** [s.startsWith(p)], returning what follows [p]. *)
Fixpoint strip_prefix (p s : string) : option string :=
  match p with
  | EmptyString => Some s
  | String a p' =>
      match s with
      | EmptyString => None
      | String b s' => if Ascii.eqb a b then strip_prefix p' s' else None
      end
  end.

(** Cut [s] at the first occurrence of [pat]: the text before it and the
    text after it ([s.indexOf(pat)] followed by two [slice]s). *)
Fixpoint cut (pat s : string) : option (string * string) :=
  match strip_prefix pat s with
  | Some rest => Some (EmptyString, rest)
  | None =>
      match s with
      | EmptyString => None
      | String c s' =>
          match cut pat s' with
          | Some (before, after) => Some (String c before, after)
          | None => None
          end
      end
  end.

(** [s.includes(pat)] *)
Definition includes (pat s : string) : bool :=
  match cut pat s with Some _ => true | None => false end.

(** Does the character occur in the string? *)
Fixpoint mem (a : ascii) (s : string) : bool :=
  match s with
  | EmptyString => false
  | String b s' => Ascii.eqb a b || mem a s'
  end.

(** [s.split(sep)] for a one-character separator: never the empty list. *)
Fixpoint split (sep : ascii) (s : string) : list string :=
  match s with
  | EmptyString => [EmptyString]
  | String c s' =>
      if Ascii.eqb c sep then EmptyString :: split sep s'
      else match split sep s' with
           | [] => [String c EmptyString]
           | w :: ws => String c w :: ws
           end
  end.

(** Remove one trailing line feed; [None] when there is none. *)
Fixpoint chop_lf (s : string) : option string :=
  match s with
  | EmptyString => None
  | String c s' =>
      match s' with
      | EmptyString => if Ascii.eqb c "010" then Some EmptyString else None
      | _ => option_map (String c) (chop_lf s')
      end
  end.

End Str.

(* ================================================================== *)
(** ** Exceptions *)

Inductive result (A : Type) : Type :=
| Ok (a : A)
| Throw (message : string).
Arguments Ok {A} a.
Arguments Throw {A} message.

Definition bind {A B} (r : result A) (k : A -> result B) : result B :=
  match r with
  | Ok a => k a
  | Throw m => Throw m
  end.

Declare Scope result_scope.
Delimit Scope result_scope with result.
Notation "'let*' x ':=' r 'in' k" := (bind r (fun x => k))
  (at level 10, x name, r at level 100, k at level 200) : result_scope.
Open Scope result_scope.

Definition succeeded {A} (r : result A) : bool :=
  match r with Ok _ => true | _ => false end.

Definition throws {A} (r : result A) : bool :=
  match r with Throw _ => true | _ => false end.

(** [Array.prototype.filter] with a callback that can throw. *)
Fixpoint filterM {A} (keep : A -> result bool) (l : list A) : result (list A) :=
  match l with
  | [] => Ok []
  | x :: more =>
      let* k := keep x in
      let* rest := filterM keep more in
      Ok (if k then x :: rest else rest)
  end.

(* ================================================================== *)
(** ** The connectors of both trees *)

Module Draw.

Definition connector (isLast : bool) : string :=
  if isLast then "└── " else "├── ".

Definition continuation (isLast : bool) : string :=
  if isLast then "    " else "│   ".

(** [index === entries.length - 1], read on what is left of the list. *)
Definition isNil {A} (l : list A) : bool :=
  match l with [] => true | _ :: _ => false end.

End Draw.

(* ================================================================== *)
(** ** The world: Node's [fs] and [path]

    The file system is the tree below the working directory; no other path
    exists.  Symbolic links are followed by [statSync], so a link to a file
    is modelled by its target, and a link without a target is a [Missing]
    entry; links to directories are not modelled. *)

Module Fs.

Inductive fsnode : Type :=
| File (size : Z) (data : result string)
    (** [statSync(p).size], and what [readFileSync(p, 'utf8')] gives *)
| Missing
    (** an entry that a listing reports and [statSync] cannot find: removed
        since the listing, or a dangling link *)
| Dir (entries : list (string * fsnode))
    (** [readdirSync] order *)
| Sealed (entries : list (string * fsnode)).
    (** a directory that can be entered and not listed (no read
        permission): [statSync] finds it and what is below it,
        [readdirSync] throws *)

Record World : Type := {
  cwd : string;        (** [process.cwd()], absolute, without a final slash *)
  root : fsnode;       (** the directory [cwd] *)
  writeError : string -> option string
    (** the error [writeFileSync(p, ...)] throws, if it does *)
}.

Record Stats : Type := { isDirectory : bool; size : Z }.

Definition slash : ascii := "/".

(** [path.join(dir, file)] for a normalised [file] below [dir]. *)
Definition path_join (dir file : string) : string :=
  dir ++ String slash file.

(** [path.relative(from, to)] for [to] below [from]. *)
Definition path_relative (from to : string) : string :=
  match Str.strip_prefix (String.append from (String slash "")) to with
  | Some rel => rel
  | None => to
  end.

Fixpoint entry (entries : list (string * fsnode)) (name : string)
  : option fsnode :=
  match entries with
  | [] => None
  | (n, node) :: rest => if String.eqb n name then Some node else entry rest name
  end.

Fixpoint resolve (node : fsnode) (segments : list string) : option fsnode :=
  match segments with
  | [] => Some node
  | name :: more =>
      match node with
      | Dir entries | Sealed entries =>
          match entry entries name with
          | Some child => resolve child more
          | None => None
          end
      | _ => None
      end
  end.

(** The node a path names: an absolute path must lie below [cwd], a
    relative one is resolved against it. *)
Definition locate (w : World) (p : string) : option fsnode :=
  match p with
  | String "/" _ =>
      match Str.strip_prefix (cwd w) p with
      | Some EmptyString => Some (root w)
      | Some (String "/" rel) => resolve (root w) (Str.split slash rel)
      | _ => None
      end
  | _ => resolve (root w) (Str.split slash p)
  end.

Definition ENOENT (call p : string) : string :=
  "ENOENT: no such file or directory, " ++ call ++ " '" ++ p ++ "'".

Definition EACCES (call p : string) : string :=
  "EACCES: permission denied, " ++ call ++ " '" ++ p ++ "'".

Definition statSync (w : World) (p : string) : result Stats :=
  match locate w p with
  | Some (File sz _) => Ok {| isDirectory := false; size := sz |}
  | Some (Dir _) | Some (Sealed _) => Ok {| isDirectory := true; size := 0 |}
  | Some Missing | None => Throw (ENOENT "stat" p)
  end.

Definition existsSync (w : World) (p : string) : bool :=
  succeeded (statSync w p).

Definition readFileSync (w : World) (p : string) : result string :=
  match locate w p with
  | Some (File _ data) => data
  | Some (Dir _) | Some (Sealed _) =>
      Throw "EISDIR: illegal operation on a directory, read"
  | Some Missing | None => Throw (ENOENT "open" p)
  end.

Definition writeFileSync (w : World) (p content : string) : result unit :=
  match writeError w p with
  | Some message => Throw message
  | None => Ok tt
  end.

(** The files (not the directories) below a directory, depth first in
    listing order, as paths relative to it: what a [glob] walk with
    [nodir] and [dot] visits.  A directory that cannot be listed
    contributes nothing, without an error.  The order in which [glob]
    returns the files is its own; only the lists of the examples depend
    on the order chosen here. *)
Fixpoint walk (node : fsnode) (dir : string) : list string :=
  match node with
  | Dir entries =>
      (fix each (es : list (string * fsnode)) : list string :=
         match es with
         | [] => []
         | (name, child) :: rest =>
             let p := match dir with
                      | EmptyString => name
                      | _ => path_join dir name
                      end in
             (match child with
              | Dir _ | Sealed _ => walk child p
              | _ => [p]
              end ++ each rest)%list
         end) entries
  | _ => []
  end.

End Fs.

(* ================================================================== *)
(** ** The packages [ignore] and [glob]

    How one gitignore pattern is compiled and how one glob pattern matches a
    path is left to the packages (section variables below); how rules
    combine follows the package: rules are tried in the order added, the
    last one that matches decides, a negated rule un-ignores, a path below
    an ignored directory is ignored, and a path that is not relative to the
    working directory is refused with an error.  The package does not look
    at the file system: a directory is asked about with a final slash, and
    a pattern with a final slash matches directories only. *)

Module Ignore.

Record Rule : Type := { negative : bool; regex : string -> bool }.

(** The [Ignore] object: its rules, in the order added. *)
Definition t : Type := list Rule.

(** Lines of a text, as [text.split(/\r?\n/)] cuts them. *)
Definition CR : ascii := "013".

Fixpoint chop_cr (s : string) : string :=
  match s with
  | EmptyString => EmptyString
  | String c EmptyString => if Ascii.eqb c CR then EmptyString else s
  | String c s' => String c (chop_cr s')
  end.

Fixpoint chop_crs (pieces : list string) : list string :=
  match pieces with
  | [] => []
  | [last] => [last]
  | piece :: more => chop_cr piece :: chop_crs more
  end.

Definition lines (text : string) : list string :=
  chop_crs (Str.split "010" text).

Section Package.

(** One pattern compiled: [None] for a line the package skips (blank,
    comment), otherwise whether it is negated and its matcher. *)
Variable createRule : string -> option Rule.

Fixpoint rules (patterns : list string) : list Rule :=
  match patterns with
  | [] => []
  | p :: more =>
      match createRule p with
      | Some r => r :: rules more
      | None => rules more
      end
  end.

(** [ig.add(patterns)] with an array. *)
Definition add (ig : t) (patterns : list string) : t :=
  (ig ++ rules patterns)%list.

(** [ig.add(text)] with the content of a gitignore file. *)
Definition addText (ig : t) (text : string) : t :=
  add ig (lines text).

End Package.

(** One rule tried on a path that is [ignored] or not so far. *)
Definition decide (p : string) (ignored : bool) (r : Rule) : bool :=
  if regex r p then negb (negative r) else ignored.

(** The last matching rule decides. *)
Definition testOne (ig : t) (p : string) : bool :=
  fold_left (decide p) ig false.

(** The directories above a path, outermost first, each with its final
    slash. *)
Fixpoint parents (done : string) (segments : list string) : list string :=
  match segments with
  | [] | [_] => []
  | name :: more =>
      let dir := done ++ name ++ "/" in
      dir :: parents dir more
  end.

(** The verdict on a path that the package accepts: a path below a
    flagged directory is flagged. *)
Definition flags (ig : t) (p : string) : bool :=
  existsb (testOne ig) (parents "" (Str.split "/" p)) || testOne ig p.

Fixpoint dropDots (p : string) : string :=
  match p with
  | String "." p' => dropDots p'
  | _ => p
  end.

(** The test of the package's [/^\.*\/|^\.+$/] on a path that is not
    empty: the path starts with a slash, with [./] or [../], or is made
    of dots only. *)
Definition notRelative (p : string) : bool :=
  match dropDots p with
  | EmptyString => true
  | String "/" _ => true
  | _ => false
  end.

(** The package's [checkPath]: it throws a [TypeError] on the empty path
    and a [RangeError] on a path that is not relative to the working
    directory. *)
Definition checkPath (p : string) : result unit :=
  match p with
  | EmptyString => Throw "path must not be empty"
  | _ =>
      if notRelative p then
        Throw ("path should be a `path.relative()`d string, but got "
               ++ String "034" p ++ String "034" "")
      else Ok tt
  end.

(** [ig.ignores(path)] *)
Definition ignores (ig : t) (p : string) : result bool :=
  let* _ := checkPath p in
  Ok (flags ig p).

End Ignore.

(* ================================================================== *)
(** ** The inclusion tree: [formatIncludedFiles]

    [fileTree] is a plain JavaScript object used as a nested map: a key maps
    to [null] (a file) or to another such object (a directory). *)

Module Inclusion.
Import Draw.

Inductive TreeNode : Type :=
| JNull
| JObj (props : list (string * TreeNode)).

(** The own properties of an object are kept in the order in which
    [Object.entries] enumerates them: keys that are array indices first, in
    ascending numeric order, then the other keys in the order of their
    creation. *)
Definition Props := list (string * TreeNode).

Definition digit (c : ascii) : option N :=
  let n := N_of_ascii c in
  if ((48 <=? n) && (n <=? 57))%N then Some (n - 48)%N else None.

Fixpoint digits (acc : N) (s : string) : option N :=
  match s with
  | EmptyString => Some acc
  | String c s' =>
      match digit c with
      | Some d => digits (acc * 10 + d)%N s'
      | None => None
      end
  end.

(** A key is an array index when it is the canonical decimal form of an
    integer between 0 and 2^32 - 2. *)
Definition arrayIndex (key : string) : option N :=
  match key with
  | EmptyString => None
  | String "0" EmptyString => Some 0%N
  | String "0" _ => None
  | _ =>
      if Nat.leb (String.length key) 10 then
        match digits 0 key with
        | Some n => if (n <=? 4294967294)%N then Some n else None
        | None => None
        end
      else None
  end.

(** The property names every object inherits from [Object.prototype];
    reading one of them from a fresh [{}] yields a built-in, which is
    truthy. *)
Definition prototypeKeys : list string :=
  [ "constructor"; "__defineGetter__"; "__defineSetter__"; "hasOwnProperty";
    "__lookupGetter__"; "__lookupSetter__"; "isPrototypeOf";
    "propertyIsEnumerable"; "toString"; "valueOf"; "__proto__";
    "toLocaleString" ].

Definition inherited (key : string) : bool :=
  existsb (String.eqb key) prototypeKeys.

Fixpoint own (props : Props) (key : string) : option TreeNode :=
  match props with
  | [] => None
  | (k, v) :: rest => if String.eqb k key then Some v else own rest key
  end.

(** The value of the expression [currentNode[part]]. *)
Inductive Value : Type :=
| Undefined
| Builtin
| Own (v : TreeNode).

Definition get (props : Props) (key : string) : Value :=
  if inherited key then Builtin
  else match own props key with
       | Some v => Own v
       | None => Undefined
       end.

(** [!value] is false for an object or a built-in, true for [null] and
    [undefined]. *)
Definition truthy (v : Value) : bool :=
  match v with
  | Undefined => false
  | Builtin => true
  | Own JNull => false
  | Own (JObj _) => true
  end.

Fixpoint replace (key : string) (v : TreeNode) (props : Props) : Props :=
  match props with
  | [] => []
  | (k, w) :: rest =>
      if String.eqb k key then (k, v) :: rest
      else (k, w) :: replace key v rest
  end.

Fixpoint defineIndexed (n : N) (key : string) (v : TreeNode) (props : Props)
  : Props :=
  match props with
  | [] => [(key, v)]
  | (k, w) :: rest =>
      match arrayIndex k with
      | Some m =>
          if (m <? n)%N then (k, w) :: defineIndexed n key v rest
          else (key, v) :: props
      | None => (key, v) :: props
      end
  end.

(** [currentNode[part] = v]: an existing own property keeps its place, a
    new one is created where the enumeration order puts it. *)
Definition assign (props : Props) (key : string) (v : TreeNode) : Props :=
  match own props key with
  | Some _ => replace key v props
  | None =>
      match arrayIndex key with
      | Some n => defineIndexed n key v props
      | None => (props ++ [(key, v)])%list
      end
  end.

(** The inner [pathParts.forEach]: [currentNode] is the object [props], and
    the result is that object after the walk.  The nested objects are
    never shared, so the in-place updates are a functional update of the
    path walked.  [None]: the walk stepped through an inherited property
    into a built-in object, which this model does not follow. *)
Fixpoint insertParts (pathParts : list string) (currentNode : Props)
  : option Props :=
  match pathParts with
  | [] => Some currentNode
  | part :: rest =>
      match rest with
      | [] =>
          (* index === pathParts.length - 1 *)
          if truthy (get currentNode part) then Some currentNode
          else Some (assign currentNode part JNull)
      | _ :: _ =>
          match get currentNode part with
          | Builtin => None
          | Own (JObj child) =>
              match insertParts rest child with
              | Some child' => Some (replace part (JObj child') currentNode)
              | None => None
              end
          | Own JNull | Undefined =>
              (* currentNode[part] = {} *)
              match insertParts rest [] with
              | Some child' => Some (assign currentNode part (JObj child'))
              | None => None
              end
          end
      end
  end.

(** [path.sep] on POSIX. *)
Definition sep : ascii := "/".

(** The outer [files.forEach], from a given [fileTree]. *)
Fixpoint insertFiles (files : list string) (fileTree : Props)
  : option Props :=
  match files with
  | [] => Some fileTree
  | filePath :: more =>
      match insertParts (Str.split sep filePath) fileTree with
      | Some fileTree' => insertFiles more fileTree'
      | None => None
      end
  end.

Definition buildTree (files : list string) : option Props :=
  insertFiles files [].

(** [renderTree(node, prefix)]; [index === entries.length - 1] holds for
    the entry with nothing after it. *)
Fixpoint renderTree (node : TreeNode) (prefix : string) : string :=
  match node with
  | JNull => ""
  | JObj props =>
      (fix entries (es : Props) : string :=
         match es with
         | [] => ""
         | (key, value) :: rest =>
             let isLast := isNil rest in
             prefix ++ connector isLast ++ key ++ LF
             ++ match value with
                | JNull => ""
                | JObj _ => renderTree value (prefix ++ continuation isLast)
                end
             ++ entries rest
         end) props
  end.

Definition formatIncludedFiles (files : list string) : option string :=
  match buildTree files with
  | Some fileTree => Some (renderTree (JObj fileTree) "")
  | None => None
  end.


(** *** Reading the tree *)

(** Follow own properties along a path of keys. *)
Fixpoint descend (node : TreeNode) (path : list string) : option TreeNode :=
  match path with
  | [] => Some node
  | key :: more =>
      match node with
      | JNull => None
      | JObj props =>
          match own props key with
          | Some child => descend child more
          | None => None
          end
      end
  end.

(** The loop body of [renderTree] over the entries still to be visited. *)
Fixpoint renderEntries (prefix : string) (es : Props) : string :=
  match es with
  | [] => ""
  | (key, value) :: rest =>
      let isLast := isNil rest in
      prefix ++ connector isLast ++ key ++ LF
      ++ renderTree value (prefix ++ continuation isLast)
      ++ renderEntries prefix rest
  end.

(** One row per rendered line: the path of keys the line stands for, and
    the text of the line. *)
Fixpoint rows (node : TreeNode) (path : list string) (prefix : string)
  : list (list string * string) :=
  match node with
  | JNull => []
  | JObj props =>
      (fix entries (es : Props) : list (list string * string) :=
         match es with
         | [] => []
         | (key, value) :: rest =>
             let isLast := isNil rest in
             ((path ++ [key])%list,
              prefix ++ connector isLast ++ key ++ LF)
             :: (rows value (path ++ [key])%list
                   (prefix ++ continuation isLast)
                 ++ entries rest)%list
         end) props
  end.

(** The paths of the rendered lines, top to bottom. *)
Definition renderedPaths (fileTree : Props) : list (list string) :=
  map fst (rows (JObj fileTree) [] "").

(** *** What the specification says the order is *)

(** [path] continues [dir]: what is left of it after [dir]. *)
Fixpoint below (dir path : list string) : option (list string) :=
  match dir with
  | [] => Some path
  | d :: dir' =>
      match path with
      | [] => None
      | p :: path' => if String.eqb d p then below dir' path' else None
      end
  end.

(** The name by which [path] enters directory [dir], if it passes through. *)
Definition nextSeg (dir path : list string) : option string :=
  match below dir path with
  | Some (name :: _) => Some name
  | _ => None
  end.

Fixpoint nextSegs (dir : list string) (paths : list (list string))
  : list string :=
  match paths with
  | [] => []
  | path :: more =>
      match nextSeg dir path with
      | Some name => name :: nextSegs dir more
      | None => nextSegs dir more
      end
  end.

Definition addKey (seen : list string) (name : string) : list string :=
  if existsb (String.eqb name) seen then seen else (seen ++ [name])%list.

(** The distinct names of a list, each at its first occurrence. *)
Definition firstSeen (names : list string) : list string :=
  fold_left addKey names [].

(** A path segment that is neither an array index nor a name inherited
    from [Object.prototype]. *)
Definition ordinary (name : string) : bool :=
  negb (inherited name)
  && match arrayIndex name with Some _ => false | None => true end.

Definition ordinaryPath (filePath : string) : bool :=
  forallb ordinary (Str.split sep filePath).

Fixpoint pathEqb (x y : list string) : bool :=
  match x, y with
  | [], [] => true
  | a :: x', b :: y' => String.eqb a b && pathEqb x' y'
  | _, _ => false
  end.

(** Position of the first element equal to [x]. *)
Fixpoint position (x : list string) (l : list (list string)) : option nat :=
  match l with
  | [] => None
  | y :: l' => if pathEqb x y then Some 0 else option_map S (position x l')
  end.

(** [x] is on a line above the line of [y]. *)
Definition renderedBefore (x y : list string) (l : list (list string))
  : Prop :=
  exists i j, position x l = Some i /\ position y l = Some j /\ i < j.

(** Two paths diverge when neither continues the other. *)
Definition diverge (x y : list string) : Prop :=
  below x y = None /\ below y x = None.

Definition joinRows (texts : list string) : string :=
  fold_right append "" texts.

(** The order the specification claims: of two files whose paths diverge,
    the one selected first is rendered first. *)
Definition selectionOrderRendered (files : list string) : Prop :=
  forall fileTree i j f g,
    buildTree files = Some fileTree ->
    i < j ->
    nth_error files i = Some f ->
    nth_error files j = Some g ->
    diverge (Str.split sep f) (Str.split sep g) ->
    renderedBefore (Str.split sep f) (Str.split sep g)
      (renderedPaths fileTree).

(** What is claimed of a path [p] that a later path continues: [p] ends
    up as a directory that has children. *)
Definition directoryWithChildren (files : list string) (p : string) : Prop :=
  exists fileTree children,
    buildTree files = Some fileTree
    /\ descend (JObj fileTree) (Str.split sep p) = Some (JObj children)
    /\ children <> [].

(** The paths of the rows of a subtree whose root has path [base]. *)
Fixpoint paths (node : TreeNode) (base : list string) : list (list string) :=
  match node with
  | JNull => []
  | JObj props =>
      (fix entries (es : Props) : list (list string) :=
         match es with
         | [] => []
         | (key, value) :: rest =>
             ((base ++ [key]) :: paths value (base ++ [key]) ++ entries rest)%list
         end) props
  end.

(** Position of the first occurrence of a name. *)
Fixpoint nameIndex (name : string) (names : list string) : option nat :=
  match names with
  | [] => None
  | n :: more =>
      if String.eqb name n then Some 0 else option_map S (nameIndex name more)
  end.

(** [a] first occurs before [b] first occurs. *)
Definition firstBefore (a b : string) (names : list string) : Prop :=
  exists i j, nameIndex a names = Some i /\ nameIndex b names = Some j /\ i < j.

(** [z] lies in the block of [key] below [base]. *)
Definition under (base : list string) (key : string) (z : list string)
  : Prop :=
  exists more, z = (base ++ key :: more)%list.

(** *** Bookkeeping for the proofs *)

(** The object the walk enters at [part]: the directory already there, or
    the fresh [{}] that is assigned otherwise. *)
Definition entered (cur : Props) (part : string) : Props :=
  match own cur part with
  | Some (JObj child) => child
  | _ => []
  end.

(** What the last part leaves at its key. *)
Definition settled (cur : Props) (part : string) : TreeNode :=
  match own cur part with
  | Some (JObj child) => JObj child
  | _ => JNull
  end.

(** The keys of the directory reached from [node] along [path]. *)
Definition keysOf (node : TreeNode) (path : list string)
  : option (list string) :=
  match descend node path with
  | Some (JObj props) => Some (map fst props)
  | _ => None
  end.

(** How the keys of a directory change when a path enters it by [name]. *)
Definition grow (old : option (list string)) (name : option string)
  : option (list string) :=
  match old, name with
  | Some ks, Some s => Some (addKey ks s)
  | Some ks, None => Some ks
  | None, Some s => Some [s]
  | None, None => None
  end.

(** The keys a directory must have after the given paths. *)
Definition expectedKeys (dir : list string) (paths : list (list string))
  : option (list string) :=
  let names := nextSegs dir paths in
  if isNil dir || negb (isNil names) then Some (firstSeen names) else None.

End Inclusion.

(* ================================================================== *)
(** ** The tool: [src/index.ts] *)

Module Codewise.
Import Fs Draw.

Inductive OutputFormat : Type := XML | Markdown.

Record Config : Type := {
  include : list string;
  exclude : list string;
  maxFileSize : Z;
  outputFormat : OutputFormat
}.

Definition DEFAULT_CONFIG : Config := {|
  include := ["**/*"];
  exclude := ["node_modules/**"; ".git/**"; "package-lock.json"; "yarn.lock"];
  maxFileSize := 100 * 1024;
  outputFormat := Markdown
|}.

Definition DQ : string := String "034" "".

(** [file === 'node_modules' || file === '.git'] *)
Definition collapsed (file : string) : bool :=
  String.eqb file "node_modules" || String.eqb file ".git".

(** [generateFullFileTree(dir, ig, prefix)], where [dirNode] is the
    directory that the path [dir] names.  [files.forEach] is the inner
    loop; [index === files.length - 1] holds for the entry with nothing
    after it.  The matcher is asked about every entry, before its line is
    added and before [statSync] is called. *)
Fixpoint generateFullFileTree (w : World) (ig : Ignore.t)
  (dirNode : fsnode) (dir : string) (prefix : string) : result string :=
  match dirNode with
  | Dir files =>
      (fix forEach (files : list (string * fsnode)) : result string :=
         match files with
         | [] => Ok ""
         | (file, node) :: rest =>
             let filePath := path_join dir file in
             let relativePath := path_relative (cwd w) filePath in
             let isLast := isNil rest in
             match Ignore.ignores ig relativePath with
             | Throw e => Throw e
             | Ok isIgnored =>
                 let line := prefix ++ connector isLast ++ file ++ LF in
                 let* below :=
                   match node with
                   | Missing => Throw (ENOENT "stat" filePath)
                   | File _ _ => Ok ""
                   | Dir _ | Sealed _ =>
                       if collapsed file then
                         Ok (prefix ++ continuation isLast ++ "└── ..." ++ LF)
                       else if negb isIgnored then
                         generateFullFileTree w ig node filePath
                           (prefix ++ continuation isLast)
                       else Ok ""
                   end in
                 let* more := forEach rest in
                 Ok (line ++ below ++ more)
             end
         end) files
  | Sealed _ => Throw (EACCES "scandir" dir)
  | File _ _ => Throw ("ENOTDIR: not a directory, scandir '" ++ dir ++ "'")
  | Missing => Throw (ENOENT "scandir" dir)
  end.

(** The call [generateFullFileTree(dir, ig)] on a path. *)
Definition fullFileTree (w : World) (dir : string) (ig : Ignore.t)
  : result string :=
  match locate w dir with
  | Some node => generateFullFileTree w ig node dir ""
  | None => Throw (ENOENT "scandir" dir)
  end.

Section Packages.

Variable createRule : string -> option Ignore.Rule.

(** [minimatch pattern path]: does the glob pattern match the relative
    path (with the option [dot])? *)
Variable minimatch : string -> string -> bool.

Definition createIgnore (w : World) (config : Config) (outputFile : string)
  : result Ignore.t :=
  let ig := Ignore.add createRule [] (exclude config ++ [outputFile]) in
  if existsSync w ".gitignore" then
    let* text := readFileSync w ".gitignore" in
    Ok (Ignore.addText createRule ig text)
  else Ok ig.

Definition matchesAny (patterns : list string) (p : string) : bool :=
  existsb (fun pattern => minimatch pattern p) patterns.

(** [glob(patterns, { cwd, nodir: true, dot: true, ignore })]: the files
    below [cwd] that match a pattern and no ignore pattern, in the order
    of [Fs.walk]. *)
Definition glob (w : World) (patterns : list string) (cwd : string)
  (ignore : list string) : list string :=
  match locate w cwd with
  | Some node =>
      filter (fun p => matchesAny patterns p && negb (matchesAny ignore p))
        (walk node "")
  | None => []
  end.

Definition globPattern (config : Config) : list string :=
  match include config with
  | [] => ["**/*"]
  | _ :: _ => include config
  end.

Definition getIncludedFiles (w : World) (dir : string) (config : Config)
  (ig : Ignore.t) : result (list string) :=
  let allFiles :=
    glob w (globPattern config) dir
      (["**/node_modules/**"; "**/.git/**"] ++ exclude config) in
  filterM
    (fun file =>
       let fullPath := path_join dir file in
       let* stats := statSync w fullPath in
       let* ignored := Ignore.ignores ig file in
       let isIncluded :=
         negb ignored && (size stats <=? maxFileSize config)%Z in
       Ok isIncluded)
    allFiles.

(** [getFileContent(filePath, config)]: the [try] covers the whole
    body, so nothing is thrown. *)
Definition getFileContent (w : World) (filePath : string) (config : Config)
  : string :=
  match readFileSync w filePath with
  | Ok content =>
      let relativePath := path_relative (cwd w) filePath in
      match outputFormat config with
      | XML =>
          "<file path=" ++ DQ ++ relativePath ++ DQ ++ ">" ++ LF
          ++ "<![CDATA[" ++ LF ++ content ++ LF ++ "]]>" ++ LF
          ++ "</file>" ++ LF ++ LF
      | Markdown =>
          "```" ++ relativePath ++ LF ++ content ++ LF ++ "```" ++ LF ++ LF
      end
  | Throw message =>
      "Error reading file " ++ filePath ++ ": " ++ message ++ LF ++ LF
  end.

(** The [for (const filePath of includedFiles)] loop. *)
Fixpoint fileBlocks (w : World) (dir : string) (config : Config)
  (includedFiles : list string) : string :=
  match includedFiles with
  | [] => ""
  | filePath :: more =>
      getFileContent w (path_join dir filePath) config
      ++ fileBlocks w dir config more
  end.

Definition generateCodeContext (w : World) (dir : string) (config : Config)
  (ig : Ignore.t) : option (result string) :=
  match fullFileTree w dir ig with
  | Throw e => Some (Throw e)
  | Ok fullTree =>
      match getIncludedFiles w dir config ig with
      | Throw e => Some (Throw e)
      | Ok includedFiles =>
          match Inclusion.formatIncludedFiles includedFiles with
          | None => None
          | Some inclusionTree =>
              Some (Ok ("Full File Tree:" ++ LF ++ LF ++ fullTree
                        ++ LF ++ "Included Files:" ++ LF ++ LF
                        ++ inclusionTree
                        ++ LF ++ "Code Context:" ++ LF ++ LF
                        ++ fileBlocks w dir config includedFiles))
          end
      end
  end.

(** *** Logging, writing and the run *)

Inductive Level : Type := info | error.

(** A call of the logger: level, message, and what is passed along, if
    anything: the message of an error object, or a configuration. *)
Record LogLine : Type := {
  level : Level;
  message : string;
  cause : option string;
  shown : option Config
}.

Definition logInfo (m : string) : LogLine :=
  {| level := info; message := m; cause := None; shown := None |}.

Definition logError (m : string) (e : string) : LogLine :=
  {| level := error; message := m; cause := Some e; shown := None |}.

(** [logger.info('Loaded config:', loadedConfig)] *)
Definition logConfig (m : string) (c : Config) : LogLine :=
  {| level := info; message := m; cause := None; shown := Some c |}.

(** What [getFileContent(filePath, config)] logs: the error of a read
    that failed. *)
Definition getFileContentLog (w : World) (filePath : string)
  : list LogLine :=
  match readFileSync w filePath with
  | Ok _ => []
  | Throw message => [logError ("Error reading file " ++ filePath ++ ":") message]
  end.

(** What the [for (const filePath of includedFiles)] loop logs. *)
Fixpoint fileBlocksLog (w : World) (dir : string)
  (includedFiles : list string) : list LogLine :=
  match includedFiles with
  | [] => []
  | filePath :: more =>
      (getFileContentLog w (path_join dir filePath)
       ++ fileBlocksLog w dir more)%list
  end.

(** [writeToFile(content, outputPath)]: what it logs and how it
    completes. *)
Definition writeToFile (w : World) (content outputPath : string)
  : list LogLine * result unit :=
  match writeFileSync w outputPath content with
  | Ok _ => ([logInfo ("Content written to " ++ outputPath)], Ok tt)
  | Throw e =>
      ([logError ("Error writing to file " ++ outputPath ++ ":") e], Ok tt)
  end.

Definition generated : LogLine :=
  logInfo "Content generated. You can find it in the output file.".

(** [main] from the point where the options are merged into [config]:
    [outputFile] is [options.output], [proceed] the answer to the
    prompt.  The result is the log from that point on and how the promise
    settles.  A call of [generateCodeContext] that returns has selected
    the files that [main] selected, and has logged the reads that
    failed. *)
Definition main (w : World) (config : Config) (outputFile : string)
  (proceed : bool) : option (list LogLine * result unit) :=
  match createIgnore w config outputFile with
  | Throw e => Some ([], Throw e)
  | Ok ig =>
      match getIncludedFiles w (cwd w) config ig with
      | Throw e => Some ([], Throw e)
      | Ok includedFiles =>
          match Inclusion.formatIncludedFiles includedFiles with
          | None => None
          | Some inclusionTree =>
              let log1 := [logInfo "Files to be included:";
                           logInfo (LF ++ inclusionTree)] in
              if proceed then
                let log2 :=
                  (log1 ++ [logInfo "Generating code context..."])%list in
                match generateCodeContext w (cwd w) config ig with
                | None => None
                | Some (Throw e) => Some (log2, Throw e)
                | Some (Ok codeContext) =>
                    let log3 :=
                      (log2 ++ fileBlocksLog w (cwd w) includedFiles)%list in
                    match writeToFile w codeContext outputFile with
                    | (written, Ok _) =>
                        Some ((log3 ++ written ++ [generated])%list, Ok tt)
                    | (written, Throw e) =>
                        Some ((log3 ++ written)%list, Throw e)
                    end
                end
              else
                Some ((log1 ++ [logInfo "Context generation aborted."])%list,
                      Ok tt)
          end
      end
  end.

(** [main().catch(error => { logger.error(...); process.exit(1) })]: the
    log from the merging of the options on, and the exit code of the
    process. *)
Definition run (w : World) (config : Config) (outputFile : string)
  (proceed : bool) : option (list LogLine * Z) :=
  match main w config outputFile proceed with
  | Some (log, Ok _) => Some (log, 0%Z)
  | Some (log, Throw e) =>
      Some ((log ++ [logError "An error occurred:" e])%list, 1%Z)
  | None => None
  end.

End Packages.

End Codewise.

(* ================================================================== *)
(** ** Reading a block back

    What a consumer of the document extracts from a per-file block.  These
    readers are not part of the tool; they fix what "the inner text of the
    literal-content wrapper" and "the body between the fences" mean. *)

Module Blocks.
Import Codewise.

(** The text of the CDATA section of the [<file>] element with the given
    [path] attribute: the section ends at the first ["]]>"], and the line
    breaks that frame the content are not part of it. *)
Definition cdataText (relativePath block : string) : option string :=
  match Str.strip_prefix
          ("<file path=" ++ DQ ++ relativePath ++ DQ ++ ">" ++ LF ++ "<![CDATA[")
          block with
  | Some section =>
      match Str.cut "]]>" section with
      | Some (inner, _) =>
          match Str.strip_prefix LF inner with
          | Some framed => Str.chop_lf framed
          | None => None
          end
      | None => None
      end
  | None => None
  end.

Definition fence : string := "```".

(** The info-string and the body of a fenced block: the info-string is the
    rest of the opening line, and the body ends before the first line that
    starts with a fence. *)
Definition fencedBlock (block : string) : option (string * string) :=
  match Str.strip_prefix fence block with
  | Some opened =>
      match Str.cut LF opened with
      | Some (infoString, text) =>
          match Str.strip_prefix fence text with
          | Some _ => Some (infoString, "")
          | None =>
              match Str.cut (LF ++ fence) text with
              | Some (body, _) => Some (infoString, body)
              | None => None
              end
          end
      | None => None
      end
  | None => None
  end.

(** No line of the text starts with a fence. *)
Definition fenceFree (text : string) : bool :=
  match Str.strip_prefix fence text with
  | Some _ => false
  | None => negb (Str.includes (LF ++ fence) text)
  end.

End Blocks.

(* ================================================================== *)
(** ** The properties as the specification words them *)

Module Stated.
Import Fs Draw Codewise.

Section Packages.
Variable createRule : string -> option Ignore.Rule.
Variable minimatch : string -> string -> bool.

(** What [glob] hands to the size check. *)
Definition candidates (w : World) (dir : string) (config : Config)
  : list string :=
  glob minimatch w (globPattern config) dir
    (["**/node_modules/**"; "**/.git/**"] ++ exclude config).

(** The rules read from the [.gitignore] of the working directory. *)
Definition gitignoreRules (w : World) : list Ignore.Rule :=
  match readFileSync w ".gitignore" with
  | Ok text => Ignore.rules createRule (Ignore.lines text)
  | Throw _ => []
  end.

(** Some negated rule of the [.gitignore] matches the path. *)
Definition reIncluded (w : World) (p : string) : bool :=
  existsb (fun r => Ignore.negative r && Ignore.regex r p)
    (gitignoreRules w).

(** Self-exclusion: the output path is not selected. *)
Definition selfExcluded (w : World) (config : Config) (outputFile : string)
  : Prop :=
  forall ig files,
    createIgnore createRule w config outputFile = Ok ig ->
    getIncludedFiles minimatch w (cwd w) config ig = Ok files ->
    ~ In outputFile files.

(** [glob] lists a file below [dir] under the path [p]. *)
Definition listed (w : World) (dir p : string) : Prop :=
  exists node, locate w dir = Some node /\ In p (walk node "").


End Packages.

(** *** The full tree, entry by entry *)

(** The text an entry adds below its own line. *)
Definition belowEntry (w : World) (ig : Ignore.t) (dir prefix : string)
  (isLast : bool) (file : string) (node : fsnode) : result string :=
  let* isIgnored :=
    Ignore.ignores ig (path_relative (cwd w) (path_join dir file)) in
  match node with
  | Missing => Throw (ENOENT "stat" (path_join dir file))
  | File _ _ => Ok ""
  | Dir _ | Sealed _ =>
      if collapsed file then
        Ok (prefix ++ continuation isLast ++ "└── ..." ++ LF)
      else if negb isIgnored then
        generateFullFileTree w ig node (path_join dir file)
          (prefix ++ continuation isLast)
      else Ok ""
  end.

Definition entryLine (prefix : string) (isLast : bool) (file : string)
  : string :=
  prefix ++ connector isLast ++ file ++ LF.

Definition onText (f : string -> string) (r : result string)
  : result string :=
  match r with
  | Ok text => Ok (f text)
  | Throw e => Throw e
  end.

Definition placeholder (prefix : string) (isLast : bool) : string :=
  prefix ++ continuation isLast ++ "└── ..." ++ LF.

(** What is claimed of a directory [name] of the working directory that
    the matcher flags: its line is in the full tree, and the line of what
    it contains is not. *)
Definition flaggedDirectoryClosed (w : World) (ig : Ignore.t)
  (name child : string) : Prop :=
  Ignore.ignores ig (name ++ "/") = Ok true ->
  forall text,
    fullFileTree w (cwd w) ig = Ok text ->
    Str.includes (name ++ LF) text = true
    /\ Str.includes (child ++ LF) text = false.

(** *** The placeholder of a file that cannot be read *)

Definition errorPlaceholder (filePath message : string) : string :=
  "Error reading file " ++ filePath ++ ": " ++ message ++ LF ++ LF.

(** *** The content section, file by file *)

(** The block of a file that was read: the element with the path
    attribute and the literal-content wrapper in XML mode, the fenced
    block with the path as info-string in markdown mode, then a blank
    line. *)
Definition contentBlock (format : OutputFormat)
  (relativePath content : string) : string :=
  match format with
  | XML =>
      "<file path=" ++ DQ ++ relativePath ++ DQ ++ ">" ++ LF
      ++ "<![CDATA[" ++ LF ++ content ++ LF ++ "]]>" ++ LF
      ++ "</file>" ++ LF ++ LF
  | Markdown =>
      "```" ++ relativePath ++ LF ++ content ++ LF ++ "```" ++ LF ++ LF
  end.

(** What the content section holds for one selected file: its block, or
    the placeholder of a read that failed. *)
Definition fileSection (w : World) (dir : string) (config : Config)
  (file : string) : string :=
  match readFileSync w (path_join dir file) with
  | Ok content =>
      contentBlock (outputFormat config)
        (path_relative (cwd w) (path_join dir file)) content
  | Throw message => errorPlaceholder (path_join dir file) message
  end.

Definition joined (texts : list string) : string :=
  fold_right append "" texts.

(** A failed write is reported to the caller of the write. *)
Definition writeFailureReported (w : World) (content outputPath : string)
  : Prop :=
  forall e,
    writeFileSync w outputPath content = Throw e ->
    snd (writeToFile w content outputPath) = Throw e.

(** XML round trip. *)
Definition xmlRoundTrip (w : World) (filePath : string) (config : Config)
  : Prop :=
  forall content,
    readFileSync w filePath = Ok content ->
    Blocks.cdataText (path_relative (cwd w) filePath)
      (getFileContent w filePath config) = Some content.

(** Markdown round trip. *)
Definition markdownRoundTrip (w : World) (filePath : string)
  (config : Config) : Prop :=
  forall content,
    readFileSync w filePath = Ok content ->
    Blocks.fencedBlock (getFileContent w filePath config)
    = Some (path_relative (cwd w) filePath, content).

End Stated.

(* ================================================================== *)
(** ** Concrete packages and worlds for the examples *)

Module Samples.
Import Fs Draw Codewise.

(** A rule compiler for literal names: blank lines and comments are
    skipped, a leading [!] negates, and the rest matches the path equal to
    it.  On names without wildcards and paths without directories this is
    what the package does; a name with a final slash matches the
    directory of that name, asked about with its final slash, and not
    the same name without the slash. *)
Definition literalRule (line : string) : option Ignore.Rule :=
  match line with
  | EmptyString => None
  | String "#" _ => None
  | String "!" rest =>
      Some {| Ignore.negative := true; Ignore.regex := String.eqb rest |}
  | _ => Some {| Ignore.negative := false; Ignore.regex := String.eqb line |}
  end.

(** A glob matcher for patterns made of literal segments, [*] and [**]. *)
Fixpoint matchSegments (pattern path : list string) : bool :=
  match pattern with
  | [] => isNil path
  | p :: pattern' =>
      if String.eqb p "**" then
        if isNil pattern' then true
        else
          (fix shift (path : list string) : bool :=
             matchSegments pattern' path
             || match path with
                | [] => false
                | _ :: path' => shift path'
                end) path
      else
        match path with
        | [] => false
        | s :: path' =>
            (String.eqb p "*" || String.eqb p s)
            && matchSegments pattern' path'
        end
  end.

Definition miniGlob (pattern path : string) : bool :=
  matchSegments (Str.split "/" pattern) (Str.split "/" path).

Definition world (files : list (string * fsnode)) : World :=
  {| cwd := "/repo"; root := Dir files; writeError := fun _ => None |}.

Definition readOnly (files : list (string * fsnode)) : World :=
  {| cwd := "/repo"; root := Dir files;
     writeError := fun _ => Some "EACCES: permission denied, open" |}.

Definition text (content : string) : fsnode :=
  File (Z.of_nat (String.length content)) (Ok content).

Definition xml : Config := {|
  include := include DEFAULT_CONFIG;
  exclude := exclude DEFAULT_CONFIG;
  maxFileSize := maxFileSize DEFAULT_CONFIG;
  outputFormat := XML
|}.

(** The scenario of the specification: a small file, a file over the
    limit, and a dependency directory. *)
Definition project : World :=
  world [("a.txt", File 10 (Ok "0123456789"));
         ("b.txt", File 200000 (Throw "not read"));
         ("node_modules", Dir [("x.js", text "x")])].

(** One entry has gone since it was listed. *)
Definition vanishing : World :=
  world [("a.txt", text "A"); ("gone", Missing)].

(** A second run: the output of the first is on disk. *)
Definition rerun : World :=
  world [(".gitignore", text "dist"); ("a.txt", text "A");
         ("out.md", text "old")].

(** The same, with a [.gitignore] that re-includes the output file. *)
Definition reincluding : World :=
  world [(".gitignore", text "!out.md"); ("out.md", text "old")].

(** A file that can be listed and examined, not read. *)
Definition locked : World :=
  world [("a.txt", text "A");
                 ("b.key", File 3 (Throw "EACCES: permission denied, open"));
                 ("c.txt", text "C")].

(** A working directory in which nothing can be written. *)
Definition readOnlyProject : World :=
  readOnly [("a.txt", text "hi")].

Definition readOnlyContext : string :=
  "Full File Tree:" ++ LF ++ LF ++ "└── a.txt" ++ LF
  ++ LF ++ "Included Files:" ++ LF ++ LF ++ "└── a.txt" ++ LF
  ++ LF ++ "Code Context:" ++ LF ++ LF
  ++ "```a.txt" ++ LF ++ "hi" ++ LF ++ "```" ++ LF ++ LF.

(** The matcher of the second run, and the rule of its output path. *)
Definition rerunMatcher : Ignore.t :=
  Ignore.addText literalRule
    (Ignore.add literalRule [] (exclude DEFAULT_CONFIG ++ ["out.md"]))
    "dist".

Definition outputRule : Ignore.Rule :=
  {| Ignore.negative := false; Ignore.regex := String.eqb "out.md" |}.

(** A checkout with a build directory that the matcher flags. *)
Definition checkout : World :=
  world [(".git", Dir [("HEAD", text "ref")]);
         ("dist", Dir [("bundle.js", text "B")]);
         ("out.md", text "old");
         ("src", Dir [("main.ts", text "M")])].

(** A checkout whose [.gitignore] holds the directory-only pattern
    [build/]. *)
Definition building : World :=
  world [(".git", Dir [("HEAD", text "ref")]);
         (".gitignore", text "build/");
         ("build", Dir [("out.js", text "B")]);
         ("node_modules", Dir [("x.js", text "x")]);
         ("src", Dir [("main.ts", text "M")])].

Definition buildingMatcher : Ignore.t :=
  Ignore.addText literalRule
    (Ignore.add literalRule [] (exclude DEFAULT_CONFIG ++ ["out.md"]))
    "build/".

End Samples.

(* ================================================================== *)
(** ** Notions for the further properties *)

Module More.
Import Fs Draw Codewise.

(** [z] is an initial part of [p]. *)
Definition prefixOf (z p : list string) : Prop :=
  exists rest, p = (z ++ rest)%list.

(** No segment is a name inherited from [Object.prototype]. *)
Definition plainNames (z : list string) : bool :=
  forallb (fun name => negb (Inclusion.inherited name)) z.

(** A property of key lists that holds at every directory of a tree. *)
Definition atEveryLevel (Q : list string -> Prop) (node : Inclusion.TreeNode)
  : Prop :=
  forall dir props,
    Inclusion.descend node dir = Some (Inclusion.JObj props) ->
    Q (map fst props).

(** [a] may be enumerated before [b] by [Object.entries]: array indices
    come first, smaller ones before larger ones. *)
Definition precedes (a b : string) : bool :=
  match Inclusion.arrayIndex a, Inclusion.arrayIndex b with
  | Some n, Some m => (n <=? m)%N
  | Some _, None => true
  | None, Some _ => false
  | None, None => true
  end.

Fixpoint enumerationOrder (keys : list string) : bool :=
  match keys with
  | [] => true
  | key :: rest => forallb (precedes key) rest && enumerationOrder rest
  end.

(** The test of [getIncludedFiles] on one candidate on which [statSync]
    and the matcher succeed. *)
Definition passes (w : World) (dir : string) (config : Config)
  (ig : Ignore.t) (file : string) : bool :=
  match statSync w (path_join dir file), Ignore.ignores ig file with
  | Ok stats, Ok ignored =>
      negb ignored && (size stats <=? maxFileSize config)%Z
  | _, _ => false
  end.

(** The matcher accepts the path of every entry below the node, which is
    the directory [dir]. *)
Fixpoint accepted (w : World) (node : fsnode) (dir : string) : bool :=
  match node with
  | Dir entries =>
      (fix all (es : list (string * fsnode)) : bool :=
         match es with
         | [] => true
         | (file, child) :: rest =>
             succeeded (Ignore.checkPath
                          (path_relative (cwd w) (path_join dir file)))
             && accepted w child (path_join dir file)
             && all rest
         end) entries
  | _ => true
  end.

(** No entry below the node is one that [statSync] cannot find or a
    directory that cannot be listed. *)
Fixpoint intact (node : fsnode) : bool :=
  match node with
  | File _ _ => true
  | Missing => false
  | Sealed _ => false
  | Dir entries =>
      (fix all (es : list (string * fsnode)) : bool :=
         match es with
         | [] => true
         | (_, child) :: rest => intact child && all rest
         end) entries
  end.

End More.

(* ================================================================== *)
(** ** The command line: [loadConfig], the options and the prompt *)

Module Cli.
Import Fs Codewise.

(** [program.opts()]: an option with a default always has a value, a
    variadic one is an array or [undefined]. *)
Record Options : Type := {
  config : string;
  output : string;
  format : string;
  maxSize : string;
  include : option (list string);
  exclude : option (list string)
}.

(** The defaults given to [program.option]. *)
Definition defaults : Options := {|
  config := "codewise.json";
  output := "codewise-output.md";
  format := "markdown";
  maxSize := "100";
  include := None;
  exclude := None
|}.

(** A string is truthy when it is not empty. *)
Definition truthy (s : string) : bool := negb (String.eqb s "").

(** The number [parseInt] returns. *)
Inductive Number : Type :=
| NaN
| Int (z : Z).

(** The ASCII white space that [parseInt] skips. *)
Definition isSpace (c : ascii) : bool :=
  let n := N_of_ascii c in
  (((9 <=? n) && (n <=? 13)) || (n =? 32))%N.

Definition hexDigit (c : ascii) : option N :=
  let n := N_of_ascii c in
  if ((48 <=? n) && (n <=? 57))%N then Some (n - 48)%N
  else if ((97 <=? n) && (n <=? 102))%N then Some (n - 87)%N
  else if ((65 <=? n) && (n <=? 70))%N then Some (n - 55)%N
  else None.

(** The value of the longest run of digits at the start of the string;
    [None] when the string does not start with a digit. *)
Fixpoint numeral (radix : N) (digit : ascii -> option N) (acc : option N)
  (s : string) : option N :=
  match s with
  | EmptyString => acc
  | String c s' =>
      match digit c with
      | Some d =>
          numeral radix digit
            (Some (match acc with
                   | Some a => a * radix + d
                   | None => d
                   end)%N) s'
      | None => acc
      end
  end.

(** After the sign: a [0x] or [0X] prefix selects radix 16. *)
Definition unsigned (s : string) : option N :=
  match s with
  | String "0" (String "x" s') | String "0" (String "X" s') =>
      numeral 16 hexDigit None s'
  | _ => numeral 10 Inclusion.digit None s
  end.

Definition signed (s : string) : Number :=
  let (negative, digits) :=
    match s with
    | String "-" s' => (true, s')
    | String "+" s' => (false, s')
    | _ => (false, s)
    end in
  match unsigned digits with
  | Some n => Int (if negative then - Z.of_N n else Z.of_N n)
  | None => NaN
  end.

(** [parseInt(s)].  [None]: the first character after the ASCII white
    space is not ASCII; it may be white space of another kind, which is
    not followed here. *)
Fixpoint parseInt (s : string) : option Number :=
  match s with
  | EmptyString => Some NaN
  | String c s' =>
      if isSpace c then parseInt s'
      else if (128 <=? N_of_ascii c)%N then None
      else Some (signed s)
  end.

(** What a [Config] keeps of the string assigned to [outputFormat]: the
    only test made on it is [=== OutputFormat.XML]. *)
Definition formatOf (s : string) : OutputFormat :=
  if String.eqb s "xml" then XML else Markdown.

(** [parseInt(options.maxSize) * 1024].  [None]: the product is [NaN], or
    an integer that a JavaScript number does not hold exactly. *)
Definition kilobytes (s : string) : option Z :=
  match parseInt s with
  | Some (Int n) =>
      if (Z.abs n <=? 2 ^ 43)%Z then Some (n * 1024)%Z else None
  | _ => None
  end.

(** The four [if (options.x)] of [main], applied to the loaded [config]. *)
Definition applyOptions (loaded : Config) (options : Options)
  : option Config :=
  let outputFormat' :=
    if truthy (format options) then formatOf (format options)
    else outputFormat loaded in
  let maxFileSize' :=
    if truthy (maxSize options) then kilobytes (maxSize options)
    else Some (maxFileSize loaded) in
  let include' :=
    match include options with
    | Some patterns => patterns
    | None => Codewise.include loaded
    end in
  let exclude' :=
    match exclude options with
    | Some patterns => (Codewise.exclude loaded ++ patterns)%list
    | None => Codewise.exclude loaded
    end in
  match maxFileSize' with
  | Some size =>
      Some {| Codewise.include := include';
              Codewise.exclude := exclude';
              maxFileSize := size;
              outputFormat := outputFormat' |}
  | None => None
  end.

(** The fields a configuration file sets. *)
Record ConfigFile : Type := {
  fileInclude : option (list string);
  fileExclude : option (list string);
  fileMaxFileSize : option Z;
  fileOutputFormat : option string
}.

(** [{ ...DEFAULT_CONFIG, ...parsed }] *)
Definition spread (base : Config) (parsed : ConfigFile) : Config := {|
  Codewise.include :=
    match fileInclude parsed with
    | Some v => v
    | None => Codewise.include base
    end;
  Codewise.exclude :=
    match fileExclude parsed with
    | Some v => v
    | None => Codewise.exclude base
    end;
  maxFileSize :=
    match fileMaxFileSize parsed with
    | Some v => v
    | None => maxFileSize base
    end;
  outputFormat :=
    match fileOutputFormat parsed with
    | Some v => formatOf v
    | None => outputFormat base
    end
|}.

Section Json.

(** [JSON.parse] on the text of a configuration file whose fields have the
    types of [Config]; [Throw] for a text that is not JSON. *)
Variable JSON_parse : string -> result ConfigFile.

(** [loadConfig(configPath)]: what it logs and the configuration it
    returns.  The [try] covers the reading and the parsing, so nothing is
    thrown. *)
Definition loadConfig (w : World) (configPath : string)
  : list LogLine * Config :=
  if existsSync w configPath then
    match (let* configFile := readFileSync w configPath in
           JSON_parse configFile) with
    | Ok parsed =>
        let loadedConfig := spread DEFAULT_CONFIG parsed in
        ([logConfig "Loaded config:" loadedConfig], loadedConfig)
    | Throw e =>
        ([logError ("Error loading config from " ++ configPath ++ ":") e],
         DEFAULT_CONFIG)
    end
  else ([], DEFAULT_CONFIG).

(** The [config] that [main] hands to [createIgnore] and to the
    selection. *)
Definition effectiveConfig (w : World) (options : Options) : option Config :=
  applyOptions (snd (loadConfig w (config options))) options.

End Json.

(** [toLowerCase] on the ASCII letters.  No other character becomes an
    ASCII letter [y], [e] or [s], so the comparisons of [promptUser] are
    not affected by what it does elsewhere. *)
Definition lowerChar (c : ascii) : ascii :=
  let n := N_of_ascii c in
  if ((65 <=? n) && (n <=? 90))%N then ascii_of_N (n + 32) else c.

Fixpoint toLowerCase (s : string) : string :=
  match s with
  | EmptyString => EmptyString
  | String c s' => String (lowerChar c) (toLowerCase s')
  end.

(** What [promptUser] resolves to for the line the user typed. *)
Definition promptUser (answer : string) : bool :=
  String.eqb (toLowerCase answer) "y" || String.eqb (toLowerCase answer) "yes".

Section Program.

Variable JSON_parse : string -> result ConfigFile.
Variable createRule : string -> option Ignore.Rule.
Variable minimatch : string -> string -> bool.

(** The whole program: the options, the configuration file, the answer
    typed at the prompt; the log and the exit code. *)
Definition program (w : World) (options : Options) (answer : string)
  : option (list LogLine * Z) :=
  match effectiveConfig JSON_parse w options with
  | Some config' =>
      match run createRule minimatch w config' (output options)
              (promptUser answer) with
      | Some (log, code) =>
          Some ((fst (loadConfig JSON_parse w (config options)) ++ log)%list,
                code)
      | None => None
      end
  | None => None
  end.

End Program.

End Cli.

(* ================================================================== *)
(** ** Further configurations and worlds for the examples *)

Module MoreSamples.
Import Fs Codewise.

(** The defaults with a limit that no file of the examples exceeds. *)
Definition everything : Config := {|
  include := include DEFAULT_CONFIG;
  exclude := exclude DEFAULT_CONFIG;
  maxFileSize := 1000000;
  outputFormat := Markdown
|}.

(** A configuration file that asks for XML and a limit of five bytes. *)
Definition configText : string :=
  "{" ++ DQ ++ "maxFileSize" ++ DQ ++ ": 5, "
  ++ DQ ++ "outputFormat" ++ DQ ++ ": " ++ DQ ++ "xml" ++ DQ ++ "}".

(** A [.gitignore] that is a directory. *)
Definition gitignoreDirectory : World :=
  Samples.world [(".gitignore", Dir []); ("a.txt", Samples.text "A");
                 ("codewise.json", Samples.text configText)].

Definition configured : World :=
  Samples.world [("a.txt", Samples.text "0123456789");
                 ("codewise.json", Samples.text configText)].

(** [JSON.parse] on the one text of the examples. *)
Definition parse (text : string) : result Cli.ConfigFile :=
  if String.eqb text configText then
    Ok {| Cli.fileInclude := None;
          Cli.fileExclude := None;
          Cli.fileMaxFileSize := Some 5%Z;
          Cli.fileOutputFormat := Some "xml" |}
  else Throw "Unexpected token".

(** The options of [codewise -i src/** -e *.log]. *)
Definition narrowed : Cli.Options := {|
  Cli.config := "codewise.json";
  Cli.output := "codewise-output.md";
  Cli.format := "markdown";
  Cli.maxSize := "100";
  Cli.include := Some ["src/**"];
  Cli.exclude := Some ["*.log"]
|}.

End MoreSamples.

(* ================================================================== *)
(** * Proofs *)


Module StrFacts.
Import Str.

Lemma append_assoc (a b c : string) : (a ++ b) ++ c = a ++ (b ++ c).
Proof. induction a as [|x a IH]; simpl; congruence. Qed.

Lemma split_nonempty sep s : split sep s <> [].
Proof.
  destruct s as [|c s]; simpl; [discriminate|].
  destruct (Ascii.eqb c sep); [discriminate|].
  destruct (split sep s); discriminate.
Qed.

Lemma strip_prefix_app p s : strip_prefix p (p ++ s) = Some s.
Proof.
  induction p as [|a p IH]; simpl; [reflexivity|].
  now rewrite Ascii.eqb_refl.
Qed.

(** A failed match stays failed when the text goes on with a character
    that the pattern does not contain. *)
Lemma strip_prefix_fresh a pat :
  mem a pat = false ->
  forall s t,
    strip_prefix pat s = None -> strip_prefix pat (s ++ String a t) = None.
Proof.
  induction pat as [|p pat IH]; intros Hfresh s t Hnone; [discriminate|].
  simpl in Hfresh. apply orb_false_iff in Hfresh as [Hap Hrest].
  destruct s as [|x s]; simpl in *.
  - rewrite Ascii.eqb_sym, Hap. reflexivity.
  - destruct (Ascii.eqb p x); [|reflexivity]. now apply IH.
Qed.

Lemma cut_none_inv pat c s :
  cut pat (String c s) = None ->
  strip_prefix pat (String c s) = None /\ cut pat s = None.
Proof.
  simpl cut. destruct (strip_prefix pat (String c s)); [discriminate|].
  destruct (cut pat s) as [[b a]|]; [discriminate|]. auto.
Qed.

Lemma cut_here pat t : cut pat (pat ++ t) = Some ("", t).
Proof.
  assert (H : forall u, strip_prefix pat u = Some t -> cut pat u = Some ("", t))
    by (intros u Hu; destruct u; simpl cut; now rewrite Hu).
  apply H, strip_prefix_app.
Qed.

(** The first occurrence of [pat] in [c ++ a ++ pat ++ t], for [c] without
    an occurrence and a character [a] that is not in [pat]. *)
Lemma cut_after_fresh a pat t :
  mem a pat = false ->
  forall c,
    cut pat c = None ->
    cut pat (c ++ String a (pat ++ t)) = Some (c ++ String a "", t).
Proof.
  intros Hfresh. induction c as [|x c IH]; intros Hnone.
  - assert (Hpat : strip_prefix pat (String a (pat ++ t)) = None).
    { destruct pat as [|p pat]; [discriminate|]. simpl in *.
      apply orb_false_iff in Hfresh as [Hap _].
      now rewrite Ascii.eqb_sym, Hap. }
    change ("" ++ String a (pat ++ t)) with (String a (pat ++ t)).
    unfold cut; fold cut. rewrite Hpat, cut_here. reflexivity.
  - apply cut_none_inv in Hnone as [Hhead Htail].
    change (String x c ++ String a (pat ++ t))
      with (String x (c ++ String a (pat ++ t))).
    unfold cut; fold cut.
    change (String x (c ++ String a (pat ++ t)))
      with (String x c ++ String a (pat ++ t)).
    rewrite (strip_prefix_fresh a pat Hfresh _ _ Hhead).
    change (String x c ++ String a (pat ++ t))
      with (String x (c ++ String a (pat ++ t))).
    rewrite (IH Htail). reflexivity.
Qed.

(** The first occurrence of [a ++ pat] in [c ++ a ++ pat ++ t], for [c]
    without an occurrence and [a] not in [pat]. *)
Lemma cut_at_fresh a pat t :
  mem a pat = false ->
  forall c,
    cut (String a pat) c = None ->
    cut (String a pat) (c ++ String a (pat ++ t)) = Some (c, t).
Proof.
  intros Hfresh. induction c as [|x c IH]; intros Hnone.
  - change ("" ++ String a (pat ++ t)) with (String a pat ++ t).
    apply cut_here.
  - apply cut_none_inv in Hnone as [Hhead Htail].
    change (String x c ++ String a (pat ++ t))
      with (String x (c ++ String a (pat ++ t))).
    unfold cut; fold cut.
    assert (Hno : strip_prefix (String a pat)
                    (String x (c ++ String a (pat ++ t))) = None).
    { simpl in *. destruct (Ascii.eqb a x); [|reflexivity].
      now apply strip_prefix_fresh. }
    rewrite Hno, (IH Htail). reflexivity.
Qed.

Lemma chop_lf_app c : chop_lf (c ++ LF) = Some c.
Proof.
  induction c as [|x c IH]; [reflexivity|].
  change (String x c ++ LF) with (String x (c ++ LF)).
  unfold chop_lf; fold chop_lf. rewrite IH.
  destruct (c ++ LF) eqn:E; [now destruct c|reflexivity].
Qed.

(** A text that contains the pattern is cut somewhere. *)
Lemma cut_found pat a b :
  exists before after, cut pat (a ++ pat ++ b) = Some (before, after).
Proof.
  induction a as [|c a IH].
  - exists "", b. exact (cut_here pat b).
  - destruct IH as (before & after & IH).
    change (String c a ++ pat ++ b) with (String c (a ++ pat ++ b)).
    unfold cut; fold cut. rewrite IH.
    destruct (strip_prefix pat (String c (a ++ pat ++ b))); eauto.
Qed.

Lemma includes_false pat s : includes pat s = false -> cut pat s = None.
Proof. unfold includes. now destruct (cut pat s). Qed.

End StrFacts.

Module InclusionFacts.
Import Draw Inclusion.

(** *** Own properties under [replace] and [assign] *)

Lemma own_replace_same key v props :
  own props key <> None -> own (replace key v props) key = Some v.
Proof.
  induction props as [|[k w] rest IH]; simpl; [congruence|].
  destruct (String.eqb k key) eqn:E; simpl; rewrite E; auto.
Qed.

Lemma own_replace_other key key' v props :
  key <> key' -> own (replace key v props) key' = own props key'.
Proof.
  intros Hne. induction props as [|[k w] rest IH]; simpl; [reflexivity|].
  destruct (String.eqb k key) eqn:E; simpl.
  - apply String.eqb_eq in E. subst k.
    apply String.eqb_neq in Hne. now rewrite Hne.
  - now rewrite IH.
Qed.

Lemma keys_replace key v props :
  map fst (replace key v props) = map fst props.
Proof.
  induction props as [|[k w] rest IH]; simpl; [reflexivity|].
  destruct (String.eqb k key); simpl; congruence.
Qed.

Lemma own_app props key v key' :
  own (props ++ [(key, v)])%list key' =
  match own props key' with
  | Some w => Some w
  | None => if String.eqb key key' then Some v else None
  end.
Proof.
  induction props as [|[k w] rest IH]; simpl; [reflexivity|].
  destruct (String.eqb k key'); auto.
Qed.

Lemma own_defineIndexed n key v props key' :
  own props key = None ->
  own (defineIndexed n key v props) key' =
  if String.eqb key key' then Some v else own props key'.
Proof.
  induction props as [|[k w] rest IH]; simpl; intros Hnone.
  - reflexivity.
  - destruct (String.eqb k key) eqn:Ek; [discriminate|].
    destruct (arrayIndex k) as [m|]; [destruct (m <? n)%N|]; simpl;
      try reflexivity.
    rewrite (IH Hnone).
    destruct (String.eqb key key') eqn:E; [|reflexivity].
    apply String.eqb_eq in E. subst key'. now rewrite Ek.
Qed.

Lemma own_assign_same props key v : own (assign props key v) key = Some v.
Proof.
  unfold assign. destruct (own props key) eqn:E.
  - apply own_replace_same. congruence.
  - destruct (arrayIndex key).
    + rewrite own_defineIndexed by assumption. now rewrite String.eqb_refl.
    + rewrite own_app, E. now rewrite String.eqb_refl.
Qed.

Lemma own_assign_other props key v key' :
  key <> key' -> own (assign props key v) key' = own props key'.
Proof.
  intros Hne. unfold assign. destruct (own props key) eqn:E.
  - now apply own_replace_other.
  - pose proof Hne as Hb. apply String.eqb_neq in Hb.
    destruct (arrayIndex key).
    + rewrite own_defineIndexed by assumption. now rewrite Hb.
    + rewrite own_app, Hb. now destruct (own props key').
Qed.

Lemma own_keys props key :
  existsb (String.eqb key) (map fst props) =
  match own props key with Some _ => true | None => false end.
Proof.
  induction props as [|[k w] rest IH]; simpl; [reflexivity|].
  rewrite (String.eqb_sym key k).
  destruct (String.eqb k key); simpl; auto.
Qed.

Lemma keys_assign props key v :
  arrayIndex key = None ->
  map fst (assign props key v) = addKey (map fst props) key.
Proof.
  intros Hidx. unfold assign, addKey. rewrite own_keys.
  destruct (own props key).
  - apply keys_replace.
  - rewrite Hidx, map_app. reflexivity.
Qed.

Lemma addKey_present props key :
  own props key <> None -> addKey (map fst props) key = map fst props.
Proof.
  intros H. unfold addKey. rewrite own_keys.
  destruct (own props key); congruence.
Qed.

Lemma get_ordinary props key :
  inherited key = false ->
  get props key =
  match own props key with Some v => Own v | None => Undefined end.
Proof. intros H. unfold get. now rewrite H. Qed.

(** *** One step of the walk *)

Lemma ordinary_spec name :
  ordinary name = true -> inherited name = false /\ arrayIndex name = None.
Proof.
  unfold ordinary. intros H. apply andb_true_iff in H as [H1 H2].
  apply negb_true_iff in H1. split; [assumption|].
  now destruct (arrayIndex name).
Qed.

Lemma insertParts_inner_eq part r rest cur :
  insertParts (part :: r :: rest) cur
  = match get cur part with
    | Builtin => None
    | Own (JObj child) =>
        option_map (fun child' => replace part (JObj child') cur)
          (insertParts (r :: rest) child)
    | Own JNull | Undefined =>
        option_map (fun child' => assign cur part (JObj child'))
          (insertParts (r :: rest) [])
    end.
Proof. reflexivity. Qed.

(** A part that is not the last: the walk enters an object at that key and
    goes on inside it; no other key is touched. *)
Lemma insertParts_inner part r rest cur cur' :
  insertParts (part :: r :: rest) cur = Some cur' ->
  inherited part = false
  /\ exists child',
      insertParts (r :: rest) (entered cur part) = Some child'
      /\ own cur' part = Some (JObj child')
      /\ (forall key, part <> key -> own cur' key = own cur key)
      /\ (arrayIndex part = None -> map fst cur' = addKey (map fst cur) part).
Proof.
  rewrite insertParts_inner_eq. unfold get, entered.
  destruct (inherited part); [discriminate|]. intros Hins.
  split; [reflexivity|].
  destruct (own cur part) as [[|child]|] eqn:E; cbv beta iota in Hins;
    match type of Hins with
    | option_map _ ?walk = _ =>
        destruct walk as [child'|]; [|discriminate]
    end;
    injection Hins as <-; exists child'; (split; [reflexivity|]).
  - repeat split; auto using own_assign_same, own_assign_other, keys_assign.
  - repeat split; auto using own_replace_other.
    + apply own_replace_same. congruence.
    + intros _. rewrite keys_replace. symmetry.
      apply addKey_present. congruence.
  - repeat split; auto using own_assign_same, own_assign_other, keys_assign.
Qed.

(** The last part: a key that is absent or a leaf becomes a leaf, a
    directory stays; no other key is touched, and an inherited name
    changes nothing. *)
Lemma insertParts_last part cur cur' :
  insertParts [part] cur = Some cur' ->
  (forall key, part <> key -> own cur' key = own cur key)
  /\ (inherited part = true -> cur' = cur)
  /\ (inherited part = false ->
      own cur' part = Some (settled cur part)
      /\ (arrayIndex part = None ->
          map fst cur' = addKey (map fst cur) part)).
Proof.
  intros Hins. simpl in Hins. unfold get in Hins. unfold settled.
  destruct (inherited part).
  - injection Hins as <-. repeat split; auto; discriminate.
  - destruct (own cur part) as [[|child]|] eqn:E; simpl in Hins;
      injection Hins as <-.
    + repeat split; auto using own_assign_same, own_assign_other, keys_assign;
        discriminate.
    + repeat split; auto; try discriminate.
      intros _. symmetry. apply addKey_present. congruence.
    + repeat split; auto using own_assign_same, own_assign_other, keys_assign;
        discriminate.
Qed.

Lemma own_insertParts_other part rest cur cur' key :
  insertParts (part :: rest) cur = Some cur' ->
  part <> key -> own cur' key = own cur key.
Proof.
  intros Hins Hne. destruct rest as [|r rest'].
  - now apply (insertParts_last _ _ _ Hins).
  - destruct (insertParts_inner _ _ _ _ _ Hins) as (_ & c' & _ & _ & Hother & _).
    auto.
Qed.

(** *** One file inserted: the effect on every directory *)

Lemma keysOf_null path : keysOf JNull path = None.
Proof. destruct path; reflexivity. Qed.

Lemma keysOf_empty path :
  keysOf (JObj []) path = match path with [] => Some [] | _ => None end.
Proof. destruct path; reflexivity. Qed.

Lemma keysOf_cons props key path :
  keysOf (JObj props) (key :: path) =
  match own props key with
  | Some child => keysOf child path
  | None => None
  end.
Proof. unfold keysOf. simpl. now destruct (own props key). Qed.

Lemma insertParts_ordinary parts :
  forallb ordinary parts = true ->
  forall cur, exists cur', insertParts parts cur = Some cur'.
Proof.
  induction parts as [|part rest IH]; intros Hord cur; [simpl; eauto|].
  simpl in Hord. apply andb_true_iff in Hord as [Hp Hrest].
  destruct (ordinary_spec _ Hp) as [Hinh _].
  destruct rest as [|r rest'].
  - simpl. destruct (truthy (get cur part)); eauto.
  - rewrite insertParts_inner_eq, (get_ordinary _ _ Hinh).
    destruct (own cur part) as [[|child]|];
      [destruct (IH Hrest []) as [c' ->]
      |destruct (IH Hrest child) as [c' ->]
      |destruct (IH Hrest []) as [c' ->]]; simpl; eauto.
Qed.

Lemma keysOf_insertParts dir :
  forall parts cur cur',
    parts <> [] ->
    forallb ordinary parts = true ->
    insertParts parts cur = Some cur' ->
    keysOf (JObj cur') dir = grow (keysOf (JObj cur) dir) (nextSeg dir parts).
Proof.
  induction dir as [|d dir IH]; intros parts cur cur' Hne Hord Hins;
    (destruct parts as [|part rest]; [congruence|]);
    simpl in Hord; apply andb_true_iff in Hord as [Hp Hrest];
    destruct (ordinary_spec _ Hp) as [Hinh Hidx].
  - (* the directory walked from: its keys gain the first part *)
    unfold keysOf, nextSeg. simpl. f_equal.
    destruct rest as [|r rest'].
    + destruct (insertParts_last _ _ _ Hins) as (_ & _ & Hlast).
      now apply (Hlast Hinh).
    + destruct (insertParts_inner _ _ _ _ _ Hins) as (_ & c' & _ & _ & _ & Hk).
      now apply Hk.
  - rewrite !keysOf_cons. unfold nextSeg. simpl below.
    destruct (String.eqb d part) eqn:Ed.
    + (* the walk goes through key [d] *)
      apply String.eqb_eq in Ed. subst d. fold (nextSeg dir rest).
      destruct rest as [|r rest'].
      * (* [part] is the file itself *)
        assert (Hnext : nextSeg dir [] = None)
          by (unfold nextSeg; destruct dir; reflexivity).
        destruct (insertParts_last _ _ _ Hins) as (_ & _ & Hlast).
        destruct (Hlast Hinh) as [Hown _].
        rewrite Hnext, Hown. unfold settled.
        destruct (own cur part) as [[|child]|];
          rewrite ?keysOf_null; try reflexivity.
        now destruct (keysOf (JObj child) dir).
      * destruct (insertParts_inner _ _ _ _ _ Hins)
          as (_ & c' & Hwalk & Hown & _).
        rewrite Hown, (IH (r :: rest') _ _ ltac:(discriminate) Hrest Hwalk).
        unfold entered.
        destruct (own cur part) as [[|child]|];
          rewrite ?keysOf_empty, ?keysOf_null; try reflexivity;
          destruct dir; reflexivity.
    + (* the walk leaves through another key: [d] is untouched *)
      apply String.eqb_neq in Ed.
      rewrite (own_insertParts_other _ _ _ _ _ Hins) by congruence.
      destruct (own cur d) as [child|]; [|reflexivity].
      now destruct (keysOf child dir).
Qed.

(** *** All files inserted *)

Lemma nextSegs_app dir a b :
  nextSegs dir (a ++ b) = (nextSegs dir a ++ nextSegs dir b)%list.
Proof.
  induction a as [|x a IH]; simpl; [reflexivity|].
  destruct (nextSeg dir x); simpl; congruence.
Qed.

Lemma firstSeen_snoc names name :
  firstSeen (names ++ [name]) = addKey (firstSeen names) name.
Proof. unfold firstSeen. now rewrite fold_left_app. Qed.

Lemma expectedKeys_snoc dir paths parts :
  parts <> [] ->
  grow (expectedKeys dir paths) (nextSeg dir parts)
  = expectedKeys dir (paths ++ [parts]).
Proof.
  intros Hne. unfold expectedKeys. cbv zeta. rewrite nextSegs_app.
  assert (Hlast : nextSegs dir [parts]
                  = match nextSeg dir parts with
                    | Some name => [name]
                    | None => []
                    end)
    by (simpl; now destruct (nextSeg dir parts)).
  rewrite Hlast. clear Hlast.
  destruct (nextSeg dir parts) as [name|] eqn:E.
  - rewrite firstSeen_snoc.
    replace (isNil (nextSegs dir paths ++ [name])) with false
      by (now destruct (nextSegs dir paths)).
    rewrite orb_true_r.
    destruct (isNil dir || negb (isNil (nextSegs dir paths))) eqn:Eold.
    + reflexivity.
    + apply orb_false_iff in Eold as [_ Hnil].
      apply negb_false_iff in Hnil.
      destruct (nextSegs dir paths); [reflexivity|discriminate].
  - rewrite app_nil_r.
    now destruct (isNil dir || negb (isNil (nextSegs dir paths))).
Qed.

Lemma insertFiles_keys files :
  forall cur paths fileTree,
    (forall dir, keysOf (JObj cur) dir = expectedKeys dir paths) ->
    forallb ordinaryPath files = true ->
    insertFiles files cur = Some fileTree ->
    forall dir,
      keysOf (JObj fileTree) dir
      = expectedKeys dir (paths ++ map (Str.split sep) files).
Proof.
  induction files as [|f files IH]; intros cur paths fileTree Hinv Hord Hins dir.
  - simpl in *. injection Hins as <-. now rewrite app_nil_r.
  - simpl in Hord. apply andb_true_iff in Hord as [Hf Hfiles].
    simpl in Hins.
    destruct (insertParts (Str.split sep f) cur) as [cur1|] eqn:E1;
      [|discriminate].
    simpl map.
    change (paths ++ Str.split sep f :: map (Str.split sep) files)%list
      with (paths ++ [Str.split sep f] ++ map (Str.split sep) files)%list.
    rewrite app_assoc.
    apply (IH cur1); try assumption.
    intros dir'.
    rewrite (keysOf_insertParts dir' _ _ _ (StrFacts.split_nonempty _ _) Hf E1).
    rewrite Hinv. apply expectedKeys_snoc, StrFacts.split_nonempty.
Qed.

Lemma insertFiles_ordinary files :
  forallb ordinaryPath files = true ->
  forall cur, exists fileTree, insertFiles files cur = Some fileTree.
Proof.
  induction files as [|f files IH]; intros Hord cur; simpl.
  - eauto.
  - simpl in Hord. apply andb_true_iff in Hord as [Hf Hfiles].
    destruct (insertParts_ordinary _ Hf cur) as [cur1 ->]. auto.
Qed.

(** *** Rendering *)

Lemma TreeNode_induction (P : TreeNode -> Prop) :
  P JNull ->
  (forall props, Forall (fun kv => P (snd kv)) props -> P (JObj props)) ->
  forall node, P node.
Proof.
  intros Hnull Hobj. fix IH 1. intros [|props]; [exact Hnull|].
  apply Hobj. induction props as [|kv props IHprops]; constructor.
  - apply IH.
  - exact IHprops.
Qed.

Lemma renderTree_entries props prefix :
  renderTree (JObj props) prefix = renderEntries prefix props.
Proof.
  induction props as [|[key value] rest IH]; [reflexivity|].
  simpl renderEntries. rewrite <- IH. simpl.
  destruct value; reflexivity.
Qed.

Lemma joinRows_app a b : joinRows (a ++ b) = joinRows a ++ joinRows b.
Proof.
  induction a as [|x a IH]; simpl; [reflexivity|].
  now rewrite IH, StrFacts.append_assoc.
Qed.

(** The rendered text is the rows one after the other. *)
Lemma rows_text node :
  forall path prefix,
    joinRows (map snd (rows node path prefix)) = renderTree node prefix.
Proof.
  induction node as [|props IH] using TreeNode_induction;
    intros path prefix; [reflexivity|].
  induction IH as [|[key value] rest Hv _ IHrest]; [reflexivity|].
  simpl in Hv. simpl rows. simpl renderTree.
  simpl map. simpl joinRows.
  rewrite map_app, joinRows_app.
  simpl in IHrest. rewrite IHrest, Hv.
  rewrite !StrFacts.append_assoc.
  destruct value; reflexivity.
Qed.

(** *** Directories only grow *)

Lemma insertFiles_app a b cur :
  insertFiles (a ++ b) cur =
  match insertFiles a cur with
  | Some fileTree => insertFiles b fileTree
  | None => None
  end.
Proof.
  revert cur. induction a as [|f a IH]; intros cur; simpl; [reflexivity|].
  destruct (insertParts (Str.split sep f) cur); auto.
Qed.

(** The first part of an inserted path is a key afterwards, unless it is
    an inherited name. *)
Lemma own_insertParts_head name rest cur cur' :
  insertParts (name :: rest) cur = Some cur' ->
  inherited name = false -> own cur' name <> None.
Proof.
  intros Hins Hinh. destruct rest as [|r rest'].
  - destruct (insertParts_last _ _ _ Hins) as (_ & _ & Hlast).
    destruct (Hlast Hinh) as [-> _]. discriminate.
  - destruct (insertParts_inner _ _ _ _ _ Hins) as (_ & c' & _ & -> & _).
    discriminate.
Qed.

Lemma own_insertParts_mono parts cur cur' key :
  insertParts parts cur = Some cur' ->
  own cur key <> None -> own cur' key <> None.
Proof.
  intros Hins Hkey. destruct parts as [|part rest].
  { simpl in Hins. now injection Hins as <-. }
  destruct (string_dec part key) as [->|Hne];
    [|now rewrite (own_insertParts_other _ _ _ _ _ Hins Hne)].
  destruct (inherited key) eqn:Hinh;
    [|now apply own_insertParts_head with (1 := Hins)].
  destruct rest as [|r rest'].
  - destruct (insertParts_last _ _ _ Hins) as (_ & Hsame & _).
    now rewrite (Hsame Hinh).
  - destruct (insertParts_inner _ _ _ _ _ Hins) as (Hno & _). congruence.
Qed.

(** Inserting [dir ++ name :: rest] leaves a directory at [dir]. *)
Lemma descend_insertParts_dir dir name rest :
  forall cur cur',
    insertParts (dir ++ name :: rest) cur = Some cur' ->
    exists children,
      descend (JObj cur') dir = Some (JObj children)
      /\ (inherited name = false -> own children name <> None).
Proof.
  induction dir as [|d dir IH]; intros cur cur' Hins.
  - exists cur'. split; [reflexivity|].
    now apply own_insertParts_head with (rest := rest) (cur := cur).
  - change ((d :: dir) ++ name :: rest)%list
      with (d :: (dir ++ name :: rest))%list in Hins.
    destruct (dir ++ name :: rest)%list as [|r rest'] eqn:Erest;
      [now destruct dir|].
    destruct (insertParts_inner _ _ _ _ _ Hins) as (_ & c' & Hwalk & Hown & _).
    simpl. rewrite Hown. now apply IH with (cur := entered cur d).
Qed.

Lemma descend_obj_inv node key more props :
  descend node (key :: more) = Some (JObj props) ->
  exists cur child,
    node = JObj cur /\ own cur key = Some child
    /\ descend child more = Some (JObj props).
Proof.
  simpl. destruct node as [|cur]; [discriminate|].
  destruct (own cur key) as [child|] eqn:E; [|discriminate]. eauto.
Qed.

Lemma descend_from_obj child more props :
  descend child more = Some (JObj props) -> exists c, child = JObj c.
Proof.
  destruct child as [|c]; [|eauto].
  destruct more; discriminate.
Qed.

(** A directory stays a directory, and keeps its keys, whatever is
    inserted afterwards. *)
Lemma descend_insertParts_mono dir :
  forall parts cur cur' props,
    descend (JObj cur) dir = Some (JObj props) ->
    insertParts parts cur = Some cur' ->
    exists props',
      descend (JObj cur') dir = Some (JObj props')
      /\ forall key, own props key <> None -> own props' key <> None.
Proof.
  induction dir as [|d dir IH]; intros parts cur cur' props Hd Hins.
  - simpl in Hd. injection Hd as <-. exists cur'. split; [reflexivity|].
    intros key. now apply own_insertParts_mono with (parts := parts).
  - apply descend_obj_inv in Hd as (cur0 & child & Hcur & Hown & Hchild).
    injection Hcur as <-.
    destruct (descend_from_obj _ _ _ Hchild) as [c ->].
    destruct parts as [|part rest].
    { simpl in Hins. injection Hins as <-.
      exists props. simpl. rewrite Hown. auto. }
    destruct (string_dec part d) as [->|Hne].
    + destruct rest as [|r rest'].
      * (* [d] named as a file: the directory stays *)
        destruct (insertParts_last _ _ _ Hins) as (_ & Hsame & Hlast).
        exists props. split; [|auto]. simpl.
        destruct (inherited d).
        -- now rewrite (Hsame eq_refl), Hown.
        -- destruct (Hlast eq_refl) as [-> _]. unfold settled. now rewrite Hown.
      * destruct (insertParts_inner _ _ _ _ _ Hins)
          as (_ & c' & Hwalk & Hown' & _).
        unfold entered in Hwalk. rewrite Hown in Hwalk.
        destruct (IH _ _ _ _ Hchild Hwalk) as (props' & Hd' & Hmono).
        exists props'. simpl. rewrite Hown'. auto.
    + exists props. simpl.
      rewrite (own_insertParts_other _ _ _ _ _ Hins Hne), Hown. auto.
Qed.

Lemma descend_insertFiles_mono files :
  forall cur fileTree dir props,
    descend (JObj cur) dir = Some (JObj props) ->
    insertFiles files cur = Some fileTree ->
    exists props',
      descend (JObj fileTree) dir = Some (JObj props')
      /\ forall key, own props key <> None -> own props' key <> None.
Proof.
  induction files as [|f files IH]; intros cur fileTree dir props Hd Hins.
  - simpl in Hins. injection Hins as <-. eauto.
  - simpl in Hins.
    destruct (insertParts (Str.split sep f) cur) as [cur1|] eqn:E1;
      [|discriminate].
    destruct (descend_insertParts_mono _ _ _ _ _ Hd E1)
      as (props1 & Hd1 & Hmono1).
    destruct (IH _ _ _ _ Hd1 Hins) as (props' & Hd' & Hmono').
    exists props'. auto.
Qed.

(** *** Rows and their positions *)

Lemma paths_cons key value rest base :
  paths (JObj ((key, value) :: rest)) base
  = ((base ++ [key]) :: paths value (base ++ [key])
     ++ paths (JObj rest) base)%list.
Proof. reflexivity. Qed.

Lemma rows_paths node :
  forall base prefix, map fst (rows node base prefix) = paths node base.
Proof.
  induction node as [|props IH] using TreeNode_induction;
    intros base prefix; [reflexivity|].
  induction IH as [|[key value] rest Hv _ IHrest]; [reflexivity|].
  rewrite paths_cons. simpl in Hv. simpl rows. simpl map.
  rewrite map_app. simpl in IHrest. now rewrite IHrest, Hv.
Qed.

Lemma pathEqb_eq x : forall y, pathEqb x y = true <-> x = y.
Proof.
  induction x as [|a x IH]; intros [|b y]; simpl; split; try congruence.
  - intros H. apply andb_true_iff in H as [Hab Hxy].
    apply String.eqb_eq in Hab. apply IH in Hxy. congruence.
  - intros H. injection H as -> ->. rewrite String.eqb_refl. now apply IH.
Qed.

Lemma pathEqb_neq x y : x <> y -> pathEqb x y = false.
Proof.
  intros Hne. destruct (pathEqb x y) eqn:E; [|reflexivity].
  now apply pathEqb_eq in E.
Qed.

Lemma position_found x l : In x l -> exists i, position x l = Some i.
Proof.
  induction l as [|y l IH]; intros Hin; [destruct Hin|].
  simpl. destruct (pathEqb x y) eqn:E; [eauto|].
  destruct Hin as [->|Hin].
  - rewrite (proj2 (pathEqb_eq x x) eq_refl) in E. discriminate.
  - destruct (IH Hin) as [i ->]. simpl. eauto.
Qed.

Lemma position_lt x l i : position x l = Some i -> i < length l.
Proof.
  revert i. induction l as [|y l IH]; intros i; simpl; [discriminate|].
  destruct (pathEqb x y); [intros H; injection H as <-; lia|].
  destruct (position x l) as [k|]; [|discriminate].
  simpl. intros H. injection H as <-. specialize (IH k eq_refl). lia.
Qed.

Lemma position_app_l x l1 l2 i :
  position x l1 = Some i -> position x (l1 ++ l2) = Some i.
Proof.
  revert i. induction l1 as [|y l1 IH]; intros i; simpl; [discriminate|].
  destruct (pathEqb x y); [auto|].
  destruct (position x l1) as [k|]; [|discriminate].
  simpl. intros H. injection H as <-. now rewrite (IH k eq_refl).
Qed.

Lemma position_app_r x l1 l2 i :
  ~ In x l1 -> position x l2 = Some i ->
  position x (l1 ++ l2) = Some (length l1 + i).
Proof.
  intros Hnot Hi. induction l1 as [|y l1 IH]; [exact Hi|].
  simpl. rewrite pathEqb_neq by (intros ->; apply Hnot; now left).
  rewrite IH by (intros H; apply Hnot; now right). reflexivity.
Qed.

Lemma under_key base a b z : under base a z -> under base b z -> a = b.
Proof.
  intros [ma ->] [mb H]. apply app_inv_head in H. congruence.
Qed.

Lemma paths_shape node :
  forall base z, In z (paths node base) -> exists key, under base key z.
Proof.
  induction node as [|props IH] using TreeNode_induction;
    intros base z Hin; [destruct Hin|].
  induction IH as [|[key value] rest Hv _ IHrest]; [destruct Hin|].
  rewrite paths_cons in Hin. simpl in Hv.
  destruct Hin as [<-|Hin]; [exists key, []; reflexivity|].
  apply in_app_or in Hin as [Hin|Hin]; [|auto].
  destruct (Hv _ _ Hin) as (k & more & ->).
  exists key, (k :: more). now rewrite <- app_assoc.
Qed.

(** The block of the first entry: its row and the rows of its subtree. *)
Lemma block_under key value base z :
  In z ((base ++ [key]) :: paths value (base ++ [key]))%list ->
  under base key z.
Proof.
  intros [<-|Hin]; [exists []; reflexivity|].
  destruct (paths_shape _ _ _ Hin) as (k & more & ->).
  exists (k :: more). now rewrite <- app_assoc.
Qed.

Lemma paths_key props base key z :
  In z (paths (JObj props) base) -> under base key z -> own props key <> None.
Proof.
  induction props as [|[k v] rest IH]; intros Hin Hz; [destruct Hin|].
  rewrite paths_cons, app_comm_cons in Hin. simpl own.
  destruct (String.eqb k key) eqn:E; [discriminate|].
  apply in_app_or in Hin as [Hin|Hin]; [|auto].
  apply block_under in Hin. apply String.eqb_neq in E.
  now pose proof (under_key _ _ _ _ Hin Hz).
Qed.

Lemma own_keys_in props key :
  own props key <> None -> In key (map fst props).
Proof.
  induction props as [|[k v] rest IH]; simpl; [congruence|].
  destruct (String.eqb k key) eqn:E; [apply String.eqb_eq in E; auto|auto].
Qed.

Lemma nameIndex_cons name n more i :
  nameIndex name (n :: more) = Some (S i) ->
  name <> n /\ nameIndex name more = Some i.
Proof.
  simpl. destruct (String.eqb name n) eqn:E; [discriminate|].
  apply String.eqb_neq in E.
  destruct (nameIndex name more); simpl; try discriminate.
  intros H. injection H as ->. auto.
Qed.

Lemma nameIndex_zero name n more :
  nameIndex name (n :: more) = Some 0 -> name = n.
Proof.
  simpl. destruct (String.eqb name n) eqn:E; [now apply String.eqb_eq in E|].
  destruct (nameIndex name more); discriminate.
Qed.

Lemma not_in_rest props base key z :
  ~ In key (map fst props) -> under base key z ->
  ~ In z (paths (JObj props) base).
Proof.
  intros Hkey Hz Hin. apply Hkey, own_keys_in.
  now apply paths_key with (base := base) (z := z).
Qed.

(** Of two rows in the blocks of two sibling names, the row in the block of
    the name that comes first is the upper one. *)
Lemma sibling_blocks props :
  forall base a b x y,
    NoDup (map fst props) ->
    firstBefore a b (map fst props) ->
    In x (paths (JObj props) base) -> In y (paths (JObj props) base) ->
    under base a x -> under base b y ->
    renderedBefore x y (paths (JObj props) base).
Proof.
  induction props as [|[k v] rest IH];
    intros base a b x y Hnd (i & j & Hi & Hj & Hlt) Hx Hy Hxa Hyb;
    [destruct Hx|].
  simpl map in *. inversion Hnd as [|? ? Hk Hnd']; subst.
  rewrite paths_cons, app_comm_cons in *.
  set (block := ((base ++ [k]) :: paths v (base ++ [k]))%list) in *.
  destruct j as [|j']; [lia|].
  apply nameIndex_cons in Hj as [Hbk Hj].
  assert (Hy_block : ~ In y block).
  { intros H. apply block_under in H. apply Hbk.
    now apply under_key with (1 := Hyb). }
  assert (Hy_rest : In y (paths (JObj rest) base)).
  { apply in_app_or in Hy as [Hy|Hy]; [contradiction|assumption]. }
  destruct i as [|i'].
  - (* [a] is the first key: [x] is in its block *)
    apply nameIndex_zero in Hi. subst k.
    assert (Hx_block : In x block).
    { apply in_app_or in Hx as [Hx|Hx]; [assumption|].
      exfalso. now apply (not_in_rest rest base a x). }
    destruct (position_found _ _ Hx_block) as [px Hpx].
    destruct (position_found _ _ Hy_rest) as [py Hpy].
    exists px, (length block + py). repeat split.
    + now apply position_app_l.
    + now apply position_app_r.
    + apply position_lt in Hpx. lia.
  - apply nameIndex_cons in Hi as [Hak Hi].
    assert (Hx_block : ~ In x block).
    { intros H. apply block_under in H. apply Hak.
      now apply under_key with (1 := Hxa). }
    assert (Hx_rest : In x (paths (JObj rest) base)).
    { apply in_app_or in Hx as [Hx|Hx]; [contradiction|assumption]. }
    destruct (IH base a b x y Hnd') as (px & py & Hpx & Hpy & Hp);
      try assumption.
    { exists i', j'. repeat split; try assumption. lia. }
    exists (length block + px), (length block + py). repeat split.
    + now apply position_app_r.
    + now apply position_app_r.
    + lia.
Qed.

(** The rows of a directory: what comes before the block of one of its
    keys, the block, and what comes after. *)
Lemma block_split props :
  forall base key child,
    NoDup (map fst props) ->
    own props key = Some child ->
    exists before after,
      paths (JObj props) base
      = (before ++ ((base ++ [key]) :: paths child (base ++ [key]))
         ++ after)%list
      /\ forall z, under base key z -> ~ In z before /\ ~ In z after.
Proof.
  induction props as [|[k v] rest IH]; intros base key child Hnd Hown;
    [discriminate|].
  simpl map in Hnd. inversion Hnd as [|? ? Hk Hnd']; subst.
  simpl in Hown. rewrite paths_cons.
  destruct (String.eqb k key) eqn:E.
  - apply String.eqb_eq in E. subst k. injection Hown as ->.
    exists [], (paths (JObj rest) base). split; [reflexivity|].
    intros z Hz. split; [intros []|].
    now apply (not_in_rest rest base key z).
  - apply String.eqb_neq in E.
    destruct (IH base key child Hnd' Hown) as (before & after & Heq & Hbefore).
    exists (((base ++ [k]) :: paths v (base ++ [k])) ++ before)%list, after.
    split.
    + rewrite Heq. now rewrite <- app_assoc.
    + intros z Hz. destruct (Hbefore z Hz) as [Hb Ha]. split; [|exact Ha].
      intros Hin. apply in_app_or in Hin as [Hin|Hin]; [|contradiction].
      apply block_under in Hin. apply E.
      now apply under_key with (1 := Hin).
Qed.

Lemma descend_app node a :
  forall b,
    descend node (a ++ b)
    = match descend node a with
      | Some n => descend n b
      | None => None
      end.
Proof.
  revert node. induction a as [|k a IH]; intros node b; [reflexivity|].
  simpl. destruct node as [|props]; [reflexivity|].
  destruct (own props k); auto.
Qed.

(** The same one level down: rows below a common directory [dir] are ordered
    as the names by which they leave [dir] are. *)
Lemma nested_blocks dir :
  forall node base props a b x y,
    (forall d ps, descend node d = Some (JObj ps) -> NoDup (map fst ps)) ->
    descend node dir = Some (JObj props) ->
    firstBefore a b (map fst props) ->
    In x (paths node base) -> In y (paths node base) ->
    under (base ++ dir) a x -> under (base ++ dir) b y ->
    renderedBefore x y (paths node base).
Proof.
  induction dir as [|d dir IH];
    intros node base props a b x y Hnd Hdir Hab Hx Hy Hxa Hyb.
  - simpl in Hdir. injection Hdir as ->. rewrite app_nil_r in *.
    apply sibling_blocks with (a := a) (b := b); try assumption.
    now apply (Hnd []).
  - apply descend_obj_inv in Hdir as (cur & child & -> & Hown & Hchild).
    assert (Hcur : NoDup (map fst cur)) by now apply (Hnd []).
    destruct (block_split cur base d child Hcur Hown)
      as (before & after & Heq & Hout).
    replace (base ++ d :: dir)%list with ((base ++ [d]) ++ dir)%list in *
      by now rewrite <- app_assoc.
    assert (Hin_child :
              forall z key, under ((base ++ [d]) ++ dir) key z ->
                            In z (paths (JObj cur) base) ->
                            ~ In z before /\ In z (paths child (base ++ [d]))).
    { intros z key (more & ->) Hz.
      assert (Hzd : under base d (((base ++ [d]) ++ dir) ++ key :: more)).
      { exists (dir ++ key :: more)%list.
        rewrite <- !app_assoc. reflexivity. }
      destruct (Hout _ Hzd) as [Hb Ha]. split; [exact Hb|].
      rewrite Heq in Hz.
      apply in_app_or in Hz as [Hz|Hz]; [contradiction|].
      apply in_app_or in Hz as [Hz|Hz]; [|contradiction].
      destruct Hz as [Hz|Hz]; [|exact Hz].
      exfalso. apply (f_equal (@length string)) in Hz.
      rewrite !length_app in Hz. simpl in Hz. lia. }
    destruct (Hin_child x a Hxa Hx) as [Hxb Hxc].
    destruct (Hin_child y b Hyb Hy) as [Hyb' Hyc].
    destruct (IH child (base ++ [d])%list props a b x y)
      as (px & py & Hpx & Hpy & Hp); try assumption.
    { intros d' ps Hd'. apply (Hnd (d :: d')). simpl. now rewrite Hown. }
    assert (Hshift :
              forall z pz, ~ In z before ->
                           position z (paths child (base ++ [d])) = Some pz ->
                           under ((base ++ [d]) ++ dir) a z
                           \/ under ((base ++ [d]) ++ dir) b z ->
                           position z (paths (JObj cur) base)
                           = Some (length before + S pz)).
    { intros z pz Hzb Hpz Hz. rewrite Heq.
      apply position_app_r; [exact Hzb|].
      rewrite <- app_comm_cons. simpl.
      rewrite pathEqb_neq.
      - now rewrite (position_app_l _ _ after _ Hpz).
      - intros ->. destruct Hz as [(more & Hz)|(more & Hz)];
          apply (f_equal (@length string)) in Hz;
          rewrite !length_app in Hz; simpl in Hz; lia. }
    exists (length before + S px), (length before + S py). repeat split.
    + apply Hshift; auto.
    + apply Hshift; auto.
    + lia.
Qed.

(** Every node that can be reached has a row. *)
Lemma own_block props :
  forall base key child,
    own props key = Some child ->
    In (base ++ [key])%list (paths (JObj props) base)
    /\ forall z, In z (paths child (base ++ [key])) ->
                 In z (paths (JObj props) base).
Proof.
  induction props as [|[k v] rest IH]; intros base key child Hown;
    [discriminate|].
  simpl in Hown. rewrite paths_cons.
  destruct (String.eqb k key) eqn:E.
  - apply String.eqb_eq in E. subst k. injection Hown as ->.
    split; [now left|]. intros z Hz. right. apply in_or_app. now left.
  - destruct (IH base key child Hown) as [Hrow Hsub]. split.
    + right. apply in_or_app. now right.
    + intros z Hz. right. apply in_or_app. right. now apply Hsub.
Qed.

Lemma reachable_row dir :
  forall node base n,
    dir <> [] ->
    descend node dir = Some n ->
    In (base ++ dir)%list (paths node base).
Proof.
  induction dir as [|d dir IH]; intros node base n Hne Hd; [congruence|].
  simpl in Hd. destruct node as [|cur]; [discriminate|].
  destruct (own cur d) as [child|] eqn:Hown; [|discriminate].
  destruct (own_block cur base d child Hown) as [Hrow Hsub].
  destruct dir as [|d2 dir'].
  - exact Hrow.
  - replace (base ++ d :: d2 :: dir')%list
      with ((base ++ [d]) ++ d2 :: dir')%list by now rewrite <- app_assoc.
    apply Hsub. apply IH with (n := n); [discriminate|exact Hd].
Qed.

(** *** Every selected file is in the tree *)

Lemma descend_insertParts_self parts :
  forall cur cur',
    forallb ordinary parts = true ->
    insertParts parts cur = Some cur' ->
    descend (JObj cur') parts <> None.
Proof.
  induction parts as [|part rest IH]; intros cur cur' Hord Hins;
    [discriminate|].
  simpl in Hord. apply andb_true_iff in Hord as [Hp Hrest].
  destruct (ordinary_spec _ Hp) as [Hinh _]. simpl descend.
  destruct rest as [|r rest'].
  - destruct (insertParts_last _ _ _ Hins) as (_ & _ & Hlast).
    destruct (Hlast Hinh) as [-> _]. discriminate.
  - destruct (insertParts_inner _ _ _ _ _ Hins) as (_ & c' & Hwalk & -> & _).
    now apply (IH (entered cur part) c').
Qed.

(** What can be reached stays reachable. *)
Lemma descend_insertParts_keeps dir :
  forall parts cur cur',
    descend (JObj cur) dir <> None ->
    insertParts parts cur = Some cur' ->
    descend (JObj cur') dir <> None.
Proof.
  induction dir as [|d dir IH]; intros parts cur cur' Hd Hins; [discriminate|].
  simpl in Hd. destruct (own cur d) as [child|] eqn:Hown; [|congruence].
  destruct parts as [|part rest].
  { simpl in Hins. injection Hins as <-. simpl. now rewrite Hown. }
  destruct (string_dec part d) as [->|Hne];
    [|simpl; now rewrite (own_insertParts_other _ _ _ _ _ Hins Hne), Hown].
  simpl descend. destruct rest as [|r rest'].
  - (* [d] named as a file: what is at [d] stays *)
    destruct (insertParts_last _ _ _ Hins) as (_ & Hsame & Hlast).
    destruct (inherited d).
    + now rewrite (Hsame eq_refl), Hown.
    + destruct (Hlast eq_refl) as [-> _]. unfold settled. rewrite Hown.
      now destruct child.
  - destruct (insertParts_inner _ _ _ _ _ Hins) as (_ & c' & Hwalk & -> & _).
    unfold entered in Hwalk. rewrite Hown in Hwalk.
    destruct child as [|c].
    + destruct dir; [discriminate|]. now simpl in Hd.
    + now apply (IH (r :: rest') c c').
Qed.

Lemma insertFiles_reach files :
  forall cur fileTree,
    forallb ordinaryPath files = true ->
    insertFiles files cur = Some fileTree ->
    (forall dir, descend (JObj cur) dir <> None ->
                 descend (JObj fileTree) dir <> None)
    /\ forall f, In f files ->
                 descend (JObj fileTree) (Str.split sep f) <> None.
Proof.
  induction files as [|f files IH]; intros cur fileTree Hord Hins.
  - simpl in Hins. injection Hins as <-. split; [auto|intros ? []].
  - simpl in Hord. apply andb_true_iff in Hord as [Hf Hfiles].
    simpl in Hins.
    destruct (insertParts (Str.split sep f) cur) as [cur1|] eqn:E1;
      [|discriminate].
    destruct (IH cur1 fileTree Hfiles Hins) as [Hkeep Hall]. split.
    + intros dir Hd. apply Hkeep.
      now apply descend_insertParts_keeps with (2 := E1).
    + intros g [<-|Hg]; [|auto].
      apply Hkeep. now apply descend_insertParts_self with (cur := cur).
Qed.

Lemma NoDup_addKey seen name : NoDup seen -> NoDup (addKey seen name).
Proof.
  intros Hnd. unfold addKey.
  destruct (existsb (String.eqb name) seen) eqn:E; [assumption|].
  assert (~ In name seen).
  { intros Hin.
    assert (existsb (String.eqb name) seen = true)
      by (apply existsb_exists; exists name; split;
          [assumption|apply String.eqb_refl]).
    congruence. }
  apply NoDup_app; try assumption.
  - constructor; [intros []|constructor].
  - intros x Hx [<-|[]]. contradiction.
Qed.

Lemma NoDup_firstSeen names : NoDup (firstSeen names).
Proof.
  unfold firstSeen.
  assert (H : forall seen, NoDup seen -> NoDup (fold_left addKey names seen)).
  { induction names as [|n names IH]; intros seen Hs; [exact Hs|].
    simpl. apply IH. now apply NoDup_addKey. }
  apply H. constructor.
Qed.

(** *** The claims about the inclusion tree *)

(** C9, as the code has it.  When no path segment is an array index or a
    name inherited from [Object.prototype], the tree is built, and at
    every directory of it the keys are the names by which the selected
    files enter that directory, each at its first occurrence in selection
    order; [renderTree] prints the entries of a directory in the order of
    its keys.  In particular, of two selected files whose paths leave a
    common directory by different names, the one whose name first occurs
    earlier among the files passing through that directory is rendered
    above the other. *)
Theorem sibling_order_first_seen files :
  forallb ordinaryPath files = true ->
  exists fileTree,
    buildTree files = Some fileTree
    /\ (forall dir props,
          descend (JObj fileTree) dir = Some (JObj props) ->
          map fst props
          = firstSeen (nextSegs dir (map (Str.split sep) files))
          /\ forall prefix,
              renderTree (JObj props) prefix = renderEntries prefix props)
    /\ forall dir a b f g restF restG,
        In f files -> In g files ->
        Str.split sep f = (dir ++ a :: restF)%list ->
        Str.split sep g = (dir ++ b :: restG)%list ->
        firstBefore a b
          (firstSeen (nextSegs dir (map (Str.split sep) files))) ->
        renderedBefore (Str.split sep f) (Str.split sep g)
          (renderedPaths fileTree).
Proof.
  intros Hord.
  destruct (insertFiles_ordinary files Hord []) as [fileTree Hbuild].
  exists fileTree. split; [exact Hbuild|].
  assert (Hkeys : forall dir props,
             descend (JObj fileTree) dir = Some (JObj props) ->
             map fst props
             = firstSeen (nextSegs dir (map (Str.split sep) files))).
  { intros dir props Hd.
    assert (Hbase : forall dir0, keysOf (JObj []) dir0 = expectedKeys dir0 []).
    { intros dir0. rewrite keysOf_empty. now destruct dir0. }
    pose proof (insertFiles_keys files [] [] fileTree Hbase Hord Hbuild dir)
      as Hk.
    unfold keysOf in Hk. rewrite Hd in Hk.
    unfold expectedKeys in Hk. cbv zeta in Hk. simpl app in Hk.
    destruct (isNil dir || _) in Hk; congruence. }
  split.
  - intros dir props Hd. split; [now apply Hkeys|].
    intros; apply renderTree_entries.
  - intros dir a b f g restF restG Hf Hg Ef Eg Hab.
    destruct (insertFiles_reach files [] fileTree Hord Hbuild) as [_ Hreach].
    pose proof (Hreach f Hf) as Hrf. pose proof (Hreach g Hg) as Hrg.
    assert (Hdir : exists props, descend (JObj fileTree) dir = Some (JObj props)).
    { rewrite Ef, descend_app in Hrf.
      destruct (descend (JObj fileTree) dir) as [[|props]|];
        simpl in Hrf; try congruence.
      eauto. }
    destruct Hdir as [props Hdir].
    unfold renderedPaths. rewrite rows_paths.
    apply nested_blocks with (dir := dir) (props := props) (a := a) (b := b).
    + intros d ps Hd. rewrite (Hkeys d ps Hd). apply NoDup_firstSeen.
    + exact Hdir.
    + now rewrite (Hkeys dir props Hdir).
    + destruct (descend (JObj fileTree) (Str.split sep f)) as [n|] eqn:E;
        [|congruence].
      apply (reachable_row _ _ [] n (StrFacts.split_nonempty _ _) E).
    + destruct (descend (JObj fileTree) (Str.split sep g)) as [n|] eqn:E;
        [|congruence].
      apply (reachable_row _ _ [] n (StrFacts.split_nonempty _ _) E).
    + exists restF. exact Ef.
    + exists restG. exact Eg.
Qed.

Lemma sibling_order_first_seen_witness :
  forallb ordinaryPath ["s/a"; "t/b"; "s/c"] = true
  /\ exists fileTree,
      buildTree ["s/a"; "t/b"; "s/c"] = Some fileTree
      /\ (forall dir props,
            descend (JObj fileTree) dir = Some (JObj props) ->
            map fst props
            = firstSeen
                (nextSegs dir (map (Str.split sep) ["s/a"; "t/b"; "s/c"]))
            /\ forall prefix,
                renderTree (JObj props) prefix = renderEntries prefix props)
      /\ forall dir a b f g restF restG,
          In f ["s/a"; "t/b"; "s/c"] -> In g ["s/a"; "t/b"; "s/c"] ->
          Str.split sep f = (dir ++ a :: restF)%list ->
          Str.split sep g = (dir ++ b :: restG)%list ->
          firstBefore a b
            (firstSeen
               (nextSegs dir (map (Str.split sep) ["s/a"; "t/b"; "s/c"]))) ->
          renderedBefore (Str.split sep f) (Str.split sep g)
            (renderedPaths fileTree).
Proof.
  split; [reflexivity|].
  apply (sibling_order_first_seen ["s/a"; "t/b"; "s/c"]).
  reflexivity.
Defined.

(** On the list of the counterexample below the order is by name: ["s"]
    first occurs before ["t"], so ["s/c"] is above ["t/b"]. *)
Example first_seen_order_rendered :
  firstBefore "s" "t"
    (firstSeen (nextSegs [] (map (Str.split sep) ["s/a"; "t/b"; "s/c"])))
  /\ renderedBefore ["s"; "c"] ["t"; "b"]
       (renderedPaths [("s", JObj [("a", JNull); ("c", JNull)]);
                       ("t", JObj [("b", JNull)])]).
Proof.
  split.
  - exists 0, 1. repeat split. lia.
  - exists 2, 4. repeat split. lia.
Qed.

(** C9 as stated fails: ["t/b"] is selected before ["s/c"], the two
    diverge at the top level, and ["s/c"] is rendered first, because the
    name ["s"] was created by the earlier ["s/a"]. *)
Lemma selection_order_not_rendered :
  ~ selectionOrderRendered ["s/a"; "t/b"; "s/c"].
Proof.
  intros H.
  destruct (H [("s", JObj [("a", JNull); ("c", JNull)]);
               ("t", JObj [("b", JNull)])] 1 2 "t/b" "s/c")
    as (i & j & Hi & Hj & Hlt).
  - reflexivity.
  - lia.
  - reflexivity.
  - reflexivity.
  - split; reflexivity.
  - vm_compute in Hi, Hj. injection Hi as <-. injection Hj as <-. lia.
Qed.

(** Keys that are array indices are enumerated first, in numeric order,
    whatever the order of selection. *)
Example array_index_keys_first :
  formatIncludedFiles ["b"; "10"; "9"]
  = Some ("├── 9" ++ LF ++ "├── 10" ++ LF ++ "└── b" ++ LF).
Proof. vm_compute. reflexivity. Qed.

(** What holds on every list: a path that a later path continues ends up
    as a directory, never as a file entry, and the directory has the next
    name of the later path as a child unless that name is inherited from
    [Object.prototype]. *)
Theorem leaf_becomes_directory
  before p between q after name rest fileTree :
  Str.split sep q = (Str.split sep p ++ name :: rest)%list ->
  buildTree (before ++ p :: between ++ q :: after) = Some fileTree ->
  exists children,
    descend (JObj fileTree) (Str.split sep p) = Some (JObj children)
    /\ (inherited name = false -> own children name <> None).
Proof.
  intros Hq Hbuild. unfold buildTree in Hbuild.
  change (before ++ p :: between ++ q :: after)%list
    with (before ++ (p :: between) ++ q :: after)%list in Hbuild.
  rewrite app_assoc, insertFiles_app in Hbuild.
  destruct (insertFiles (before ++ p :: between) []) as [t1|];
    [|discriminate].
  simpl in Hbuild. rewrite Hq in Hbuild.
  destruct (insertParts (Str.split sep p ++ name :: rest) t1) as [t2|] eqn:E2;
    [|discriminate].
  destruct (descend_insertParts_dir _ _ _ _ _ E2) as (c & Hd & Hc).
  destruct (descend_insertFiles_mono _ _ _ _ _ Hd Hbuild)
    as (children & Hd' & Hmono).
  exists children. auto.
Qed.

Lemma leaf_becomes_directory_witness :
  Str.split sep "lib/util/io.ts" = (Str.split sep "lib/util" ++ ["io.ts"])%list
  /\ buildTree (["a"] ++ "lib/util" :: ["b"] ++ "lib/util/io.ts" :: ["c"])
     = Some [("a", JNull);
             ("lib", JObj [("util", JObj [("io.ts", JNull)])]);
             ("b", JNull); ("c", JNull)]
  /\ exists children,
      descend
        (JObj [("a", JNull);
               ("lib", JObj [("util", JObj [("io.ts", JNull)])]);
               ("b", JNull); ("c", JNull)])
        (Str.split sep "lib/util") = Some (JObj children)
      /\ (inherited "io.ts" = false -> own children "io.ts" <> None).
Proof.
  split; [reflexivity|]. split; [reflexivity|].
  apply (leaf_becomes_directory ["a"] "lib/util" ["b"] "lib/util/io.ts"
           ["c"] "io.ts" []); reflexivity.
Defined.

(** C10 at ["a"; "a/toString"].  The walk of the second path replaces the
    leaf of ["a"] by a fresh [{}], as claimed; the child is then not
    created, because [currentNode["toString"]] reads the inherited method,
    which is truthy.  ["a"] is left a directory without children and is
    rendered as a bare line, and the file ["a/toString"] is not in the tree. *)
Lemma inherited_child_dropped :
  buildTree ["a"] = Some [("a", JNull)]
  /\ buildTree ["a"; "a/toString"] = Some [("a", JObj [])]
  /\ formatIncludedFiles ["a"; "a/toString"] = Some ("└── a" ++ LF)
  /\ ~ directoryWithChildren ["a"; "a/toString"] "a".
Proof.
  do 3 (split; [reflexivity|]).
  intros (fileTree & children & Hbuild & Hd & Hne).
  vm_compute in Hbuild. injection Hbuild as <-.
  vm_compute in Hd. injection Hd as <-. congruence.
Qed.

(** With an ordinary name in its place the child is created. *)
Example ordinary_child_created :
  formatIncludedFiles ["a"; "a/b"] = Some ("└── a" ++ LF ++ "    └── b" ++ LF).
Proof. reflexivity. Qed.

End InclusionFacts.


(* ================================================================== *)
(** ** Per-file blocks, assembly and the write *)

Module AssemblyFacts.
Import Fs Codewise Stated.

Lemma fileBlocks_app w dir config a b :
  fileBlocks w dir config (a ++ b)
  = fileBlocks w dir config a ++ fileBlocks w dir config b.
Proof.
  induction a as [|f a IH]; simpl; [reflexivity|].
  now rewrite IH, StrFacts.append_assoc.
Qed.

(** C5, as the code has it.  In XML mode the content is written between
    the CDATA markers unchanged and unescaped; the text of the CDATA
    section read back for the block's path is the content when the
    content does not contain the end marker. *)
Theorem cdata_round_trip w filePath config content :
  readFileSync w filePath = Ok content ->
  outputFormat config = XML ->
  Str.includes "]]>" content = false ->
  Blocks.cdataText (path_relative (cwd w) filePath)
    (getFileContent w filePath config) = Some content.
Proof.
  intros Hread Hxml Hfree.
  unfold getFileContent. rewrite Hread, Hxml. cbv zeta.
  set (rel := path_relative (cwd w) filePath).
  unfold Blocks.cdataText.
  replace ("<file path=" ++ DQ ++ rel ++ DQ ++ ">" ++ LF
           ++ "<![CDATA[" ++ LF ++ content ++ LF ++ "]]>" ++ LF
           ++ "</file>" ++ LF ++ LF)
    with (("<file path=" ++ DQ ++ rel ++ DQ ++ ">" ++ LF ++ "<![CDATA[")
          ++ (String "010" content
              ++ String "010" ("]]>" ++ (LF ++ "</file>" ++ LF ++ LF)))).
  2:{ cbn [append DQ LF LF].
      repeat (rewrite ?StrFacts.append_assoc; cbn [append]).
      reflexivity. }
  rewrite StrFacts.strip_prefix_app.
  rewrite (StrFacts.cut_after_fresh "010" "]]>" _ eq_refl).
  - cbn [append Str.strip_prefix LF LF]. rewrite Ascii.eqb_refl.
    apply StrFacts.chop_lf_app.
  - apply StrFacts.includes_false in Hfree.
    unfold Str.cut; fold Str.cut. now rewrite Hfree.
Qed.

Lemma cdata_round_trip_witness :
  readFileSync (Samples.world [("x.js", Samples.text "a[b[0]] > 1")])
    "/repo/x.js" = Ok "a[b[0]] > 1"
  /\ outputFormat Samples.xml = XML
  /\ Str.includes "]]>" "a[b[0]] > 1" = false
  /\ Blocks.cdataText
       (path_relative
          (cwd (Samples.world [("x.js", Samples.text "a[b[0]] > 1")]))
          "/repo/x.js")
       (getFileContent (Samples.world [("x.js", Samples.text "a[b[0]] > 1")])
          "/repo/x.js" Samples.xml)
     = Some "a[b[0]] > 1".
Proof.
  do 3 (split; [reflexivity|]).
  apply (cdata_round_trip
           (Samples.world [("x.js", Samples.text "a[b[0]] > 1")])
           "/repo/x.js" Samples.xml "a[b[0]] > 1"); reflexivity.
Defined.

(** C5 as stated fails on a file that contains the end marker: the
    section read back stops there. *)
Lemma cdata_end_marker_in_content :
  ~ Stated.xmlRoundTrip (Samples.world [("x.js", Samples.text "a[b[0]]>1")])
      "/repo/x.js" Samples.xml.
Proof.
  intros H. specialize (H "a[b[0]]>1" eq_refl).
  vm_compute in H. discriminate.
Qed.

(** C6, as the code has it.  In markdown mode the block of every file
    that is read is the fence and the relative path, the content
    unchanged, and the closing fence.  Read back, the info-string is the
    relative path when that has no line break, whatever the content, and
    the body is the content when no line of the content starts with a
    fence. *)
Theorem fenced_round_trip w filePath config content :
  readFileSync w filePath = Ok content ->
  outputFormat config = Markdown ->
  getFileContent w filePath config
  = Blocks.fence ++ path_relative (cwd w) filePath ++ LF
    ++ content ++ LF ++ Blocks.fence ++ LF ++ LF
  /\ (Str.includes LF (path_relative (cwd w) filePath) = false ->
      (exists body,
          Blocks.fencedBlock (getFileContent w filePath config)
          = Some (path_relative (cwd w) filePath, body))
      /\ (Blocks.fenceFree content = true ->
          Blocks.fencedBlock (getFileContent w filePath config)
          = Some (path_relative (cwd w) filePath, content))).
Proof.
  intros Hread Hmd.
  unfold getFileContent. rewrite Hread, Hmd. cbv zeta.
  set (rel := path_relative (cwd w) filePath) in *.
  split; [reflexivity|]. intros Hline.
  unfold Blocks.fencedBlock, Blocks.fence.
  rewrite StrFacts.strip_prefix_app.
  apply StrFacts.includes_false in Hline.
  change (rel ++ LF ++ content ++ LF ++ "```" ++ LF ++ LF)
    with (rel ++ String "010" ("" ++ (content ++ LF ++ "```" ++ LF ++ LF))).
  rewrite (StrFacts.cut_at_fresh "010" "" _ eq_refl rel Hline).
  split.
  - destruct (Str.strip_prefix "```" (content ++ LF ++ "```" ++ LF ++ LF));
      [now exists ""|].
    change (content ++ LF ++ "```" ++ LF ++ LF)
      with (content ++ (LF ++ "```") ++ (LF ++ LF)).
    destruct (StrFacts.cut_found (LF ++ "```") content (LF ++ LF))
      as (body & after & ->).
    now exists body.
  - intros Hfree. unfold Blocks.fenceFree, Blocks.fence in Hfree.
    destruct (Str.strip_prefix "```" content) eqn:Hstart; [discriminate|].
    apply negb_true_iff, StrFacts.includes_false in Hfree.
    change (content ++ LF ++ "```" ++ LF ++ LF)
      with (content ++ String "010" ("```" ++ (LF ++ LF))).
    rewrite (StrFacts.strip_prefix_fresh "010" "```" eq_refl _ _ Hstart).
    change (LF ++ "```") with (String "010" "```").
    now rewrite (StrFacts.cut_at_fresh "010" "```" _ eq_refl content Hfree).
Qed.

Lemma fenced_round_trip_witness :
  readFileSync
    (Samples.world
       [("x.md", Samples.text ("Usage:" ++ LF ++ "```" ++ LF ++ "npm i"))])
    "/repo/x.md"
  = Ok ("Usage:" ++ LF ++ "```" ++ LF ++ "npm i")
  /\ outputFormat DEFAULT_CONFIG = Markdown
  /\ getFileContent
       (Samples.world
          [("x.md", Samples.text ("Usage:" ++ LF ++ "```" ++ LF ++ "npm i"))])
       "/repo/x.md" DEFAULT_CONFIG
     = Blocks.fence
       ++ path_relative
            (cwd (Samples.world
                    [("x.md",
                      Samples.text ("Usage:" ++ LF ++ "```" ++ LF ++ "npm i"))]))
            "/repo/x.md"
       ++ LF ++ ("Usage:" ++ LF ++ "```" ++ LF ++ "npm i")
       ++ LF ++ Blocks.fence ++ LF ++ LF
  /\ (Str.includes LF
        (path_relative
           (cwd (Samples.world
                   [("x.md",
                     Samples.text ("Usage:" ++ LF ++ "```" ++ LF ++ "npm i"))]))
           "/repo/x.md") = false ->
      (exists body,
          Blocks.fencedBlock
            (getFileContent
               (Samples.world
                  [("x.md",
                    Samples.text ("Usage:" ++ LF ++ "```" ++ LF ++ "npm i"))])
               "/repo/x.md" DEFAULT_CONFIG)
          = Some
              (path_relative
                 (cwd (Samples.world
                         [("x.md",
                           Samples.text
                             ("Usage:" ++ LF ++ "```" ++ LF ++ "npm i"))]))
                 "/repo/x.md",
               body))
      /\ (Blocks.fenceFree ("Usage:" ++ LF ++ "```" ++ LF ++ "npm i") = true ->
          Blocks.fencedBlock
            (getFileContent
               (Samples.world
                  [("x.md",
                    Samples.text ("Usage:" ++ LF ++ "```" ++ LF ++ "npm i"))])
               "/repo/x.md" DEFAULT_CONFIG)
          = Some
              (path_relative
                 (cwd (Samples.world
                         [("x.md",
                           Samples.text
                             ("Usage:" ++ LF ++ "```" ++ LF ++ "npm i"))]))
                 "/repo/x.md",
               "Usage:" ++ LF ++ "```" ++ LF ++ "npm i"))).
Proof.
  do 2 (split; [reflexivity|]).
  apply (fenced_round_trip
           (Samples.world
              [("x.md", Samples.text ("Usage:" ++ LF ++ "```" ++ LF ++ "npm i"))])
           "/repo/x.md" DEFAULT_CONFIG
           ("Usage:" ++ LF ++ "```" ++ LF ++ "npm i")); reflexivity.
Defined.

(** A content without a fence line comes back whole; one with a fence
    line comes back up to that line, under the right info-string. *)
Example fence_free_content_read_back :
  Blocks.fenceFree "``a``" = true
  /\ Blocks.fencedBlock
       (getFileContent (Samples.world [("x.md", Samples.text "``a``")])
          "/repo/x.md" DEFAULT_CONFIG)
     = Some ("x.md", "``a``")
  /\ Blocks.fencedBlock
       (getFileContent
          (Samples.world
             [("x.md", Samples.text ("Usage:" ++ LF ++ "```" ++ LF ++ "npm i"))])
          "/repo/x.md" DEFAULT_CONFIG)
     = Some ("x.md", "Usage:").
Proof. repeat split. Qed.

(** C6 as stated fails on a file with a fence of its own (any markdown
    file with a code sample): the body read back stops at that line. *)
Lemma fence_line_in_content :
  ~ Stated.markdownRoundTrip
      (Samples.world
         [("x.md", Samples.text ("Usage:" ++ LF ++ "```" ++ LF ++ "npm i"))])
      "/repo/x.md" DEFAULT_CONFIG.
Proof.
  intros H.
  specialize (H ("Usage:" ++ LF ++ "```" ++ LF ++ "npm i") eq_refl).
  vm_compute in H. discriminate.
Qed.

(** The info-string is one line: a path with a line break in it is cut
    there. *)
Example line_break_in_path :
  Blocks.fencedBlock
    (getFileContent
       (Samples.world [("a" ++ LF ++ "b", Samples.text "x")])
       ("/repo/a" ++ LF ++ "b") DEFAULT_CONFIG)
  = Some ("a", "b" ++ LF ++ "x").
Proof. reflexivity. Qed.

Lemma joined_app a b :
  joined (a ++ b) = joined a ++ joined b.
Proof.
  induction a as [|x a IH]; [reflexivity|].
  simpl. rewrite IH. now rewrite StrFacts.append_assoc.
Qed.

(** The loop of [generateCodeContext] adds, file by file, the block of a
    file that is read and the placeholder of one that is not. *)
Lemma fileBlocks_sections w dir config files :
  fileBlocks w dir config files = joined (map (fileSection w dir config) files).
Proof.
  induction files as [|file files IH]; [reflexivity|].
  simpl. rewrite IH. reflexivity.
Qed.

(** C8.  A file that cannot be read contributes a line with its path and
    the reason, and nothing is thrown; when the two trees are produced,
    the document is produced, and its content section is, for the
    selected files in order, the block of each file that is read and the
    placeholder of each file that is not: the placeholder stands between
    the sections of the files before and the sections of the files
    after. *)
Theorem read_failure_inline
  (minimatch : string -> string -> bool) w dir config ig
  fullTree includedFiles inclusionTree :
  fullFileTree w dir ig = Ok fullTree ->
  getIncludedFiles minimatch w dir config ig = Ok includedFiles ->
  Inclusion.formatIncludedFiles includedFiles = Some inclusionTree ->
  generateCodeContext minimatch w dir config ig
  = Some (Ok ("Full File Tree:" ++ LF ++ LF ++ fullTree
              ++ LF ++ "Included Files:" ++ LF ++ LF ++ inclusionTree
              ++ LF ++ "Code Context:" ++ LF ++ LF
              ++ joined (map (fileSection w dir config) includedFiles)))
  /\ (forall file content,
        readFileSync w (path_join dir file) = Ok content ->
        getFileContent w (path_join dir file) config
        = contentBlock (outputFormat config)
            (path_relative (cwd w) (path_join dir file)) content
        /\ fileSection w dir config file
           = contentBlock (outputFormat config)
               (path_relative (cwd w) (path_join dir file)) content)
  /\ forall before file after message,
      includedFiles = (before ++ file :: after)%list ->
      readFileSync w (path_join dir file) = Throw message ->
      getFileContent w (path_join dir file) config
      = errorPlaceholder (path_join dir file) message
      /\ joined (map (fileSection w dir config) includedFiles)
         = joined (map (fileSection w dir config) before)
           ++ errorPlaceholder (path_join dir file) message
           ++ joined (map (fileSection w dir config) after).
Proof.
  intros Htree Hsel Hinc. split; [|split].
  - unfold generateCodeContext. rewrite Htree, Hsel, Hinc.
    now rewrite fileBlocks_sections.
  - intros file content Hread.
    unfold getFileContent, fileSection, contentBlock. rewrite Hread.
    now destruct (outputFormat config).
  - intros before file after message -> Hread. split.
    + unfold getFileContent. now rewrite Hread.
    + rewrite map_app, joined_app. simpl.
      unfold fileSection at 2. now rewrite Hread.
Qed.

Lemma read_failure_inline_witness :
  fullFileTree Samples.locked "/repo" []
  = Ok ("├── a.txt" ++ LF ++ "├── b.key" ++ LF ++ "└── c.txt" ++ LF)
  /\ getIncludedFiles Samples.miniGlob Samples.locked "/repo" DEFAULT_CONFIG []
     = Ok ["a.txt"; "b.key"; "c.txt"]
  /\ Inclusion.formatIncludedFiles ["a.txt"; "b.key"; "c.txt"]
     = Some ("├── a.txt" ++ LF ++ "├── b.key" ++ LF ++ "└── c.txt" ++ LF)
  /\ generateCodeContext Samples.miniGlob Samples.locked "/repo" DEFAULT_CONFIG []
     = Some (Ok ("Full File Tree:" ++ LF ++ LF
                 ++ ("├── a.txt" ++ LF ++ "├── b.key" ++ LF ++ "└── c.txt" ++ LF)
                 ++ LF ++ "Included Files:" ++ LF ++ LF
                 ++ ("├── a.txt" ++ LF ++ "├── b.key" ++ LF ++ "└── c.txt" ++ LF)
                 ++ LF ++ "Code Context:" ++ LF ++ LF
                 ++ joined (map (fileSection Samples.locked "/repo" DEFAULT_CONFIG)
                              ["a.txt"; "b.key"; "c.txt"])))
  /\ (forall file content,
        readFileSync Samples.locked (path_join "/repo" file) = Ok content ->
        getFileContent Samples.locked (path_join "/repo" file) DEFAULT_CONFIG
        = contentBlock (outputFormat DEFAULT_CONFIG)
            (path_relative (cwd Samples.locked) (path_join "/repo" file))
            content
        /\ fileSection Samples.locked "/repo" DEFAULT_CONFIG file
           = contentBlock (outputFormat DEFAULT_CONFIG)
               (path_relative (cwd Samples.locked) (path_join "/repo" file))
               content)
  /\ forall before file after message,
      ["a.txt"; "b.key"; "c.txt"] = (before ++ file :: after)%list ->
      readFileSync Samples.locked (path_join "/repo" file) = Throw message ->
      getFileContent Samples.locked (path_join "/repo" file) DEFAULT_CONFIG
      = errorPlaceholder (path_join "/repo" file) message
      /\ joined (map (fileSection Samples.locked "/repo" DEFAULT_CONFIG)
                   ["a.txt"; "b.key"; "c.txt"])
         = joined (map (fileSection Samples.locked "/repo" DEFAULT_CONFIG) before)
           ++ errorPlaceholder (path_join "/repo" file) message
           ++ joined (map (fileSection Samples.locked "/repo" DEFAULT_CONFIG)
                        after).
Proof.
  do 3 (split; [reflexivity|]).
  apply (read_failure_inline Samples.miniGlob Samples.locked "/repo"
           DEFAULT_CONFIG []);
    reflexivity.
Defined.

(** The document of the example, written out: the blocks of [a.txt] and
    [c.txt] around the placeholder of [b.key]. *)
Example read_failure_inline_sections :
  generateCodeContext Samples.miniGlob Samples.locked "/repo" DEFAULT_CONFIG []
  = Some (Ok ("Full File Tree:" ++ LF ++ LF
              ++ "├── a.txt" ++ LF ++ "├── b.key" ++ LF ++ "└── c.txt" ++ LF
              ++ LF ++ "Included Files:" ++ LF ++ LF
              ++ "├── a.txt" ++ LF ++ "├── b.key" ++ LF ++ "└── c.txt" ++ LF
              ++ LF ++ "Code Context:" ++ LF ++ LF
              ++ "```a.txt" ++ LF ++ "A" ++ LF ++ "```" ++ LF ++ LF
              ++ "Error reading file /repo/b.key: "
              ++ "EACCES: permission denied, open" ++ LF ++ LF
              ++ "```c.txt" ++ LF ++ "C" ++ LF ++ "```" ++ LF ++ LF)).
Proof. reflexivity. Qed.

Example read_failure_inline_document :
  fileBlocks Samples.locked "/repo" DEFAULT_CONFIG ["a.txt"; "b.key"; "c.txt"]
  = "```a.txt" ++ LF ++ "A" ++ LF ++ "```" ++ LF ++ LF
    ++ "Error reading file /repo/b.key: EACCES: permission denied, open"
    ++ LF ++ LF
    ++ "```c.txt" ++ LF ++ "C" ++ LF ++ "```" ++ LF ++ LF.
Proof. reflexivity. Qed.

(** C4, as the code has it.  [writeToFile] catches the error of the
    write: it logs it and returns normally.  A run that reaches the write
    therefore goes on to report success and ends with exit code 0,
    whether the write failed or not. *)
Theorem write_failure_swallowed
  (createRule : string -> option Ignore.Rule)
  (minimatch : string -> string -> bool)
  w config outputFile ig includedFiles inclusionTree codeContext :
  createIgnore createRule w config outputFile = Ok ig ->
  getIncludedFiles minimatch w (cwd w) config ig = Ok includedFiles ->
  Inclusion.formatIncludedFiles includedFiles = Some inclusionTree ->
  generateCodeContext minimatch w (cwd w) config ig = Some (Ok codeContext) ->
  snd (writeToFile w codeContext outputFile) = Ok tt
  /\ (forall e,
        writeFileSync w outputFile codeContext = Throw e ->
        fst (writeToFile w codeContext outputFile)
        = [logError ("Error writing to file " ++ outputFile ++ ":") e])
  /\ exists log,
      run createRule minimatch w config outputFile true = Some (log, 0%Z)
      /\ In generated log
      /\ forall line, In line (fst (writeToFile w codeContext outputFile)) ->
                      In line log.
Proof.
  intros Hig Hsel Hinc Hctx.
  assert (Hreturns : snd (writeToFile w codeContext outputFile) = Ok tt)
    by (unfold writeToFile;
        now destruct (writeFileSync w outputFile codeContext)).
  split; [exact Hreturns|]. split.
  - intros e He. unfold writeToFile. now rewrite He.
  - unfold run, main. rewrite Hig, Hsel, Hinc, Hctx.
    destruct (writeToFile w codeContext outputFile) as [written r].
    simpl in Hreturns. subst r.
    eexists. split; [reflexivity|]. split.
    + rewrite !in_app_iff. right. right. now left.
    + intros line Hline. simpl fst in Hline.
      rewrite !in_app_iff. right. now left.
Qed.

Lemma write_failure_swallowed_witness :
  snd (writeToFile Samples.readOnlyProject Samples.readOnlyContext "out.md") = Ok tt
  /\ (forall e,
        writeFileSync Samples.readOnlyProject "out.md" Samples.readOnlyContext = Throw e ->
        fst (writeToFile Samples.readOnlyProject Samples.readOnlyContext "out.md")
        = [logError ("Error writing to file " ++ "out.md" ++ ":") e])
  /\ exists log,
      run Samples.literalRule Samples.miniGlob Samples.readOnlyProject
        DEFAULT_CONFIG "out.md" true = Some (log, 0%Z)
      /\ In generated log
      /\ forall line,
          In line (fst (writeToFile Samples.readOnlyProject Samples.readOnlyContext "out.md"))
          -> In line log.
Proof.
  apply (write_failure_swallowed Samples.literalRule Samples.miniGlob
           Samples.readOnlyProject DEFAULT_CONFIG "out.md"
           (Ignore.add Samples.literalRule []
              (exclude DEFAULT_CONFIG ++ ["out.md"]))
           ["a.txt"] ("└── a.txt" ++ LF)); reflexivity.
Defined.

(** C4 as stated fails: with an output path that cannot be written,
    [writeToFile] returns normally instead of passing the error on. *)
Lemma write_failure_not_reported :
  ~ Stated.writeFailureReported Samples.readOnlyProject Samples.readOnlyContext "out.md".
Proof.
  intros H.
  specialize (H "EACCES: permission denied, open" eq_refl).
  discriminate.
Qed.

(** The same run seen from outside: an error line, then the success
    message, and exit code 0. *)
Example write_failure_exit_code :
  run Samples.literalRule Samples.miniGlob Samples.readOnlyProject DEFAULT_CONFIG
    "out.md" true
  = Some ([logInfo "Files to be included:";
           logInfo (LF ++ "└── a.txt" ++ LF);
           logInfo "Generating code context...";
           logError "Error writing to file out.md:"
             "EACCES: permission denied, open";
           generated],
          0%Z).
Proof. reflexivity. Qed.

End AssemblyFacts.

(* ================================================================== *)
(** ** File selection *)

Module SelectionFacts.
Import Fs Codewise Stated.

Lemma filterM_ok {A} (keep : A -> result bool) l :
  forall out,
    filterM keep l = Ok out ->
    forall x, In x out -> In x l /\ keep x = Ok true.
Proof.
  induction l as [|a l IH]; intros out Hout x Hx; simpl in Hout.
  - injection Hout as <-. destruct Hx.
  - destruct (keep a) as [k|e] eqn:Ek; [|discriminate]. simpl in Hout.
    destruct (filterM keep l) as [rest|e]; [|discriminate]. simpl in Hout.
    injection Hout as <-.
    destruct k.
    + destruct Hx as [<-|Hx]; [now split; [left|]|].
      destruct (IH rest eq_refl x Hx). split; [now right|assumption].
    + destruct (IH rest eq_refl x Hx). split; [now right|assumption].
Qed.



Section Packages.
Variable createRule : string -> option Ignore.Rule.
Variable minimatch : string -> string -> bool.

Lemma candidates_match w dir config file :
  In file (candidates minimatch w dir config) ->
  matchesAny minimatch (globPattern config) file = true
  /\ matchesAny minimatch (exclude config) file = false.
Proof.
  unfold Stated.candidates, glob. destruct (locate w dir); [|intros []].
  intros Hin. apply filter_In in Hin as [_ Hkeep].
  apply andb_true_iff in Hkeep as [Hinc Hexc].
  split; [assumption|].
  apply negb_true_iff in Hexc. unfold matchesAny in *.
  rewrite existsb_app in Hexc. now apply orb_false_iff in Hexc as [_ ?].
Qed.

(** What the filter keeps: a candidate that the matcher does not flag and
    whose size is within the limit. *)
Lemma selected_kept w dir config ig files file :
  getIncludedFiles minimatch w dir config ig = Ok files ->
  In file files ->
  In file (candidates minimatch w dir config)
  /\ Ignore.ignores ig file = Ok false
  /\ exists stats,
      statSync w (path_join dir file) = Ok stats
      /\ (size stats <= maxFileSize config)%Z.
Proof.
  intros Hsel Hin. unfold getIncludedFiles in Hsel.
  destruct (filterM_ok _ _ _ Hsel file Hin) as [Hcand Hkeep].
  split; [exact Hcand|].
  destruct (statSync w (path_join dir file)) as [stats|e]; [|discriminate].
  destruct (Ignore.ignores ig file) as [ignored|e]; [|discriminate].
  simpl in Hkeep. injection Hkeep as Hkeep.
  apply andb_true_iff in Hkeep as [Hig Hsize].
  apply negb_true_iff in Hig. apply Z.leb_le in Hsize.
  subst ignored. eauto.
Qed.

(** C1.  Every selected path matches an include pattern (["**/*"] when
    there is none) and no exclude pattern, is not flagged by the ignore
    matcher, and has a size within the limit. *)
Theorem included_files_sound w dir config ig files :
  getIncludedFiles minimatch w dir config ig = Ok files ->
  forall file,
    In file files ->
    (exists pattern,
        minimatch pattern file = true
        /\ (In pattern (include config)
            \/ include config = [] /\ pattern = "**/*"))
    /\ (forall pattern,
          In pattern (exclude config) -> minimatch pattern file = false)
    /\ Ignore.ignores ig file = Ok false
    /\ exists stats,
        statSync w (path_join dir file) = Ok stats
        /\ (size stats <= maxFileSize config)%Z.
Proof.
  intros Hsel file Hin.
  destruct (selected_kept _ _ _ _ _ _ Hsel Hin) as (Hcand & Hig & Hstat).
  apply candidates_match in Hcand as [Hinc Hexc].
  split; [|split; [|split; assumption]].
  - unfold matchesAny in Hinc. apply existsb_exists in Hinc as (pat & Hp & Hm).
    exists pat. split; [assumption|].
    unfold globPattern in Hp. destruct (include config) as [|i l].
    + right. destruct Hp as [<-|[]]. auto.
    + now left.
  - intros pat Hp. unfold matchesAny in Hexc.
    destruct (minimatch pat file) eqn:E; [|reflexivity].
    assert (existsb (fun pattern => minimatch pattern file) (exclude config)
            = true) by (apply existsb_exists; eauto).
    congruence.
Qed.


(** *** The ignore matcher *)

Lemma rules_app a b :
  Ignore.rules createRule (a ++ b)
  = (Ignore.rules createRule a ++ Ignore.rules createRule b)%list.
Proof.
  induction a as [|x a IH]; simpl; [reflexivity|].
  destruct (createRule x); simpl; congruence.
Qed.

Lemma testOne_app a b p :
  Ignore.testOne (a ++ b)%list p
  = fold_left (Ignore.decide p) b (Ignore.testOne a p).
Proof. unfold Ignore.testOne. now rewrite fold_left_app. Qed.

(** Once ignored, a path stays ignored through rules none of which is a
    negated rule that matches it. *)
Lemma stays_ignored p later :
  existsb (fun r => Ignore.negative r && Ignore.regex r p) later = false ->
  fold_left (Ignore.decide p) later true = true.
Proof.
  induction later as [|r later IH]; intros Hnone; [reflexivity|].
  simpl in Hnone. apply orb_false_iff in Hnone as [Hr Hlater].
  simpl. unfold Ignore.decide at 2.
  destruct (Ignore.regex r p) eqn:Em.
  - rewrite andb_true_r in Hr. rewrite Hr. now apply IH.
  - now apply IH.
Qed.

Lemma createIgnore_rules w config outputFile ig :
  createIgnore createRule w config outputFile = Ok ig ->
  ig = (Ignore.rules createRule (exclude config)
        ++ Ignore.rules createRule [outputFile]
        ++ (if existsSync w ".gitignore"
            then gitignoreRules createRule w else []))%list.
Proof.
  unfold createIgnore, gitignoreRules, Ignore.addText, Ignore.add.
  rewrite rules_app. simpl app at 1.
  destruct (existsSync w ".gitignore").
  - destruct (readFileSync w ".gitignore"); [|discriminate].
    simpl. intros H. injection H as <-. now rewrite app_assoc.
  - intros H. injection H as <-. now rewrite app_nil_r.
Qed.

(** The rule compiled from the output path is always among the rules
    of the matcher. *)
Lemma output_rule_added w config outputFile ig rule :
  createIgnore createRule w config outputFile = Ok ig ->
  createRule outputFile = Some rule ->
  In rule ig.
Proof.
  intros Hig Hrule. apply createIgnore_rules in Hig.
  subst ig. rewrite !in_app_iff. right. left.
  simpl. rewrite Hrule. now left.
Qed.

Lemma ignores_flags ig p : Ignore.checkPath p = Ok tt -> Ignore.ignores ig p = Ok (Ignore.flags ig p).
Proof. unfold Ignore.ignores. now intros ->. Qed.

(** A verdict of the matcher is the verdict of its rules. *)
Lemma ignores_verdict ig p flagged :
  Ignore.ignores ig p = Ok flagged -> Ignore.flags ig p = flagged.
Proof.
  unfold Ignore.ignores. destruct (Ignore.checkPath p); [|discriminate].
  simpl. now intros H; injection H.
Qed.

(** C2, as the code has it.  The output path is handed to the matcher as
    a pattern, after the exclude patterns and before the rules of the
    [.gitignore]; the rule it compiles to, if any, is a rule of the
    matcher.  When the output file is listed under the path given (which
    ties that path to the file), the pattern compiles to a plain rule
    that matches the path, and no negated rule of the [.gitignore] matches
    it, the rules of the matcher flag the path and no selection contains
    the file. *)
Theorem output_rule_excludes w config outputFile ig :
  createIgnore createRule w config outputFile = Ok ig ->
  ig = (Ignore.rules createRule (exclude config)
        ++ Ignore.rules createRule [outputFile]
        ++ (if existsSync w ".gitignore"
            then gitignoreRules createRule w else []))%list
  /\ (forall rule, createRule outputFile = Some rule -> In rule ig)
  /\ forall rule dir,
      createRule outputFile = Some rule ->
      Ignore.negative rule = false ->
      Ignore.regex rule outputFile = true ->
      reIncluded createRule w outputFile = false ->
      listed w dir outputFile ->
      Ignore.flags ig outputFile = true
      /\ (Ignore.checkPath outputFile = Ok tt ->
          Ignore.ignores ig outputFile = Ok true)
      /\ forall files,
          getIncludedFiles minimatch w dir config ig = Ok files ->
          ~ In outputFile files.
Proof.
  intros Hig. pose proof (createIgnore_rules _ _ _ _ Hig) as Hrules.
  split; [exact Hrules|].
  split; [intros rule; now apply output_rule_added with (1 := Hig)|].
  intros rule dir Hrule Hpos Hmatch Hre Hlisted.
  assert (Hown : Ignore.rules createRule [outputFile] = [rule])
    by (simpl; now rewrite Hrule).
  rewrite Hown in Hrules.
  assert (Hflag : Ignore.flags ig outputFile = true).
  { unfold Ignore.flags. apply orb_true_iff. right.
    subst ig. rewrite testOne_app.
    change ([rule] ++ ?l)%list with (rule :: l).
    cbn [fold_left]. unfold Ignore.decide at 2.
    rewrite Hmatch, Hpos. cbn [negb].
    apply stays_ignored.
    destruct (existsSync w ".gitignore"); [exact Hre|reflexivity]. }
  split; [exact Hflag|]. split.
  - intros Hvalid. now rewrite (ignores_flags _ _ Hvalid), Hflag.
  - intros files Hsel Hin.
    destruct (selected_kept _ _ _ _ _ _ Hsel Hin) as (_ & Hnot & _).
    apply ignores_verdict in Hnot. congruence.
Qed.

End Packages.

(** The scenario of the specification: only the small file is selected. *)
Example scenario_size_limit :
  getIncludedFiles Samples.miniGlob Samples.project "/repo" DEFAULT_CONFIG []
  = Ok ["a.txt"].
Proof. reflexivity. Qed.

Lemma included_files_sound_witness :
  getIncludedFiles Samples.miniGlob Samples.project "/repo" DEFAULT_CONFIG
    (Ignore.add Samples.literalRule [] ["out.md"]) = Ok ["a.txt"]
  /\ In "a.txt" ["a.txt"]
  /\ (exists pattern,
         Samples.miniGlob pattern "a.txt" = true
         /\ (In pattern (include DEFAULT_CONFIG)
             \/ include DEFAULT_CONFIG = [] /\ pattern = "**/*"))
  /\ (forall pattern,
         In pattern (exclude DEFAULT_CONFIG) ->
         Samples.miniGlob pattern "a.txt" = false)
  /\ Ignore.ignores (Ignore.add Samples.literalRule [] ["out.md"]) "a.txt"
     = Ok false
  /\ exists stats,
      statSync Samples.project (path_join "/repo" "a.txt") = Ok stats
      /\ (size stats <= maxFileSize DEFAULT_CONFIG)%Z.
Proof.
  split; [reflexivity|]. split; [now left|].
  apply (included_files_sound Samples.miniGlob Samples.project "/repo"
           DEFAULT_CONFIG (Ignore.add Samples.literalRule [] ["out.md"])
           ["a.txt"] eq_refl "a.txt").
  now left.
Defined.



Example vanished_candidate_exit_code :
  run Samples.literalRule Samples.miniGlob Samples.vanishing DEFAULT_CONFIG
    "out.md" true
  = Some ([logError "An error occurred:"
             "ENOENT: no such file or directory, stat '/repo/gone'"], 1%Z).
Proof. reflexivity. Qed.

Lemma output_rule_excludes_witness :
  createIgnore Samples.literalRule Samples.rerun DEFAULT_CONFIG "out.md"
  = Ok Samples.rerunMatcher
  /\ Samples.literalRule "out.md" = Some Samples.outputRule
  /\ Ignore.negative Samples.outputRule = false
  /\ Ignore.regex Samples.outputRule "out.md" = true
  /\ reIncluded Samples.literalRule Samples.rerun "out.md" = false
  /\ listed Samples.rerun "/repo" "out.md"
  /\ Ignore.checkPath "out.md" = Ok tt
  /\ In Samples.outputRule Samples.rerunMatcher
  /\ Ignore.flags Samples.rerunMatcher "out.md" = true
  /\ Ignore.ignores Samples.rerunMatcher "out.md" = Ok true
  /\ forall files,
      getIncludedFiles Samples.miniGlob Samples.rerun "/repo" DEFAULT_CONFIG
        Samples.rerunMatcher = Ok files ->
      ~ In "out.md" files.
Proof.
  assert (Hlisted : listed Samples.rerun "/repo" "out.md").
  { exists (root Samples.rerun). split; [reflexivity|]. simpl. tauto. }
  do 5 (split; [reflexivity|]). split; [exact Hlisted|].
  split; [reflexivity|].
  destruct (output_rule_excludes Samples.literalRule Samples.miniGlob
              Samples.rerun DEFAULT_CONFIG "out.md" Samples.rerunMatcher
              eq_refl) as (_ & Hin & H).
  destruct (H Samples.outputRule "/repo" eq_refl eq_refl eq_refl eq_refl
              Hlisted) as (Hflag & Hig & Hsel).
  split; [exact (Hin Samples.outputRule eq_refl)|]. split; [exact Hflag|].
  split; [exact (Hig eq_refl)|exact Hsel].
Defined.

Example output_rule_excludes_selection :
  getIncludedFiles Samples.miniGlob Samples.rerun "/repo" DEFAULT_CONFIG
    Samples.rerunMatcher
  = Ok [".gitignore"; "a.txt"].
Proof. reflexivity. Qed.

(** C2 as stated fails: a [.gitignore] that re-includes the output file
    comes after the rule of the output path and wins, and the output of an
    earlier run is selected. *)
Lemma output_reincluded_by_gitignore :
  ~ Stated.selfExcluded Samples.literalRule Samples.miniGlob
      Samples.reincluding DEFAULT_CONFIG "out.md".
Proof.
  intros H.
  apply (H (Ignore.addText Samples.literalRule
              (Ignore.add Samples.literalRule []
                 (exclude DEFAULT_CONFIG ++ ["out.md"]))
              "!out.md")
           [".gitignore"; "out.md"]).
  - reflexivity.
  - reflexivity.
  - right. now left.
Qed.

End SelectionFacts.

(* ================================================================== *)
(** ** The full tree *)

Module TreeFacts.
Import Fs Draw Codewise Stated.

(** The loop, one entry at a time: what remains to be visited is rendered
    as the directory of the remaining entries is. *)
Lemma generateFullFileTree_cons w ig file node rest dir prefix :
  generateFullFileTree w ig (Dir ((file, node) :: rest)) dir prefix
  = let* below :=
      belowEntry w ig dir prefix (isNil rest) file node in
    let* more := generateFullFileTree w ig (Dir rest) dir prefix in
    Ok (entryLine prefix (isNil rest) file ++ below ++ more).
Proof.
  unfold belowEntry. cbn [generateFullFileTree].
  now destruct (Ignore.ignores ig (path_relative (cwd w) (path_join dir file))).
Qed.

Lemma isNil_app {A} (a b : list A) :
  isNil b = false -> isNil (a ++ b) = false.
Proof. now destruct a. Qed.

(** Entries visited before do not see what comes after, beyond the fact
    that something does. *)
Lemma generateFullFileTree_before w ig dir prefix before :
  forall tail tail',
    isNil tail = false -> isNil tail' = false ->
    generateFullFileTree w ig (Dir tail) dir prefix
    = generateFullFileTree w ig (Dir tail') dir prefix ->
    generateFullFileTree w ig (Dir (before ++ tail)) dir prefix
    = generateFullFileTree w ig (Dir (before ++ tail')) dir prefix.
Proof.
  induction before as [|[file node] before IH];
    intros tail tail' Ht Ht' Heq; [exact Heq|].
  change (((file, node) :: before) ++ tail)%list
    with ((file, node) :: (before ++ tail))%list.
  change (((file, node) :: before) ++ tail')%list
    with ((file, node) :: (before ++ tail'))%list.
  rewrite !generateFullFileTree_cons.
  rewrite (isNil_app before tail Ht), (isNil_app before tail' Ht').
  now rewrite (IH tail tail' Ht Ht' Heq).
Qed.

(** What the code does with one entry, when the matcher accepts its
    path.  A directory named [node_modules] or [.git] contributes its line
    and one placeholder line, whatever it contains and whatever the
    matcher says; another directory about which the matcher, asked
    without a final slash, says yes contributes its line only, whatever
    it contains; an entry that is not a directory contributes its line
    only.  In each case the rest of the listing follows unchanged. *)
Lemma full_tree_entries w ig dir prefix file rest flagged :
  Ignore.ignores ig (path_relative (cwd w) (path_join dir file)) = Ok flagged ->
  (file = "node_modules" \/ file = ".git" ->
   forall children,
     generateFullFileTree w ig (Dir ((file, Dir children) :: rest)) dir prefix
     = onText (fun more => entryLine prefix (isNil rest) file
                           ++ placeholder prefix (isNil rest) ++ more)
         (generateFullFileTree w ig (Dir rest) dir prefix))
  /\ (file <> "node_modules" -> file <> ".git" -> flagged = true ->
      forall children,
        generateFullFileTree w ig (Dir ((file, Dir children) :: rest))
          dir prefix
        = onText (fun more => entryLine prefix (isNil rest) file ++ more)
            (generateFullFileTree w ig (Dir rest) dir prefix))
  /\ (forall size data,
        generateFullFileTree w ig (Dir ((file, File size data) :: rest))
          dir prefix
        = onText (fun more => entryLine prefix (isNil rest) file ++ more)
            (generateFullFileTree w ig (Dir rest) dir prefix))
  /\ (file = "node_modules" \/ file = ".git" \/ flagged = true ->
      forall before children children',
        generateFullFileTree w ig
          (Dir (before ++ (file, Dir children) :: rest)) dir prefix
        = generateFullFileTree w ig
            (Dir (before ++ (file, Dir children') :: rest)) dir prefix).
Proof.
  intros Hverdict.
  assert (Hcollapsed :
            file = "node_modules" \/ file = ".git" ->
            forall children,
              generateFullFileTree w ig (Dir ((file, Dir children) :: rest))
                dir prefix
              = onText (fun more => entryLine prefix (isNil rest) file
                                    ++ placeholder prefix (isNil rest) ++ more)
                  (generateFullFileTree w ig (Dir rest) dir prefix)).
  { intros Hname children. rewrite generateFullFileTree_cons.
    unfold belowEntry. rewrite Hverdict.
    assert (Hc : collapsed file = true) by (now destruct Hname as [->| ->]).
    cbn [bind]. rewrite Hc. cbn [bind].
    now destruct (generateFullFileTree w ig (Dir rest) dir prefix). }
  assert (Hignored :
            file <> "node_modules" -> file <> ".git" -> flagged = true ->
            forall children,
              generateFullFileTree w ig (Dir ((file, Dir children) :: rest))
                dir prefix
              = onText (fun more => entryLine prefix (isNil rest) file ++ more)
                  (generateFullFileTree w ig (Dir rest) dir prefix)).
  { intros Hn Hg -> children. rewrite generateFullFileTree_cons.
    unfold belowEntry. rewrite Hverdict.
    assert (Hc : collapsed file = false).
    { unfold collapsed. apply orb_false_iff.
      split; now apply String.eqb_neq. }
    cbn [bind]. rewrite Hc. cbn [negb bind].
    now destruct (generateFullFileTree w ig (Dir rest) dir prefix). }
  split; [exact Hcollapsed|]. split; [exact Hignored|]. split.
  - intros size data. rewrite generateFullFileTree_cons.
    unfold belowEntry. rewrite Hverdict. cbn [bind].
    now destruct (generateFullFileTree w ig (Dir rest) dir prefix).
  - intros Hskip before children children'.
    apply generateFullFileTree_before; try reflexivity.
    destruct (string_dec file "node_modules") as [Hn|Hn];
      [now rewrite !Hcollapsed; auto|].
    destruct (string_dec file ".git") as [Hg|Hg];
      [now rewrite !Hcollapsed; auto|].
    destruct Hskip as [Hskip|[Hskip|Hskip]]; try contradiction.
    now rewrite !Hignored.
Qed.

Lemma full_tree_entries_witness :
  Ignore.ignores Samples.rerunMatcher
    (path_relative (cwd Samples.checkout) (path_join "/repo" ".git"))
  = Ok false
  /\ Ignore.ignores Samples.rerunMatcher
       (path_relative (cwd Samples.checkout) (path_join "/repo" "dist"))
     = Ok true
  /\ generateFullFileTree Samples.checkout Samples.rerunMatcher
       (Dir [(".git", Dir [("HEAD", Samples.text "ref")]);
             ("a.txt", Samples.text "A")])
       "/repo" ""
     = Ok ("├── .git" ++ LF ++ "│   └── ..." ++ LF ++ "└── a.txt" ++ LF)
  /\ generateFullFileTree Samples.checkout Samples.rerunMatcher
       (Dir [("dist", Dir [("bundle.js", Samples.text "B")]);
             ("a.txt", Samples.text "A")])
       "/repo" ""
     = Ok ("├── dist" ++ LF ++ "└── a.txt" ++ LF).
Proof.
  do 2 (split; [reflexivity|]).
  destruct (full_tree_entries Samples.checkout Samples.rerunMatcher
              "/repo" "" ".git" [("a.txt", Samples.text "A")] false eq_refl)
    as (Hcollapsed & _).
  destruct (full_tree_entries Samples.checkout Samples.rerunMatcher
              "/repo" "" "dist" [("a.txt", Samples.text "A")] true eq_refl)
    as (_ & Hignored & _).
  split.
  - exact (Hcollapsed (or_intror eq_refl) [("HEAD", Samples.text "ref")]).
  - refine (Hignored _ _ eq_refl [("bundle.js", Samples.text "B")]);
      discriminate.
Defined.

(** C7 at a checkout whose [.gitignore] holds [build/].  The matcher flags
    the directory [build], asked about as a directory, and every file
    below it, and the selection leaves those files out; the full tree
    asks about [build] without the final slash, is told no, and lists
    what is below it.  The directories [.git] and [node_modules] are
    collapsed as claimed. *)
Theorem directory_only_rule_expanded :
  createIgnore Samples.literalRule Samples.building DEFAULT_CONFIG "out.md"
  = Ok Samples.buildingMatcher
  /\ Ignore.ignores Samples.buildingMatcher "build/" = Ok true
  /\ Ignore.ignores Samples.buildingMatcher "build/out.js" = Ok true
  /\ Ignore.ignores Samples.buildingMatcher "build" = Ok false
  /\ getIncludedFiles Samples.miniGlob Samples.building "/repo" DEFAULT_CONFIG
       Samples.buildingMatcher
     = Ok [".gitignore"; "src/main.ts"]
  /\ fullFileTree Samples.building "/repo" Samples.buildingMatcher
     = Ok ("├── .git" ++ LF ++ "│   └── ..." ++ LF
           ++ "├── .gitignore" ++ LF
           ++ "├── build" ++ LF ++ "│   └── out.js" ++ LF
           ++ "├── node_modules" ++ LF ++ "│   └── ..." ++ LF
           ++ "└── src" ++ LF ++ "    └── main.ts" ++ LF)
  /\ ~ flaggedDirectoryClosed Samples.building Samples.buildingMatcher
         "build" "out.js".
Proof.
  do 6 (split; [reflexivity|]).
  intros H. destruct (H eq_refl _ eq_refl) as [_ Hchild].
  discriminate Hchild.
Qed.

(** With the pattern [build], without the final slash, the same directory
    is a line without children. *)
Example plain_rule_closes_directory :
  fullFileTree Samples.building "/repo"
    (Ignore.add Samples.literalRule [] ["build"])
  = Ok ("├── .git" ++ LF ++ "│   └── ..." ++ LF
        ++ "├── .gitignore" ++ LF
        ++ "├── build" ++ LF
        ++ "├── node_modules" ++ LF ++ "│   └── ..." ++ LF
        ++ "└── src" ++ LF ++ "    └── main.ts" ++ LF).
Proof. reflexivity. Qed.

(** The scenario of the specification: the dependency directory is one
    collapsed entry, and a file over the size limit is still listed. *)
Example scenario_full_tree :
  fullFileTree Samples.project "/repo" []
  = Ok ("├── a.txt" ++ LF ++ "├── b.txt" ++ LF
        ++ "└── node_modules" ++ LF ++ "    └── ..." ++ LF).
Proof. reflexivity. Qed.

(** An ignored directory is a line without children, an ignored file is a
    line like any other, and an unflagged directory is expanded. *)
Example ignored_entries_listed :
  fullFileTree Samples.checkout "/repo" Samples.rerunMatcher
  = Ok ("├── .git" ++ LF ++ "│   └── ..." ++ LF
        ++ "├── dist" ++ LF
        ++ "├── out.md" ++ LF
        ++ "└── src" ++ LF ++ "    └── main.ts" ++ LF).
Proof. reflexivity. Qed.

End TreeFacts.

(* ================================================================== *)
(** ** More on the inclusion tree *)

Module InclusionMore.
Import Draw Inclusion InclusionFacts More.

Lemma below_prefix z : forall p rest, below z p = Some rest -> p = (z ++ rest)%list.
Proof.
  induction z as [|a z IH]; intros p rest H; simpl in H.
  - now injection H as <-.
  - destruct p as [|b p]; [discriminate|].
    destruct (String.eqb a b) eqn:E; [|discriminate].
    apply String.eqb_eq in E. subst b. simpl. f_equal. now apply IH.
Qed.

Lemma prefix_below z rest : below z (z ++ rest) = Some rest.
Proof.
  induction z as [|a z IH]; [reflexivity|].
  simpl. now rewrite String.eqb_refl.
Qed.

(** What can be reached after a walk could be reached before it, or lies
    on the path walked and has no inherited name. *)
Lemma descend_insertParts_origin dir :
  forall parts cur cur',
    insertParts parts cur = Some cur' ->
    descend (JObj cur') dir <> None ->
    descend (JObj cur) dir <> None
    \/ (prefixOf dir parts /\ plainNames dir = true).
Proof.
  induction dir as [|d dir IH]; intros parts cur cur' Hins Hd.
  - left. discriminate.
  - destruct parts as [|part rest].
    { simpl in Hins. injection Hins as <-. now left. }
    destruct (string_dec part d) as [->|Hne].
    2:{ left. simpl in *.
        now rewrite <- (own_insertParts_other _ _ _ _ _ Hins Hne). }
    simpl in Hd. destruct rest as [|r rest'].
    + destruct (insertParts_last _ _ _ Hins) as (_ & Hsame & Hlast).
      destruct (inherited d) eqn:Hinh.
      * left. rewrite (Hsame eq_refl) in Hd. exact Hd.
      * destruct (Hlast eq_refl) as [Hown _]. rewrite Hown in Hd.
        unfold settled in Hd.
        destruct (own cur d) as [[|c]|] eqn:Ho.
        -- destruct dir; [|now simpl in Hd].
           left. simpl. rewrite Ho. discriminate.
        -- left. simpl. now rewrite Ho.
        -- destruct dir; [|now simpl in Hd].
           right. split; [exists []; reflexivity|].
           unfold plainNames. simpl. now rewrite Hinh.
    + destruct (insertParts_inner _ _ _ _ _ Hins)
        as (Hinh & c' & Hwalk & Hown & _).
      rewrite Hown in Hd.
      destruct (IH _ _ _ Hwalk Hd) as [Hold|[(more & Hpre) Hplain]].
      * unfold entered in Hold.
        destruct (own cur d) as [[|c]|] eqn:Ho.
        -- destruct dir; [|now simpl in Hold].
           left. simpl. rewrite Ho. discriminate.
        -- left. simpl. now rewrite Ho.
        -- destruct dir; [|now simpl in Hold].
           right. split; [exists (r :: rest'); reflexivity|].
           unfold plainNames. simpl. now rewrite Hinh.
      * right. split.
        -- exists more. simpl. now rewrite Hpre.
        -- unfold plainNames in *. simpl. now rewrite Hinh.
Qed.

Lemma descend_insertFiles_origin files :
  forall cur fileTree dir,
    insertFiles files cur = Some fileTree ->
    descend (JObj fileTree) dir <> None ->
    descend (JObj cur) dir <> None
    \/ (plainNames dir = true
        /\ exists f, In f files /\ prefixOf dir (Str.split sep f)).
Proof.
  induction files as [|f files IH]; intros cur fileTree dir Hins Hd.
  - simpl in Hins. injection Hins as <-. now left.
  - simpl in Hins.
    destruct (insertParts (Str.split sep f) cur) as [cur1|] eqn:E1;
      [|discriminate].
    destruct (IH _ _ _ Hins Hd) as [H1|(Hplain & g & Hg & Hpre)].
    + destruct (descend_insertParts_origin _ _ _ _ E1 H1) as [H0|[Hpre Hplain]].
      * now left.
      * right. split; [exact Hplain|]. exists f. split; [now left|exact Hpre].
    + right. split; [exact Hplain|]. exists g. split; [now right|exact Hpre].
Qed.

(** *** Properties of the keys kept at every level *)

(** The keys after a step: unchanged, or one new key assigned. *)
Lemma insertParts_keys part rest cur cur' :
  insertParts (part :: rest) cur = Some cur' ->
  map fst cur' = map fst cur
  \/ (own cur part = None /\ exists v, cur' = assign cur part v).
Proof.
  destruct rest as [|r rest'].
  - simpl. unfold get. destruct (inherited part).
    + intros H. injection H as <-. now left.
    + destruct (own cur part) as [[|c]|] eqn:Ho; simpl;
        intros H; injection H as <-.
      * left. unfold assign. rewrite Ho. apply keys_replace.
      * now left.
      * right. eauto.
  - rewrite insertParts_inner_eq. unfold get.
    destruct (inherited part); [discriminate|].
    destruct (own cur part) as [[|c]|] eqn:Ho; cbv beta iota;
      match goal with
      | |- option_map _ ?walk = _ -> _ =>
          destruct walk as [c'|]; [|discriminate]
      end;
      simpl; intros H; injection H as <-.
    + left. unfold assign. rewrite Ho. apply keys_replace.
    + left. apply keys_replace.
    + right. eauto.
Qed.

Section Levels.

Variable Q : list string -> Prop.
Hypothesis Q_fresh : Q [].
Hypothesis Q_assign :
  forall props key v,
    Q (map fst props) -> own props key = None ->
    Q (map fst (assign props key v)).

Lemma atEveryLevel_insertParts parts :
  forall cur cur',
    atEveryLevel Q (JObj cur) ->
    insertParts parts cur = Some cur' ->
    atEveryLevel Q (JObj cur').
Proof.
  induction parts as [|part rest IH]; intros cur cur' Hcur Hins.
  { simpl in Hins. now injection Hins as <-. }
  intros dir props Hd. destruct dir as [|d dir].
  - simpl in Hd. injection Hd as <-.
    destruct (insertParts_keys _ _ _ _ Hins) as [->|(Hnone & v & ->)].
    + now apply (Hcur []).
    + apply Q_assign; [now apply (Hcur [])|exact Hnone].
  - destruct (string_dec part d) as [->|Hne].
    2:{ apply (Hcur (d :: dir)). simpl in *.
        now rewrite <- (own_insertParts_other _ _ _ _ _ Hins Hne). }
    simpl in Hd. destruct rest as [|r rest'].
    + destruct (insertParts_last _ _ _ Hins) as (_ & Hsame & Hlast).
      destruct (inherited d).
      * rewrite (Hsame eq_refl) in Hd. now apply (Hcur (d :: dir)).
      * destruct (Hlast eq_refl) as [Hown _]. rewrite Hown in Hd.
        unfold settled in Hd.
        destruct (own cur d) as [[|c]|] eqn:Ho;
          try (destruct dir; discriminate).
        apply (Hcur (d :: dir)). simpl. now rewrite Ho.
    + destruct (insertParts_inner _ _ _ _ _ Hins)
        as (_ & c' & Hwalk & Hown & _).
      rewrite Hown in Hd.
      apply (IH (entered cur d) c') with (dir := dir); try assumption.
      intros dir0 ps0 Hd0. unfold entered in Hd0.
      destruct (own cur d) as [[|c]|] eqn:Ho.
      * destruct dir0; [|discriminate]. simpl in Hd0.
        injection Hd0 as <-. exact Q_fresh.
      * apply (Hcur (d :: dir0)). simpl. now rewrite Ho.
      * destruct dir0; [|discriminate]. simpl in Hd0.
        injection Hd0 as <-. exact Q_fresh.
Qed.

Lemma atEveryLevel_insertFiles files :
  forall cur fileTree,
    atEveryLevel Q (JObj cur) ->
    insertFiles files cur = Some fileTree ->
    atEveryLevel Q (JObj fileTree).
Proof.
  induction files as [|f files IH]; intros cur fileTree Hcur Hins.
  - simpl in Hins. now injection Hins as <-.
  - simpl in Hins.
    destruct (insertParts (Str.split sep f) cur) as [cur1|] eqn:E1;
      [|discriminate].
    apply (IH cur1); [|exact Hins].
    now apply atEveryLevel_insertParts with (2 := E1).
Qed.

Lemma atEveryLevel_buildTree files fileTree :
  buildTree files = Some fileTree -> atEveryLevel Q (JObj fileTree).
Proof.
  apply atEveryLevel_insertFiles.
  intros [|d dir] props Hd; [|discriminate].
  simpl in Hd. injection Hd as <-. exact Q_fresh.
Qed.

End Levels.

Lemma own_none_keys props key : own props key = None -> ~ In key (map fst props).
Proof.
  intros Hnone Hin.
  assert (existsb (String.eqb key) (map fst props) = true)
    by (apply existsb_exists; exists key; split;
        [assumption|apply String.eqb_refl]).
  rewrite own_keys, Hnone in H. discriminate.
Qed.

Lemma keys_defineIndexed n key v props x :
  In x (map fst (defineIndexed n key v props))
  <-> x = key \/ In x (map fst props).
Proof.
  induction props as [|[k w] rest IH]; simpl; [intuition|].
  destruct (arrayIndex k) as [m|]; [destruct (m <? n)%N|]; simpl;
    intuition.
Qed.

Lemma NoDup_defineIndexed n key v props :
  NoDup (map fst props) -> ~ In key (map fst props) ->
  NoDup (map fst (defineIndexed n key v props)).
Proof.
  induction props as [|[k w] rest IH]; simpl; intros Hnd Hnot.
  - constructor; [intros []|constructor].
  - inversion Hnd as [|? ? Hk Hrest]; subst.
    destruct (arrayIndex k) as [m|]; [destruct (m <? n)%N|]; simpl.
    + constructor.
      * rewrite keys_defineIndexed. intros [->|Hin]; tauto.
      * apply IH; tauto.
    + constructor; [simpl; tauto|now constructor].
    + constructor; [simpl; tauto|now constructor].
Qed.

Lemma NoDup_assign props key v :
  NoDup (map fst props) -> own props key = None ->
  NoDup (map fst (assign props key v)).
Proof.
  intros Hnd Hnone. pose proof (own_none_keys _ _ Hnone) as Hnot.
  unfold assign. rewrite Hnone. destruct (arrayIndex key).
  - now apply NoDup_defineIndexed.
  - rewrite map_app. simpl. apply NoDup_app; try assumption.
    + constructor; [intros []|constructor].
    + intros x Hx [<-|[]]. contradiction.
Qed.

(** No directory of the tree has the same key twice. *)
Lemma unique_keys files fileTree :
  buildTree files = Some fileTree -> atEveryLevel (@NoDup string) (JObj fileTree).
Proof.
  apply atEveryLevel_buildTree; [constructor|apply NoDup_assign].
Qed.

(** *** Rows and the nodes they stand for *)

Lemma own_in props key child : own props key = Some child -> In (key, child) props.
Proof.
  induction props as [|[k v] rest IH]; simpl; [discriminate|].
  destruct (String.eqb k key) eqn:E.
  - apply String.eqb_eq in E. intros H. injection H as <-. subst k. now left.
  - intros H. right. now apply IH.
Qed.

Lemma own_tail k v rest key :
  ~ In k (map fst rest) -> own rest key <> None ->
  own ((k, v) :: rest) key = own rest key.
Proof.
  intros Hnot Hown. simpl. destruct (String.eqb k key) eqn:E; [|reflexivity].
  apply String.eqb_eq in E. subst k.
  exfalso. apply Hnot. now apply own_keys_in.
Qed.

(** A row of a directory is the row of one of its keys, or lies in the
    block of that key. *)
Lemma row_entry props :
  forall base z,
    NoDup (map fst props) ->
    In z (paths (JObj props) base) ->
    exists key child,
      own props key = Some child
      /\ (z = (base ++ [key])%list \/ In z (paths child (base ++ [key]))).
Proof.
  induction props as [|[k v] rest IH]; intros base z Hnd Hz; [destruct Hz|].
  simpl in Hnd. inversion Hnd as [|? ? Hk Hrest]; subst.
  rewrite paths_cons in Hz. destruct Hz as [<-|Hz].
  - exists k, v. simpl. rewrite String.eqb_refl. auto.
  - apply in_app_or in Hz as [Hz|Hz].
    + exists k, v. simpl. rewrite String.eqb_refl. auto.
    + destruct (IH base z Hrest Hz) as (key & child & Hown & Hrow).
      exists key, child. split; [|exact Hrow].
      rewrite own_tail; [exact Hown|exact Hk|congruence].
Qed.

Lemma atEveryLevel_child (Q : list string -> Prop) props key child :
  atEveryLevel Q (JObj props) -> own props key = Some child ->
  atEveryLevel Q child.
Proof.
  intros Hall Hown dir ps Hd. apply (Hall (key :: dir)). simpl.
  now rewrite Hown.
Qed.

(** Every row stands for a node that can be reached. *)
Lemma row_reachable node :
  forall base z,
    atEveryLevel (@NoDup string) node ->
    In z (paths node base) ->
    exists dir, dir <> [] /\ z = (base ++ dir)%list /\ descend node dir <> None.
Proof.
  induction node as [|props IH] using TreeNode_induction;
    intros base z Hall Hz; [destruct Hz|].
  destruct (row_entry props base z (Hall [] props eq_refl) Hz)
    as (key & child & Hown & [->|Hin]).
  - exists [key]. split; [discriminate|]. split; [reflexivity|].
    simpl. rewrite Hown. discriminate.
  - rewrite Forall_forall in IH.
    destruct (IH (key, child) (own_in _ _ _ Hown) (base ++ [key])%list z
                (atEveryLevel_child _ _ _ _ Hall Hown) Hin)
      as (dir & Hne & -> & Hd).
    exists (key :: dir). split; [discriminate|]. split.
    + now rewrite <- app_assoc.
    + simpl. now rewrite Hown.
Qed.

(** After a walk, every part of the walked path that has no inherited
    name can be reached. *)
Lemma descend_insertParts_plain z :
  forall parts cur cur',
    insertParts parts cur = Some cur' ->
    prefixOf z parts -> plainNames z = true ->
    descend (JObj cur') z <> None.
Proof.
  induction z as [|d z IH]; intros parts cur cur' Hins [more Hpre] Hplain;
    [discriminate|].
  unfold plainNames in Hplain. simpl in Hplain.
  apply andb_true_iff in Hplain as [Hd Hplain].
  apply negb_true_iff in Hd.
  destruct parts as [|part rest]; [discriminate|].
  simpl in Hpre. injection Hpre as -> Hrest.
  destruct rest as [|r rest'].
  - destruct z; [|discriminate].
    destruct (insertParts_last _ _ _ Hins) as (_ & _ & Hlast).
    destruct (Hlast Hd) as [Hown _]. simpl. rewrite Hown. discriminate.
  - destruct (insertParts_inner _ _ _ _ _ Hins)
      as (_ & c' & Hwalk & Hown & _).
    simpl. rewrite Hown. destruct z as [|d2 z']; [discriminate|].
    apply (IH _ _ _ Hwalk); [now exists more|exact Hplain].
Qed.

Lemma insertFiles_reach_plain files :
  forall cur fileTree,
    insertFiles files cur = Some fileTree ->
    (forall dir, descend (JObj cur) dir <> None ->
                 descend (JObj fileTree) dir <> None)
    /\ forall f z,
        In f files -> prefixOf z (Str.split sep f) -> plainNames z = true ->
        descend (JObj fileTree) z <> None.
Proof.
  induction files as [|f files IH]; intros cur fileTree Hins.
  - simpl in Hins. injection Hins as <-. split; [auto|intros ? ? []].
  - simpl in Hins.
    destruct (insertParts (Str.split sep f) cur) as [cur1|] eqn:E1;
      [|discriminate].
    destruct (IH _ _ Hins) as [Hkeep Hall]. split.
    + intros dir Hd. apply Hkeep.
      now apply (descend_insertParts_keeps dir _ _ _ Hd E1).
    + intros g z [<-|Hg] Hpre Hplain.
      * apply Hkeep. now apply (descend_insertParts_plain z _ _ _ E1).
      * now apply (Hall g).
Qed.

(** X1.  The lines of the inclusion tree are exactly the non-empty initial parts
    of the selected paths that contain no name inherited from
    [Object.prototype]: nothing else is listed, and each of them is. *)
Theorem rows_are_selected_prefixes files fileTree z :
  buildTree files = Some fileTree ->
  In z (renderedPaths fileTree)
  <-> z <> []
      /\ plainNames z = true
      /\ exists f, In f files /\ prefixOf z (Str.split sep f).
Proof.
  intros Hbuild. unfold renderedPaths. rewrite rows_paths. split.
  - intros Hz.
    destruct (row_reachable (JObj fileTree) [] z
                (unique_keys _ _ Hbuild) Hz) as (dir & Hne & -> & Hd).
    simpl. split; [exact Hne|].
    destruct (descend_insertFiles_origin _ _ _ _ Hbuild Hd) as [Hold|Hnew];
      [|exact Hnew].
    destruct dir; [congruence|]. now simpl in Hold.
  - intros (Hne & Hplain & f & Hf & Hpre).
    destruct (insertFiles_reach_plain _ _ _ Hbuild) as [_ Hall].
    specialize (Hall f z Hf Hpre Hplain).
    destruct (descend (JObj fileTree) z) as [n|] eqn:Hd; [|congruence].
    apply (reachable_row z (JObj fileTree) [] n Hne Hd).
Qed.

Lemma rows_are_selected_prefixes_witness :
  buildTree ["src/a.ts"; "toString"]
  = Some [("src", JObj [("a.ts", JNull)])]
  /\ (In ["src"] (renderedPaths [("src", JObj [("a.ts", JNull)])])
      <-> ["src"] <> []
          /\ plainNames ["src"] = true
          /\ exists f,
              In f ["src/a.ts"; "toString"]
              /\ prefixOf ["src"] (Str.split sep f)).
Proof.
  split; [reflexivity|].
  apply (rows_are_selected_prefixes ["src/a.ts"; "toString"]). reflexivity.
Defined.

(** *** No path is listed twice *)

Lemma longer_than_base (base : list string) key more :
  (base ++ key :: more)%list <> base.
Proof.
  intros H. apply (f_equal (@length string)) in H.
  rewrite length_app in H. simpl in H. lia.
Qed.

Lemma atEveryLevel_tail k v rest :
  atEveryLevel (@NoDup string) (JObj ((k, v) :: rest)) ->
  atEveryLevel (@NoDup string) (JObj rest).
Proof.
  intros Hall. pose proof (Hall [] _ eq_refl) as Hnd. simpl in Hnd.
  inversion Hnd as [|? ? Hk Hrest]; subst.
  intros [|d dir] ps Hd.
  - simpl in Hd. injection Hd as <-. exact Hrest.
  - apply (Hall (d :: dir)). simpl in Hd. 
    destruct (own rest d) as [child|] eqn:Hown; [|discriminate].
    change (descend (JObj ((k, v) :: rest)) (d :: dir))
      with (match own ((k, v) :: rest) d with
            | Some c => descend c dir
            | None => None
            end).
    rewrite own_tail; [now rewrite Hown|exact Hk|congruence].
Qed.

Lemma paths_NoDup node :
  forall base,
    atEveryLevel (@NoDup string) node -> NoDup (paths node base).
Proof.
  induction node as [|props IH] using TreeNode_induction; intros base Hall;
    [constructor|].
  induction IH as [|[k v] rest Hv _ IHrest]; [constructor|].
  pose proof (Hall [] _ eq_refl) as Hnd. simpl in Hnd.
  inversion Hnd as [|? ? Hk Hrest]; subst.
  rewrite paths_cons. constructor.
  - intros Hin. apply in_app_or in Hin as [Hin|Hin].
    + destruct (paths_shape _ _ _ Hin) as (key & more & Hz).
      rewrite <- app_assoc in Hz. simpl in Hz.
      apply app_inv_head in Hz. discriminate.
    + apply (not_in_rest rest base k (base ++ [k])%list Hk);
        [now exists []|exact Hin].
  - apply NoDup_app.
    + apply Hv. apply (atEveryLevel_child _ ((k, v) :: rest) k).
      * exact Hall.
      * simpl. now rewrite String.eqb_refl.
    + apply IHrest. now apply atEveryLevel_tail with (k := k) (v := v).
    + intros z Hz Hz'.
      apply (not_in_rest rest base k z Hk); [|exact Hz'].
      apply (block_under k v). now right.
Qed.

(** X2.  The inclusion tree lists every path once, also when a file is selected
    more than once or when a selected path is a directory of another. *)
Theorem rows_listed_once files fileTree :
  buildTree files = Some fileTree -> NoDup (renderedPaths fileTree).
Proof.
  intros Hbuild. unfold renderedPaths. rewrite rows_paths.
  apply paths_NoDup. now apply unique_keys with (files := files).
Qed.

Lemma rows_listed_once_witness :
  buildTree ["lib/a"; "lib"; "lib/a"] = Some [("lib", JObj [("a", JNull)])]
  /\ NoDup (renderedPaths [("lib", JObj [("a", JNull)])]).
Proof.
  split; [reflexivity|].
  apply (rows_listed_once ["lib/a"; "lib"; "lib/a"]). reflexivity.
Defined.

(** *** Names that are array indices *)

Lemma enumerationOrder_defineIndexed n key v props :
  arrayIndex key = Some n ->
  enumerationOrder (map fst props) = true ->
  enumerationOrder (map fst (defineIndexed n key v props)) = true.
Proof.
  intros Hkey. induction props as [|[k w] rest IH]; intros Hord;
    [reflexivity|].
  simpl in Hord. apply andb_true_iff in Hord as [Hk Hrest].
  assert (Hnew : forall m,
             arrayIndex k = Some m -> (m <? n)%N = false ->
             enumerationOrder (key :: k :: map fst rest) = true).
  { intros m Hm Hlt. apply N.ltb_ge in Hlt.
    simpl. rewrite Hk, Hrest, !andb_true_r.
    apply andb_true_iff. split.
    - unfold precedes. rewrite Hkey, Hm. now apply N.leb_le.
    - apply forallb_forall. intros x Hx.
      rewrite forallb_forall in Hk. specialize (Hk x Hx).
      unfold precedes in *. rewrite Hkey. rewrite Hm in Hk.
      destruct (arrayIndex x) as [mx|]; [|reflexivity].
      apply N.leb_le in Hk. apply N.leb_le. lia. }
  simpl. destruct (arrayIndex k) as [m|] eqn:Hm.
  - destruct (m <? n)%N eqn:Hlt.
    + simpl. rewrite (IH Hrest), andb_true_r.
      apply forallb_forall. intros x Hx.
      apply keys_defineIndexed in Hx as [->|Hx].
      * unfold precedes. rewrite Hm, Hkey.
        apply N.ltb_lt in Hlt. apply N.leb_le. lia.
      * rewrite forallb_forall in Hk. now apply Hk.
    + now apply (Hnew m).
  - simpl. rewrite Hk, Hrest, !andb_true_r.
    apply andb_true_iff. split.
    + unfold precedes. now rewrite Hkey, Hm.
    + apply forallb_forall. intros x Hx.
      rewrite forallb_forall in Hk. specialize (Hk x Hx).
      unfold precedes in *. rewrite Hkey. rewrite Hm in Hk.
      now destruct (arrayIndex x).
Qed.

Lemma enumerationOrder_snoc keys key :
  arrayIndex key = None ->
  enumerationOrder keys = true ->
  enumerationOrder (keys ++ [key]) = true.
Proof.
  intros Hkey. induction keys as [|k rest IH]; intros Hord; [reflexivity|].
  simpl in *. apply andb_true_iff in Hord as [Hk Hrest].
  rewrite (IH Hrest), andb_true_r, forallb_app, Hk. simpl.
  unfold precedes. rewrite Hkey. now destruct (arrayIndex k).
Qed.

Lemma enumerationOrder_assign props key v :
  enumerationOrder (map fst props) = true -> own props key = None ->
  enumerationOrder (map fst (assign props key v)) = true.
Proof.
  intros Hord Hnone. unfold assign. rewrite Hnone.
  destruct (arrayIndex key) as [n|] eqn:Hkey.
  - now apply enumerationOrder_defineIndexed.
  - rewrite map_app. now apply enumerationOrder_snoc.
Qed.

(** Every directory of the tree keeps its keys in enumeration order. *)
Lemma keys_enumerationOrder files fileTree :
  buildTree files = Some fileTree ->
  atEveryLevel (fun keys => enumerationOrder keys = true) (JObj fileTree).
Proof.
  apply atEveryLevel_buildTree; [reflexivity|].
  intros props key v. apply enumerationOrder_assign.
Qed.

Lemma nameIndex_in name names :
  In name names -> exists i, nameIndex name names = Some i.
Proof.
  induction names as [|n more IH]; intros Hin; [destruct Hin|].
  simpl. destruct (String.eqb name n) eqn:E; [now exists 0|].
  destruct Hin as [->|Hin]; [now rewrite String.eqb_refl in E|].
  destruct (IH Hin) as [i ->]. now exists (S i).
Qed.

Lemma precedes_refl a : precedes a a = true.
Proof.
  unfold precedes. destruct (arrayIndex a); [apply N.leb_refl|reflexivity].
Qed.

Lemma firstBefore_enumerationOrder keys a b :
  enumerationOrder keys = true ->
  In a keys -> In b keys -> precedes b a = false ->
  firstBefore a b keys.
Proof.
  intros Hord Ha Hb Hba.
  assert (Hab : a <> b)
    by (intros ->; rewrite precedes_refl in Hba; discriminate).
  induction keys as [|k rest IH]; [destruct Ha|].
  simpl in Hord. apply andb_true_iff in Hord as [Hk Hrest].
  rewrite forallb_forall in Hk.
  destruct Hb as [->|Hb].
  { destruct Ha as [->|Ha]; [congruence|].
    rewrite (Hk a Ha) in Hba. discriminate. }
  destruct (string_dec a k) as [->|Hak].
  - destruct (nameIndex_in b rest Hb) as [j Hj].
    exists 0, (S j). simpl. rewrite String.eqb_refl.
    destruct (String.eqb b k) eqn:E.
    + apply String.eqb_eq in E. congruence.
    + rewrite Hj. repeat split. lia.
  - destruct Ha as [->|Ha]; [congruence|].
    destruct (IH Hrest Ha Hb) as (i & j & Hi & Hj & Hlt).
    exists (S i), (S j). simpl.
    destruct (String.eqb a k) eqn:Ea;
      [apply String.eqb_eq in Ea; congruence|].
    destruct (String.eqb b k) eqn:Eb.
    + apply String.eqb_eq in Eb. subst k.
      rewrite (Hk a Ha) in Hba. discriminate.
    + rewrite Hi, Hj. repeat split. lia.
Qed.

(** The directory a row lies in, and the key by which the row enters it. *)
Lemma row_directory fileTree dir a z :
  atEveryLevel (@NoDup string) (JObj fileTree) ->
  In z (paths (JObj fileTree) []) -> under dir a z ->
  exists props,
    descend (JObj fileTree) dir = Some (JObj props)
    /\ In a (map fst props).
Proof.
  intros Hall Hz [more ->].
  destruct (row_reachable _ _ _ Hall Hz) as (dir0 & _ & Heq & Hd).
  simpl in Heq. subst dir0. rewrite descend_app in Hd.
  destruct (descend (JObj fileTree) dir) as [[|props]|]; try congruence.
  - now simpl in Hd.
  - exists props. split; [reflexivity|]. apply own_keys_in.
    simpl in Hd. now destruct (own props a).
Qed.

(** X3.  Among the entries of one directory of the inclusion tree, an entry
    whose name is an array index (such as [2024]) is listed before every
    entry whose name is not, and before every entry whose name is a larger
    index, wherever the files stand in the selection. *)
Theorem index_names_listed_first files fileTree dir a b n x y :
  buildTree files = Some fileTree ->
  arrayIndex a = Some n ->
  match arrayIndex b with Some m => (n < m)%N | None => True end ->
  In x (renderedPaths fileTree) -> In y (renderedPaths fileTree) ->
  under dir a x -> under dir b y ->
  renderedBefore x y (renderedPaths fileTree).
Proof.
  intros Hbuild Ha Hb Hx Hy Hxa Hyb.
  unfold renderedPaths in *. rewrite rows_paths in *.
  pose proof (unique_keys _ _ Hbuild) as Hall.
  destruct (row_directory _ _ _ _ Hall Hx Hxa) as (props & Hd & Hina).
  destruct (row_directory _ _ _ _ Hall Hy Hyb) as (props' & Hd' & Hinb).
  rewrite Hd in Hd'. injection Hd' as <-.
  apply (nested_blocks dir (JObj fileTree) [] props a b); try assumption.
  apply firstBefore_enumerationOrder; try assumption.
  - apply (keys_enumerationOrder _ _ Hbuild dir props Hd).
  - unfold precedes. rewrite Ha.
    destruct (arrayIndex b) as [m|]; [|reflexivity].
    now apply N.leb_gt.
Qed.

Lemma index_names_listed_first_witness :
  buildTree ["b"; "10/x"; "9"]
  = Some [("9", JNull); ("10", JObj [("x", JNull)]); ("b", JNull)]
  /\ arrayIndex "10" = Some 10%N
  /\ In ["10"; "x"]
       (renderedPaths
          [("9", JNull); ("10", JObj [("x", JNull)]); ("b", JNull)])
  /\ In ["b"]
       (renderedPaths
          [("9", JNull); ("10", JObj [("x", JNull)]); ("b", JNull)])
  /\ under [] "10" ["10"; "x"]
  /\ under [] "b" ["b"]
  /\ renderedBefore ["10"; "x"] ["b"]
       (renderedPaths
          [("9", JNull); ("10", JObj [("x", JNull)]); ("b", JNull)]).
Proof.
  assert (Hx : In ["10"; "x"]
                 (renderedPaths
                    [("9", JNull); ("10", JObj [("x", JNull)]); ("b", JNull)]))
    by (vm_compute; tauto).
  assert (Hy : In ["b"]
                 (renderedPaths
                    [("9", JNull); ("10", JObj [("x", JNull)]); ("b", JNull)]))
    by (vm_compute; tauto).
  assert (Hxa : under [] "10" ["10"; "x"]) by (now exists ["x"]).
  assert (Hyb : under [] "b" ["b"]) by (now exists []).
  split; [reflexivity|]. split; [reflexivity|].
  split; [exact Hx|]. split; [exact Hy|].
  split; [exact Hxa|]. split; [exact Hyb|].
  apply (index_names_listed_first ["b"; "10/x"; "9"] _ [] "10" "b" 10%N);
    [reflexivity|reflexivity|exact I|exact Hx|exact Hy|exact Hxa|exact Hyb].
Defined.

(** *** The rows below a directory *)

Lemma under_prefix base key z :
  under base key z <-> prefixOf (base ++ [key])%list z.
Proof.
  unfold under, prefixOf. split; intros [more ->]; exists more;
    now rewrite <- app_assoc.
Qed.

Lemma directory_block dir :
  forall node base child,
    atEveryLevel (@NoDup string) node ->
    dir <> [] ->
    descend node dir = Some child ->
    exists before after,
      paths node base
      = (before ++ ((base ++ dir) :: paths child (base ++ dir)) ++ after)%list
      /\ forall z, prefixOf (base ++ dir)%list z ->
                   ~ In z before /\ ~ In z after.
Proof.
  induction dir as [|d dir IH]; intros node base child Hall Hne Hd;
    [congruence|].
  simpl in Hd. destruct node as [|props]; [discriminate|].
  destruct (own props d) as [c|] eqn:Hown; [|discriminate].
  destruct (block_split props base d c (Hall [] props eq_refl) Hown)
    as (b1 & a1 & Heq & Hout).
  destruct dir as [|d2 dir'].
  - simpl in Hd. injection Hd as <-. exists b1, a1. split; [exact Heq|].
    intros z Hz. apply Hout. now apply under_prefix.
  - destruct (IH c (base ++ [d])%list child
                (atEveryLevel_child _ _ _ _ Hall Hown)
                ltac:(discriminate) Hd)
      as (b2 & a2 & Heq2 & Hout2).
    replace ((base ++ [d]) ++ d2 :: dir')%list
      with (base ++ d :: d2 :: dir')%list in *
      by now rewrite <- app_assoc.
    exists (b1 ++ (base ++ [d]) :: b2)%list, (a2 ++ a1)%list. split.
    + rewrite Heq, Heq2.
      repeat (rewrite <- (app_assoc (A := list string)); simpl).
      reflexivity.
    + intros z Hz.
      assert (Hunder : under base d z).
      { destruct Hz as [more ->]. exists ((d2 :: dir') ++ more)%list.
        now rewrite <- app_assoc. }
      destruct (Hout z Hunder) as [Hb1 Ha1].
      destruct (Hout2 z Hz) as [Hb2 Ha2].
      split; intros Hin; apply in_app_or in Hin as [Hin|Hin];
        try contradiction.
      destruct Hin as [<-|Hin]; [|contradiction].
      destruct Hz as [more Hz]. apply (f_equal (@length string)) in Hz.
      rewrite !length_app in Hz. simpl in Hz. lia.
Qed.

(** X4.  In the inclusion tree the lines below a directory follow its own line
    without interruption: the listing is the lines before, the line of the
    directory, the lines of its subtree, and the lines after, and no path
    through the directory is among the lines before or after. *)
Theorem directory_rows_contiguous files fileTree dir child :
  buildTree files = Some fileTree ->
  dir <> [] ->
  descend (JObj fileTree) dir = Some child ->
  exists before after,
    renderedPaths fileTree
    = (before ++ (dir :: paths child dir) ++ after)%list
    /\ forall z, prefixOf dir z -> ~ In z before /\ ~ In z after.
Proof.
  intros Hbuild Hne Hd. unfold renderedPaths. rewrite rows_paths.
  apply (directory_block dir (JObj fileTree) [] child); try assumption.
  now apply unique_keys with (files := files).
Qed.

Lemma directory_rows_contiguous_witness :
  buildTree ["a"; "lib/x"; "b"; "lib/y"]
  = Some [("a", JNull); ("lib", JObj [("x", JNull); ("y", JNull)]);
          ("b", JNull)]
  /\ ["lib"] <> []
  /\ descend
       (JObj [("a", JNull); ("lib", JObj [("x", JNull); ("y", JNull)]);
              ("b", JNull)]) ["lib"]
     = Some (JObj [("x", JNull); ("y", JNull)])
  /\ exists before after,
      renderedPaths
        [("a", JNull); ("lib", JObj [("x", JNull); ("y", JNull)]);
         ("b", JNull)]
      = (before
         ++ (["lib"] :: paths (JObj [("x", JNull); ("y", JNull)]) ["lib"])
         ++ after)%list
      /\ forall z, prefixOf ["lib"] z -> ~ In z before /\ ~ In z after.
Proof.
  split; [reflexivity|]. split; [discriminate|]. split; [reflexivity|].
  apply (directory_rows_contiguous ["a"; "lib/x"; "b"; "lib/y"]);
    [reflexivity|discriminate|reflexivity].
Defined.

End InclusionMore.

(* ================================================================== *)
(** ** More on the selection *)

Module SelectionMore.
Import Fs Codewise Stated More SelectionFacts.

Lemma filterM_filter {A} (keep : A -> result bool) l :
  forall out,
    filterM keep l = Ok out ->
    out = filter (fun x => match keep x with
                           | Ok k => k
                           | Throw _ => false
                           end) l.
Proof.
  induction l as [|x l IH]; intros out H; simpl in H.
  - now injection H as <-.
  - simpl. destruct (keep x) as [k|e]; [|discriminate]. simpl in H.
    destruct (filterM keep l) as [rest|e]; [|discriminate]. simpl in H.
    injection H as <-. rewrite <- (IH rest eq_refl). reflexivity.
Qed.

Lemma filterM_weaker {A} (keep keep' : A -> result bool) l :
  (forall x k, In x l -> keep x = Ok k ->
               exists k', keep' x = Ok k' /\ (k = true -> k' = true)) ->
  forall out,
    filterM keep l = Ok out ->
    exists out', filterM keep' l = Ok out' /\ incl out out'.
Proof.
  induction l as [|x l IH]; intros Hweak out H; simpl in H.
  - injection H as <-. exists []. split; [reflexivity|apply incl_refl].
  - destruct (keep x) as [k|e] eqn:Ek; [|discriminate]. simpl in H.
    destruct (filterM keep l) as [rest|e] eqn:Er; [|discriminate].
    simpl in H. injection H as <-.
    destruct (Hweak x k (or_introl eq_refl) Ek) as (k' & Ek' & Hk).
    destruct (IH (fun y b Hy => Hweak y b (or_intror Hy)) rest eq_refl)
      as (rest' & Er' & Hincl).
    simpl. rewrite Ek'. simpl. rewrite Er'. simpl.
    eexists. split; [reflexivity|].
    destruct k.
    + rewrite (Hk eq_refl). intros y [<-|Hy]; [now left|right; auto].
    + destruct k'; [apply incl_tl|]; exact Hincl.
Qed.

Section Packages.
Variable minimatch : string -> string -> bool.

(** X5.  When the selection completes, it returns the candidates of [glob]
    that the matcher does not flag and whose size is within the limit:
    all of them, in the order in which [glob] returned them. *)
Theorem included_files_exact w dir config ig files :
  getIncludedFiles minimatch w dir config ig = Ok files ->
  files = filter (passes w dir config ig) (candidates minimatch w dir config).
Proof.
  intros H. unfold getIncludedFiles in H.
  apply filterM_filter in H. rewrite H. unfold candidates.
  apply filter_ext. intros file. unfold passes.
  destruct (statSync w (path_join dir file)); [|reflexivity].
  now destruct (Ignore.ignores ig file).
Qed.

(** X6.  No file that the patterns [**/node_modules/**] or [**/.git/**] match
    is ever selected, whatever the configuration includes or excludes. *)
Theorem dependency_directories_never_selected w dir config ig files file :
  getIncludedFiles minimatch w dir config ig = Ok files ->
  In file files ->
  minimatch "**/node_modules/**" file = false
  /\ minimatch "**/.git/**" file = false.
Proof.
  intros H Hin.
  destruct (selected_kept minimatch _ _ _ _ _ _ H Hin) as [Hcand _].
  unfold candidates, glob in Hcand.
  destruct (locate w dir); [|destruct Hcand].
  apply filter_In in Hcand as [_ Hmatch].
  apply andb_true_iff in Hmatch as [_ Hnot].
  apply negb_true_iff in Hnot. unfold matchesAny in Hnot. simpl in Hnot.
  apply orb_false_iff in Hnot as [H1 Hnot].
  apply orb_false_iff in Hnot as [H2 _]. auto.
Qed.

(** X7.  Raising [maxFileSize], with the same patterns, never makes the
    selection fail and never removes a file from it. *)
Theorem larger_limit_keeps_files w dir config config' ig files :
  include config' = include config ->
  exclude config' = exclude config ->
  (maxFileSize config <= maxFileSize config')%Z ->
  getIncludedFiles minimatch w dir config ig = Ok files ->
  exists files',
    getIncludedFiles minimatch w dir config' ig = Ok files'
    /\ incl files files'.
Proof.
  intros Hinc Hexc Hle H. unfold getIncludedFiles, globPattern in *.
  rewrite Hinc, Hexc.
  apply (filterM_weaker _ _ _) with (2 := H).
  intros file k _ Hk.
  destruct (statSync w (path_join dir file)) as [stats|e]; [|discriminate].
  destruct (Ignore.ignores ig file) as [ignored|e]; [|discriminate].
  simpl in *. injection Hk as <-. eexists. split; [reflexivity|].
  intros Hboth. apply andb_true_iff in Hboth as [-> Hsize].
  apply Z.leb_le in Hsize. simpl. apply Z.leb_le. lia.
Qed.

End Packages.

Lemma included_files_exact_witness :
  getIncludedFiles Samples.miniGlob Samples.project "/repo" DEFAULT_CONFIG []
  = Ok ["a.txt"]
  /\ ["a.txt"]
     = filter (passes Samples.project "/repo" DEFAULT_CONFIG [])
         (candidates Samples.miniGlob Samples.project "/repo" DEFAULT_CONFIG).
Proof.
  split; [reflexivity|].
  apply (included_files_exact Samples.miniGlob). reflexivity.
Defined.

Lemma dependency_directories_never_selected_witness :
  getIncludedFiles Samples.miniGlob Samples.project "/repo"
    MoreSamples.everything [] = Ok ["a.txt"; "b.txt"]
  /\ In "b.txt" ["a.txt"; "b.txt"]
  /\ Samples.miniGlob "**/node_modules/**" "b.txt" = false
  /\ Samples.miniGlob "**/.git/**" "b.txt" = false.
Proof.
  split; [reflexivity|]. split; [simpl; tauto|].
  apply (dependency_directories_never_selected Samples.miniGlob
           Samples.project "/repo" MoreSamples.everything [] ["a.txt"; "b.txt"]);
    [reflexivity|simpl; tauto].
Defined.

Lemma larger_limit_keeps_files_witness :
  include MoreSamples.everything = include DEFAULT_CONFIG
  /\ exclude MoreSamples.everything = exclude DEFAULT_CONFIG
  /\ (maxFileSize DEFAULT_CONFIG <= maxFileSize MoreSamples.everything)%Z
  /\ getIncludedFiles Samples.miniGlob Samples.project "/repo" DEFAULT_CONFIG []
     = Ok ["a.txt"]
  /\ exists files',
      getIncludedFiles Samples.miniGlob Samples.project "/repo"
        MoreSamples.everything [] = Ok files'
      /\ incl ["a.txt"] files'.
Proof.
  split; [reflexivity|]. split; [reflexivity|].
  split; [vm_compute; discriminate|]. split; [reflexivity|].
  apply (larger_limit_keeps_files Samples.miniGlob Samples.project "/repo"
           DEFAULT_CONFIG MoreSamples.everything [] ["a.txt"]);
    [reflexivity|reflexivity|vm_compute; discriminate|reflexivity].
Defined.

End SelectionMore.

(* ================================================================== *)
(** ** More on the full tree *)

Module TreeMore.
Import Fs Draw Codewise Stated More TreeFacts.

Lemma fsnode_induction (P : fsnode -> Prop) :
  (forall size data, P (File size data)) ->
  P Missing ->
  (forall entries, Forall (fun e => P (snd e)) entries -> P (Dir entries)) ->
  (forall entries, P (Sealed entries)) ->
  forall node, P node.
Proof.
  intros Hfile Hmissing Hdir Hsealed. fix IH 1.
  intros [size data| |entries|entries].
  - apply Hfile.
  - exact Hmissing.
  - apply Hdir. induction entries as [|e entries IHentries]; constructor.
    + apply IH.
    + exact IHentries.
  - apply Hsealed.
Qed.

Lemma intact_cons file node rest :
  intact (Dir ((file, node) :: rest)) = intact node && intact (Dir rest).
Proof. reflexivity. Qed.

Lemma accepted_cons w file node rest dir :
  accepted w (Dir ((file, node) :: rest)) dir
  = succeeded (Ignore.checkPath (path_relative (cwd w) (path_join dir file)))
    && accepted w node (path_join dir file)
    && accepted w (Dir rest) dir.
Proof. reflexivity. Qed.

Lemma intact_directory w ig node :
  forall dir prefix,
    intact node = true ->
    accepted w node dir = true ->
    forall entries,
      node = Dir entries ->
      exists text, generateFullFileTree w ig node dir prefix = Ok text.
Proof.
  induction node as [size data| |es IH|es] using fsnode_induction;
    intros dir prefix Hintact Haccepted entries Hnode; try discriminate.
  clear entries Hnode.
  induction IH as [|[file node] rest Hnode _ IHrest].
  - now exists "".
  - rewrite intact_cons in Hintact.
    apply andb_true_iff in Hintact as [Hn Hrest].
    rewrite accepted_cons in Haccepted.
    apply andb_true_iff in Haccepted as [Haccepted Harest].
    apply andb_true_iff in Haccepted as [Hpath Hanode].
    destruct (IHrest Hrest Harest) as [more Hmore].
    rewrite generateFullFileTree_cons, Hmore.
    assert (Hbelow : exists below,
               belowEntry w ig dir prefix (isNil rest) file node = Ok below).
    { unfold belowEntry, Ignore.ignores.
      destruct (Ignore.checkPath (path_relative (cwd w) (path_join dir file)));
        [|discriminate].
      cbn [bind].
      destruct node as [size data| |children|children].
      - now exists "".
      - discriminate.
      - destruct (collapsed file); [eexists; reflexivity|].
        destruct (negb (Ignore.flags ig
                          (path_relative (cwd w) (path_join dir file))));
          [|now exists ""].
        now apply (Hnode _ _ Hn Hanode children).
      - discriminate. }
    destruct Hbelow as [below ->]. simpl. eexists. reflexivity.
Qed.

(** X8.  The full tree of a directory is produced, not thrown, when no entry
    below it is one that [statSync] cannot find or a directory that
    cannot be listed, and the matcher accepts the path of every entry
    below it; the rules of the matcher and the prefix play no part in
    this. *)
Theorem intact_tree_rendered w ig entries dir prefix :
  intact (Dir entries) = true ->
  accepted w (Dir entries) dir = true ->
  exists text, generateFullFileTree w ig (Dir entries) dir prefix = Ok text.
Proof.
  intros Hintact Haccepted.
  now apply (intact_directory w ig (Dir entries)) with entries.
Qed.

Lemma intact_tree_rendered_witness :
  intact (root Samples.checkout) = true
  /\ accepted Samples.checkout (root Samples.checkout) "/repo" = true
  /\ exists text,
      generateFullFileTree Samples.checkout Samples.rerunMatcher
        (Dir [(".git", Dir [("HEAD", Samples.text "ref")]);
              ("dist", Dir [("bundle.js", Samples.text "B")]);
              ("out.md", Samples.text "old");
              ("src", Dir [("main.ts", Samples.text "M")])])
        "/repo" "" = Ok text.
Proof.
  split; [reflexivity|]. split; [reflexivity|].
  apply (intact_tree_rendered Samples.checkout Samples.rerunMatcher);
    reflexivity.
Defined.

(** A file named with dots only stops the walk: the matcher refuses its
    path. *)
Example dots_only_name_throws :
  throws (fullFileTree
            (Samples.world [("...", Samples.text "x");
                            ("a.txt", Samples.text "A")])
            "/repo" []) = true.
Proof. reflexivity. Qed.

(** A directory that cannot be listed stops the walk, and is passed over
    by the selection. *)
Example sealed_directory_throws :
  fullFileTree
    (Samples.world [("a.txt", Samples.text "A");
                    ("vault", Sealed [("key", Samples.text "k")])])
    "/repo" []
  = Throw (EACCES "scandir" "/repo/vault")
  /\ getIncludedFiles Samples.miniGlob
       (Samples.world [("a.txt", Samples.text "A");
                       ("vault", Sealed [("key", Samples.text "k")])])
       "/repo" DEFAULT_CONFIG []
     = Ok ["a.txt"].
Proof. split; reflexivity. Qed.

(** X9.  A directory that lists an entry which [statSync] cannot find (removed
    since the listing, or a link without a target) has no full tree: the
    call throws, wherever the entry stands in the listing and whatever the
    matcher says about it. *)
Theorem missing_entry_throws w ig dir prefix before file rest :
  throws (generateFullFileTree w ig
            (Dir (before ++ (file, Missing) :: rest)) dir prefix) = true.
Proof.
  induction before as [|[f node] before IH].
  - simpl app. rewrite generateFullFileTree_cons. unfold belowEntry.
    now destruct (Ignore.ignores ig
                    (path_relative (cwd w) (path_join dir file))).
  - change (((f, node) :: before) ++ (file, Missing) :: rest)%list
      with ((f, node) :: (before ++ (file, Missing) :: rest))%list.
    rewrite generateFullFileTree_cons.
    destruct (belowEntry w ig dir prefix
                (isNil (before ++ (file, Missing) :: rest)) f node);
      [|reflexivity].
    destruct (generateFullFileTree w ig
                (Dir (before ++ (file, Missing) :: rest)) dir prefix);
      [discriminate|reflexivity].
Qed.

(** X10.  The full tree of a directory contains the line of each of its
    entries, files that the matcher flags included, with the connector of
    the last entry exactly for the entry that nothing follows. *)
Theorem every_entry_listed w ig dir prefix before file node rest text :
  generateFullFileTree w ig
    (Dir (before ++ (file, node) :: rest)) dir prefix = Ok text ->
  exists above below,
    text = above ++ entryLine prefix (isNil rest) file ++ below.
Proof.
  revert text. induction before as [|[f n] before IH]; intros text H.
  - simpl app in H. rewrite generateFullFileTree_cons in H.
    destruct (belowEntry w ig dir prefix (isNil rest) file node) as [below|];
      [|discriminate].
    destruct (generateFullFileTree w ig (Dir rest) dir prefix) as [more|];
      [|discriminate].
    unfold bind in H. injection H as <-. exists "", (below ++ more).
    reflexivity.
  - change (((f, n) :: before) ++ (file, node) :: rest)%list
      with ((f, n) :: (before ++ (file, node) :: rest))%list in H.
    rewrite generateFullFileTree_cons in H.
    destruct (belowEntry w ig dir prefix
                (isNil (before ++ (file, node) :: rest)) f n) as [below|];
      [|discriminate].
    destruct (generateFullFileTree w ig
                (Dir (before ++ (file, node) :: rest)) dir prefix)
      as [more|]; [|discriminate].
    unfold bind in H. injection H as <-.
    destruct (IH more eq_refl) as (above & below' & ->).
    exists (entryLine prefix (isNil (before ++ (file, node) :: rest)) f
            ++ below ++ above), below'.
    now rewrite !StrFacts.append_assoc.
Qed.

Lemma every_entry_listed_witness :
  generateFullFileTree Samples.checkout Samples.rerunMatcher
    (Dir ([(".git", Dir [("HEAD", Samples.text "ref")]);
           ("dist", Dir [("bundle.js", Samples.text "B")])]
          ++ ("out.md", Samples.text "old")
          :: [("src", Dir [("main.ts", Samples.text "M")])]))
    "/repo" ""
  = Ok ("├── .git" ++ LF ++ "│   └── ..." ++ LF
        ++ "├── dist" ++ LF
        ++ "├── out.md" ++ LF
        ++ "└── src" ++ LF ++ "    └── main.ts" ++ LF)
  /\ exists above below,
      "├── .git" ++ LF ++ "│   └── ..." ++ LF
      ++ "├── dist" ++ LF
      ++ "├── out.md" ++ LF
      ++ "└── src" ++ LF ++ "    └── main.ts" ++ LF
      = above
        ++ entryLine ""
             (isNil [("src", Dir [("main.ts", Samples.text "M")])]) "out.md"
        ++ below.
Proof.
  split; [reflexivity|].
  apply (every_entry_listed Samples.checkout Samples.rerunMatcher "/repo" ""
           [(".git", Dir [("HEAD", Samples.text "ref")]);
            ("dist", Dir [("bundle.js", Samples.text "B")])]
           "out.md" (Samples.text "old")
           [("src", Dir [("main.ts", Samples.text "M")])]).
  reflexivity.
Defined.

End TreeMore.

(* ================================================================== *)
(** ** More on the blocks and on the run *)

Module AssemblyMore.
Import Fs Draw Codewise Stated More.

Lemma length_append (a b : string) :
  String.length (a ++ b) = String.length a + String.length b.
Proof. induction a as [|c a IH]; simpl; congruence. Qed.

Lemma append_inv_head (a x y : string) : a ++ x = a ++ y -> x = y.
Proof.
  induction a as [|c a IH]; simpl; intros H; [exact H|].
  injection H as H. now apply IH.
Qed.

Lemma append_inv_tail (a : string) :
  forall x y, x ++ a = y ++ a -> x = y.
Proof.
  assert (Hlen : forall c z, a <> String c (z ++ a)).
  { intros c z H. apply (f_equal String.length) in H.
    simpl in H. rewrite length_append in H. lia. }
  induction x as [|c x IH]; intros [|d y] H; simpl in H.
  - reflexivity.
  - now apply Hlen in H.
  - symmetry in H. now apply Hlen in H.
  - injection H as -> H. f_equal. now apply IH.
Qed.

(** X11.  For a given path and output format, the block of a file that can be
    read determines its content: two different contents never give the
    same block, also when the content holds the end marker of the CDATA
    section or a fence. *)
Theorem block_determines_content w w' filePath config content content' :
  cwd w' = cwd w ->
  readFileSync w filePath = Ok content ->
  readFileSync w' filePath = Ok content' ->
  getFileContent w filePath config = getFileContent w' filePath config ->
  content = content'.
Proof.
  intros Hcwd Hread Hread'. unfold getFileContent.
  rewrite Hread, Hread', Hcwd.
  destruct (outputFormat config); intros H;
    repeat apply append_inv_head in H;
    now apply append_inv_tail in H.
Qed.

Lemma block_determines_content_witness :
  cwd (Samples.world [("x.md", Samples.text "```")])
  = cwd (Samples.world [("x.md", Samples.text "```")])
  /\ readFileSync (Samples.world [("x.md", Samples.text "```")]) "/repo/x.md"
     = Ok "```"
  /\ getFileContent (Samples.world [("x.md", Samples.text "```")])
       "/repo/x.md" DEFAULT_CONFIG
     = getFileContent (Samples.world [("x.md", Samples.text "```")])
         "/repo/x.md" DEFAULT_CONFIG
  /\ "```" = "```".
Proof.
  split; [reflexivity|]. split; [reflexivity|]. split; [reflexivity|].
  apply (block_determines_content
           (Samples.world [("x.md", Samples.text "```")])
           (Samples.world [("x.md", Samples.text "```")])
           "/repo/x.md" DEFAULT_CONFIG); reflexivity.
Defined.

Lemma relative_of_joined dir file :
  path_relative dir (path_join dir file) = file.
Proof.
  unfold path_relative, path_join.
  change (dir ++ String slash file) with (dir ++ (String slash "" ++ file)).
  rewrite <- StrFacts.append_assoc.
  change (String.append dir (String slash "")) with (dir ++ String slash "").
  now rewrite StrFacts.strip_prefix_app.
Qed.

(** X12.  The block of a selected file is labelled with the path under which
    the file was selected, relative to the working directory, in both
    output formats. *)
Theorem block_labelled_with_selected_path w file config content :
  readFileSync w (path_join (cwd w) file) = Ok content ->
  getFileContent w (path_join (cwd w) file) config
  = match outputFormat config with
    | XML =>
        "<file path=" ++ DQ ++ file ++ DQ ++ ">" ++ LF
        ++ "<![CDATA[" ++ LF ++ content ++ LF ++ "]]>" ++ LF
        ++ "</file>" ++ LF ++ LF
    | Markdown =>
        "```" ++ file ++ LF ++ content ++ LF ++ "```" ++ LF ++ LF
    end.
Proof.
  intros Hread. unfold getFileContent.
  now rewrite Hread, relative_of_joined.
Qed.

Lemma block_labelled_with_selected_path_witness :
  readFileSync Samples.checkout (path_join (cwd Samples.checkout) "src/main.ts")
  = Ok "M"
  /\ getFileContent Samples.checkout
       (path_join (cwd Samples.checkout) "src/main.ts") Samples.xml
     = "<file path=" ++ DQ ++ "src/main.ts" ++ DQ ++ ">" ++ LF
       ++ "<![CDATA[" ++ LF ++ "M" ++ LF ++ "]]>" ++ LF
       ++ "</file>" ++ LF ++ LF.
Proof.
  split; [reflexivity|].
  apply (block_labelled_with_selected_path Samples.checkout "src/main.ts"
           Samples.xml "M").
  reflexivity.
Defined.

Section Packages.
Variable createRule : string -> option Ignore.Rule.
Variable minimatch : string -> string -> bool.


End Packages.

(** A read that fails is logged between the start of the generation and
    the writing, and the run goes on. *)
Example read_failure_logged :
  run Samples.literalRule Samples.miniGlob Samples.locked DEFAULT_CONFIG
    "out.md" true
  = Some ([logInfo "Files to be included:";
           logInfo (LF ++ "├── a.txt" ++ LF ++ "├── b.key" ++ LF
                    ++ "└── c.txt" ++ LF);
           logInfo "Generating code context...";
           logError "Error reading file /repo/b.key:"
             "EACCES: permission denied, open";
           logInfo "Content written to out.md";
           generated],
          0%Z).
Proof. reflexivity. Qed.

End AssemblyMore.

(* ================================================================== *)
(** ** The command line *)

Module CliFacts.
Import Fs Codewise Stated More SelectionFacts.

(** X15.  [loadConfig] throws nothing: when the configuration file does not
    exist, cannot be read, or is not JSON, it returns the default
    configuration; and with the defaults of the command line for the
    format and the size, and no patterns given, the run then uses exactly
    [DEFAULT_CONFIG]. *)
Theorem unusable_config_file_ignored
  (JSON_parse : string -> result Cli.ConfigFile) w options :
  existsSync w (Cli.config options) = false
  \/ throws (readFileSync w (Cli.config options)) = true
  \/ (exists text,
         readFileSync w (Cli.config options) = Ok text
         /\ throws (JSON_parse text) = true) ->
  snd (Cli.loadConfig JSON_parse w (Cli.config options)) = DEFAULT_CONFIG
  /\ (Cli.format options = Cli.format Cli.defaults ->
      Cli.maxSize options = Cli.maxSize Cli.defaults ->
      Cli.include options = None ->
      Cli.exclude options = None ->
      Cli.effectiveConfig JSON_parse w options = Some DEFAULT_CONFIG).
Proof.
  intros Hfile.
  assert (Hload : snd (Cli.loadConfig JSON_parse w (Cli.config options))
                  = DEFAULT_CONFIG).
  { unfold Cli.loadConfig.
    destruct Hfile as [Hno|[Hread|(text & Hread & Hparse)]].
    - now rewrite Hno.
    - destruct (existsSync w (Cli.config options)); [|reflexivity].
      now destruct (readFileSync w (Cli.config options)).
    - destruct (existsSync w (Cli.config options)); [|reflexivity].
      rewrite Hread. simpl. now destruct (JSON_parse text). }
  split; [exact Hload|].
  intros Hformat Hsize Hinclude Hexclude.
  unfold Cli.effectiveConfig, Cli.applyOptions.
  rewrite Hload, Hformat, Hsize, Hinclude, Hexclude. reflexivity.
Qed.

Lemma unusable_config_file_ignored_witness :
  (existsSync Samples.checkout (Cli.config Cli.defaults) = false
   \/ throws (readFileSync Samples.checkout
                (Cli.config Cli.defaults)) = true
   \/ (exists text,
          readFileSync Samples.checkout (Cli.config Cli.defaults)
          = Ok text
          /\ throws (MoreSamples.parse text) = true))
  /\ snd (Cli.loadConfig MoreSamples.parse Samples.checkout
            (Cli.config Cli.defaults)) = DEFAULT_CONFIG
  /\ (Cli.format Cli.defaults = Cli.format Cli.defaults ->
      Cli.maxSize Cli.defaults = Cli.maxSize Cli.defaults ->
      Cli.include Cli.defaults = None ->
      Cli.exclude Cli.defaults = None ->
      Cli.effectiveConfig MoreSamples.parse Samples.checkout
        Cli.defaults = Some DEFAULT_CONFIG).
Proof.
  assert (H : existsSync Samples.checkout
                (Cli.config Cli.defaults) = false
              \/ throws (readFileSync Samples.checkout
                           (Cli.config Cli.defaults)) = true
              \/ (exists text,
                     readFileSync Samples.checkout
                       (Cli.config Cli.defaults) = Ok text
                     /\ throws (MoreSamples.parse text) = true))
    by (left; reflexivity).
  split; [exact H|].
  apply (unusable_config_file_ignored MoreSamples.parse
           Samples.checkout Cli.defaults H).
Defined.

(** X16.  When the options carry a format and a size, as they always do with
    the defaults [markdown] and [100] of the command line, the output
    format and the size limit of the run are those of the options: what
    the configuration file says about them has no effect. *)
Theorem options_override_config_file
  (JSON_parse : string -> result Cli.ConfigFile) w options effective :
  Cli.truthy (Cli.format options) = true ->
  Cli.truthy (Cli.maxSize options) = true ->
  Cli.effectiveConfig JSON_parse w options = Some effective ->
  outputFormat effective = Cli.formatOf (Cli.format options)
  /\ Cli.kilobytes (Cli.maxSize options) = Some (maxFileSize effective).
Proof.
  intros Hformat Hsize. unfold Cli.effectiveConfig, Cli.applyOptions.
  rewrite Hformat, Hsize.
  destruct (Cli.kilobytes (Cli.maxSize options)) as [size|]; [|discriminate].
  intros H. injection H as <-. split; reflexivity.
Qed.

Lemma options_override_config_file_witness :
  Cli.truthy (Cli.format Cli.defaults) = true
  /\ Cli.truthy (Cli.maxSize Cli.defaults) = true
  /\ snd (Cli.loadConfig MoreSamples.parse MoreSamples.configured
            "codewise.json")
     = {| include := ["**/*"];
          exclude := exclude DEFAULT_CONFIG;
          maxFileSize := 5;
          outputFormat := XML |}
  /\ Cli.effectiveConfig MoreSamples.parse MoreSamples.configured Cli.defaults
     = Some DEFAULT_CONFIG
  /\ outputFormat DEFAULT_CONFIG = Cli.formatOf (Cli.format Cli.defaults)
  /\ Cli.kilobytes (Cli.maxSize Cli.defaults)
     = Some (maxFileSize DEFAULT_CONFIG).
Proof.
  split; [reflexivity|]. split; [reflexivity|]. split; [reflexivity|].
  split; [reflexivity|].
  apply (options_override_config_file MoreSamples.parse
           MoreSamples.configured Cli.defaults DEFAULT_CONFIG);
    reflexivity.
Defined.

(** X17.  The include patterns of the command line replace those of the
    configuration, while its exclude patterns are added to them: no file
    that an exclude pattern of either matches is selected. *)
Theorem cli_includes_replace_excludes_add
  (minimatch : string -> string -> bool) loaded options effective :
  Cli.applyOptions loaded options = Some effective ->
  (forall patterns,
      Cli.include options = Some patterns -> include effective = patterns)
  /\ forall w dir ig files file pattern,
      getIncludedFiles minimatch w dir effective ig = Ok files ->
      In file files ->
      In pattern (exclude loaded)
      \/ (exists patterns,
             Cli.exclude options = Some patterns /\ In pattern patterns) ->
      minimatch pattern file = false.
Proof.
  unfold Cli.applyOptions.
  destruct (if Cli.truthy (Cli.maxSize options)
            then Cli.kilobytes (Cli.maxSize options)
            else Some (maxFileSize loaded)) as [size|]; [|discriminate].
  intros H. injection H as <-. split.
  - intros patterns ->. reflexivity.
  - intros w dir ig files file pattern Hsel Hin Hpat.
    destruct (selected_kept minimatch _ _ _ _ _ _ Hsel Hin) as [Hcand _].
    destruct (candidates_match minimatch _ _ _ _ Hcand) as [_ Hnone].
    unfold matchesAny in Hnone. simpl in Hnone.
    assert (Hall : forall p,
               In p (match Cli.exclude options with
                     | Some patterns => (exclude loaded ++ patterns)%list
                     | None => exclude loaded
                     end) -> minimatch p file = false).
    { intros p Hp.
      destruct (minimatch p file) eqn:E; [|reflexivity].
      assert (existsb (fun q => minimatch q file)
                (match Cli.exclude options with
                 | Some patterns => (exclude loaded ++ patterns)%list
                 | None => exclude loaded
                 end) = true)
        by (apply existsb_exists; now exists p).
      congruence. }
    apply Hall. destruct Hpat as [Hold|(patterns & Hopt & Hnew)].
    + destruct (Cli.exclude options); [apply in_or_app|]; auto.
    + rewrite Hopt. apply in_or_app. auto.
Qed.

Lemma cli_includes_replace_excludes_add_witness :
  Cli.applyOptions DEFAULT_CONFIG MoreSamples.narrowed
  = Some {| include := ["src/**"];
            exclude := (exclude DEFAULT_CONFIG ++ ["*.log"])%list;
            maxFileSize := 102400;
            outputFormat := Markdown |}
  /\ (forall patterns,
         Cli.include MoreSamples.narrowed = Some patterns ->
         include {| include := ["src/**"];
                    exclude := (exclude DEFAULT_CONFIG ++ ["*.log"])%list;
                    maxFileSize := 102400;
                    outputFormat := Markdown |} = patterns)
  /\ forall w dir ig files file pattern,
      getIncludedFiles Samples.miniGlob w dir
        {| include := ["src/**"];
           exclude := (exclude DEFAULT_CONFIG ++ ["*.log"])%list;
           maxFileSize := 102400;
           outputFormat := Markdown |} ig = Ok files ->
      In file files ->
      In pattern (exclude DEFAULT_CONFIG)
      \/ (exists patterns,
             Cli.exclude MoreSamples.narrowed = Some patterns
             /\ In pattern patterns) ->
      Samples.miniGlob pattern file = false.
Proof.
  split; [reflexivity|].
  apply (cli_includes_replace_excludes_add Samples.miniGlob DEFAULT_CONFIG
           MoreSamples.narrowed).
  reflexivity.
Defined.

(** *** The prompt *)

Lemma lowerChar_y c :
  Cli.lowerChar c = "y"%char -> c = "y"%char \/ c = "Y"%char.
Proof.
  destruct c as [[] [] [] [] [] [] [] []]; vm_compute; intros H;
    first [discriminate H | now left | now right].
Qed.

Lemma lowerChar_e c :
  Cli.lowerChar c = "e"%char -> c = "e"%char \/ c = "E"%char.
Proof.
  destruct c as [[] [] [] [] [] [] [] []]; vm_compute; intros H;
    first [discriminate H | now left | now right].
Qed.

Lemma lowerChar_s c :
  Cli.lowerChar c = "s"%char -> c = "s"%char \/ c = "S"%char.
Proof.
  destruct c as [[] [] [] [] [] [] [] []]; vm_compute; intros H;
    first [discriminate H | now left | now right].
Qed.

(** X18.  The prompt is confirmed by [y] and [yes] in any mix of upper and lower
    case, and by nothing else: an empty answer, an answer with a space
    around it and any other word decline. *)
Theorem prompt_confirmed_by answer :
  Cli.promptUser answer = true
  <-> In answer ["y"; "Y"; "yes"; "yeS"; "yEs"; "yES";
                 "Yes"; "YeS"; "YEs"; "YES"].
Proof.
  split.
  - unfold Cli.promptUser. intros H. apply orb_true_iff in H as [H|H];
      apply String.eqb_eq in H.
    + destruct answer as [|c [|d rest]]; try discriminate.
      simpl in H. injection H as H.
      destruct (lowerChar_y c H) as [-> | ->]; simpl; tauto.
    + destruct answer as [|c [|d [|e [|f rest]]]]; try discriminate.
      simpl in H. injection H as Hc Hd He.
      destruct (lowerChar_y c Hc) as [-> | ->];
        destruct (lowerChar_e d Hd) as [-> | ->];
        destruct (lowerChar_s e He) as [-> | ->]; simpl; tauto.
  - intros H. simpl in H.
    repeat (destruct H as [<-|H]; [reflexivity|]). destruct H.
Qed.

(** X19.  With any answer that does not confirm, a run whose selection
    completes logs, after what [loadConfig] logged, the listing and the
    notice that the generation was aborted, and ends with exit code 0;
    nothing is generated. *)
Theorem declined_run_generates_nothing
  (JSON_parse : string -> result Cli.ConfigFile)
  (createRule : string -> option Ignore.Rule)
  (minimatch : string -> string -> bool)
  w options answer effective ig files inclusionTree :
  Cli.promptUser answer = false ->
  Cli.effectiveConfig JSON_parse w options = Some effective ->
  createIgnore createRule w effective (Cli.output options) = Ok ig ->
  getIncludedFiles minimatch w (cwd w) effective ig = Ok files ->
  Inclusion.formatIncludedFiles files = Some inclusionTree ->
  Cli.program JSON_parse createRule minimatch w options answer
  = Some ((fst (Cli.loadConfig JSON_parse w (Cli.config options))
           ++ [logInfo "Files to be included:";
               logInfo (LF ++ inclusionTree);
               logInfo "Context generation aborted."])%list, 0%Z).
Proof.
  intros Hno Hconfig Hig Hfiles Htree.
  unfold Cli.program, run, main.
  now rewrite Hconfig, Hno, Hig, Hfiles, Htree.
Qed.

Lemma declined_run_generates_nothing_witness :
  Cli.promptUser "" = false
  /\ Cli.effectiveConfig MoreSamples.parse MoreSamples.configured Cli.defaults
     = Some DEFAULT_CONFIG
  /\ Cli.program MoreSamples.parse Samples.literalRule Samples.miniGlob
       MoreSamples.configured Cli.defaults ""
     = Some ([logConfig "Loaded config:"
                {| include := ["**/*"];
                   exclude := exclude DEFAULT_CONFIG;
                   maxFileSize := 5;
                   outputFormat := XML |};
              logInfo "Files to be included:";
              logInfo (LF ++ ("├── a.txt" ++ LF ++ "└── codewise.json" ++ LF));
              logInfo "Context generation aborted."], 0%Z).
Proof.
  split; [reflexivity|]. split; [reflexivity|].
  apply (declined_run_generates_nothing MoreSamples.parse Samples.literalRule
           Samples.miniGlob MoreSamples.configured Cli.defaults ""
           DEFAULT_CONFIG
           (Ignore.add Samples.literalRule []
              (exclude DEFAULT_CONFIG ++ ["codewise-output.md"]))
           ["a.txt"; "codewise.json"]);
    reflexivity.
Defined.

(** X13.  When [.gitignore] exists and cannot be read (it is a directory, or
    the permission is missing), the run ends with exit code 1 before
    anything is listed, whatever is answered: after what [loadConfig]
    logged, the log holds the error of the read and nothing else. *)
Theorem unreadable_gitignore_aborts
  (JSON_parse : string -> result Cli.ConfigFile)
  (createRule : string -> option Ignore.Rule)
  (minimatch : string -> string -> bool)
  w options answer effective e :
  Cli.effectiveConfig JSON_parse w options = Some effective ->
  existsSync w ".gitignore" = true ->
  readFileSync w ".gitignore" = Throw e ->
  Cli.program JSON_parse createRule minimatch w options answer
  = Some ((fst (Cli.loadConfig JSON_parse w (Cli.config options))
           ++ [logError "An error occurred:" e])%list, 1%Z).
Proof.
  intros Hconfig Hexists Hread.
  unfold Cli.program, run, main, createIgnore.
  now rewrite Hconfig, Hexists, Hread.
Qed.

Lemma unreadable_gitignore_aborts_witness :
  Cli.effectiveConfig MoreSamples.parse MoreSamples.gitignoreDirectory
    Cli.defaults = Some DEFAULT_CONFIG
  /\ existsSync MoreSamples.gitignoreDirectory ".gitignore" = true
  /\ readFileSync MoreSamples.gitignoreDirectory ".gitignore"
     = Throw "EISDIR: illegal operation on a directory, read"
  /\ Cli.program MoreSamples.parse Samples.literalRule Samples.miniGlob
       MoreSamples.gitignoreDirectory Cli.defaults "y"
     = Some ([logConfig "Loaded config:"
                {| include := ["**/*"];
                   exclude := exclude DEFAULT_CONFIG;
                   maxFileSize := 5;
                   outputFormat := XML |};
              logError "An error occurred:"
                "EISDIR: illegal operation on a directory, read"], 1%Z).
Proof.
  do 3 (split; [reflexivity|]).
  apply (unreadable_gitignore_aborts MoreSamples.parse Samples.literalRule
           Samples.miniGlob MoreSamples.gitignoreDirectory Cli.defaults "y"
           DEFAULT_CONFIG);
    reflexivity.
Defined.

End CliFacts.
